(** * Indexing boolean expressions: a shallow embedding of [indexer.h]

    The development follows the source class by class: [Entry],
    [PostingList], [PostingListGroup], [InvertedIndexImpl],
    [InvertedIndex] and [Indexer].  Unsigned 64-bit words are integers
    of [Z] with the wrap-around written out; hash maps are [gmap]s;
    vectors are lists. *)

From Stdlib Require Import ZArith Lia.
From stdpp Require Import base list gmap strings sorting.

Local Open Scope Z_scope.

(** ** Machine integers *)

(** [std::uint64_t] arithmetic wraps modulo [2^64]. *)
Definition u64 (z : Z) : Z := z mod 2 ^ 64.

(** Conversion to a 32-bit [int] (two's complement). *)
Definition to_int (z : Z) : Z := (z + 2 ^ 31) mod 2 ^ 32 - 2 ^ 31.

(** [using EntryId = std::uint64_t] *)
Definition EntryId : Type := Z.

(** ** class Entry *)

Record Entry : Type := mkEntry { value_ : EntryId }.

Module Entry.

(** [Entry(EntryId docId, EntryId index, bool positive)] *)
Definition new (docId index : EntryId) (positive : bool) : Entry :=
  mkEntry (Z.lor (Z.lor (u64 (Z.shiftl docId 17)) (u64 (Z.shiftl index 1)))
                 (if positive then 1 else 0)).

Definition id (e : Entry) : EntryId := Z.shiftr (value_ e) 1.

Definition documentId (e : Entry) : EntryId := Z.shiftr (value_ e) 17.

Definition conjunctionIndex (e : Entry) : EntryId :=
  Z.land (Z.shiftr (value_ e) 1) 65535.

Definition isNegative (e : Entry) : bool :=
  negb (Z.testbit (value_ e) 0).

(** [operator==] and [operator<] *)
Definition eqb (a b : Entry) : bool := value_ a =? value_ b.

Definition ltb (a b : Entry) : bool := value_ a <? value_ b.

(** [Entry::max()], the word with every bit set. *)
Definition max : Entry := mkEntry (2 ^ 64 - 1).

(** [std::min(a, b)]: returns [b] when [b < a], otherwise [a]. *)
Definition min (a b : Entry) : Entry := if ltb b a then b else a.

(** The order of [operator<] as a relation, and its reflexive closure,
    the order [std::sort] arranges entries in. *)
Definition lt (a b : Entry) : Prop := value_ a < value_ b.

Definition le (a b : Entry) : Prop := value_ a <= value_ b.

End Entry.

Global Instance Entry_eq_dec : EqDecision Entry.
Proof. solve_decision. Defined.

Global Instance Entry_le_dec : RelDecision Entry.le.
Proof. intros a b. unfold Entry.le. apply _. Defined.

(** ** class PostingList

    The source keeps two pointers [current_] and [end_] into a vector
    owned by the index.  The model keeps the entries of the range
    [[current_, end_)] in [rest_] and the distance of [current_] from
    the start of the slice in [pos_]. *)

Record PostingList : Type := mkPostingList {
  pos_ : nat;
  rest_ : list Entry
}.

Module PostingList.

(** [PostingList(begin, end)] *)
Definition new (slice : list Entry) : PostingList := mkPostingList 0 slice.

(** [current_ == end_] *)
Definition empty (p : PostingList) : bool :=
  match rest_ p with [] => true | _ :: _ => false end.

(** [*current_]; the source leaves it undefined on an empty list. *)
Definition current (p : PostingList) : option Entry := head (rest_ p).

(** The [while] loop of [skipTo]. *)
Fixpoint skip_loop (target : EntryId) (pos : nat) (rest : list Entry)
  : PostingList :=
  match rest with
  | [] => mkPostingList pos []
  | e :: rest' =>
      if Entry.id e <? target then skip_loop target (S pos) rest'
      else mkPostingList pos rest
  end.

Definition skipTo (target : EntryId) (p : PostingList) : PostingList :=
  skip_loop target (pos_ p) (rest_ p).

End PostingList.

(** ** class PostingListGroup *)

Record PostingListGroup : Type := mkGroup {
  current_ : Entry;
  plists_ : list PostingList
}.

Module PostingListGroup.

Definition new : PostingListGroup := mkGroup Entry.max [].

Definition current (g : PostingListGroup) : Entry := current_ g.

Definition empty (g : PostingListGroup) : bool :=
  Entry.eqb (current_ g) Entry.max.

(** [operator<] *)
Definition ltb (a b : PostingListGroup) : bool :=
  Entry.ltb (current a) (current b).

Definition add (plist : PostingList) (g : PostingListGroup)
  : PostingListGroup :=
  match PostingList.current plist with
  | None => g
  | Some e => mkGroup (Entry.min (current_ g) e) (plists_ g ++ [plist])
  end.

(** The [for (auto& plist : plists_)] loop of [skipTo]: the running
    minimum and the members, each moved in place. *)
Fixpoint skip_members (target : EntryId) (min : Entry)
    (plists : list PostingList) : Entry * list PostingList :=
  match plists with
  | [] => (min, [])
  | plist :: tl =>
      if PostingList.empty plist then
        let '(m, tl') := skip_members target min tl in (m, plist :: tl')
      else
        let plist' := PostingList.skipTo target plist in
        match PostingList.current plist' with
        | None =>
            let '(m, tl') := skip_members target min tl in (m, plist' :: tl')
        | Some e =>
            let min' := if Entry.ltb e min then e else min in
            let '(m, tl') := skip_members target min' tl in (m, plist' :: tl')
        end
  end.

Definition skipTo (target : EntryId) (g : PostingListGroup)
  : PostingListGroup :=
  if Entry.eqb (current_ g) Entry.max then g
  else
    let '(m, plists') := skip_members target Entry.max (plists_ g) in
    mkGroup m plists'.

End PostingListGroup.


(** ** std::sort on a vector of groups

    [std::sort] promises an ascending permutation of its input and leaves
    the order of equivalent elements open.  The class collects what the
    retrieval relies on; [merge_sort_groups] below is one such sort. *)

Definition group_le (a b : PostingListGroup) : Prop :=
  Entry.le (PostingListGroup.current a) (PostingListGroup.current b).

Global Instance group_le_dec : RelDecision group_le.
Proof. intros a b. unfold group_le. apply _. Defined.

Class StdSort : Type := {
  sort_groups : list PostingListGroup → list PostingListGroup;
  sort_groups_perm : ∀ l, sort_groups l ≡ₚ l;
  sort_groups_sorted : ∀ l, StronglySorted group_le (sort_groups l)
}.

(** [std::sort] on a vector of entries; [operator<] is a strict total
    order on entries, so the result is the same for every sort. *)
Definition sort_entries (l : list Entry) : list Entry := merge_sort Entry.le l.

(** ** Documents *)

(** [std::variant<std::vector<std::string>, std::vector<int64_t>>]; the
    values an assignment hands to one call of its callback have the same
    shape. *)
Inductive Values : Type :=
| StringValues (l : list string)
| IntValues (l : list Z).

Record Expression (Key : Type) : Type := mkExpression {
  key : Key;
  values : Values;
  positive : bool
}.
Arguments mkExpression {Key}.
Arguments key {Key}.
Arguments values {Key}.
Arguments positive {Key}.

Record Conjunction (Key : Type) : Type := mkConjunction {
  expressions : list (Expression Key)
}.
Arguments mkConjunction {Key}.
Arguments expressions {Key}.

Record Document (Key : Type) : Type := mkDocument {
  conjunctions : list (Conjunction Key)
}.
Arguments mkDocument {Key}.
Arguments conjunctions {Key}.

(** [std::count_if] over the expressions. *)
Definition getConjunctionSize {Key : Type} (c : Conjunction Key) : nat :=
  length (filter (λ e, positive e = true) (expressions c)).

(** An [Assignment] is any type with [size()] and [trigger(callback)];
    the retrieval sees of it the number [size()] returns and the calls
    [(key, [beg, end))] that [trigger] makes, in order. *)
Record Assignment (Key : Type) : Type := mkAssignment {
  asg_size : Z;
  asg_calls : list (Key * Values)
}.
Arguments mkAssignment {Key}.
Arguments asg_size {Key}.
Arguments asg_calls {Key}.

(** [class ResultSet]: an [std::unordered_set<uint64_t>]. *)
Abbreviation ResultSet := (gset Z).

Definition addDocumentId (id : Z) (r : ResultSet) : ResultSet := {[ id ]} ∪ r.

(** ** class InvertedIndexImpl *)

Abbreviation InvertedIndexImpl Key T := (gmap Key (gmap T (list Entry))).

Module InvertedIndexImpl.
Section Impl.
Context {Key : Type} `{Countable Key} {T : Type} `{Countable T}.

(** [t[*beg].push_back(entry)] for every value. *)
Definition push_values (entry : Entry) (vals : list T)
    (t : gmap T (list Entry)) : gmap T (list Entry) :=
  foldl (λ t v, <[v := default [] (t !! v) ++ [entry]]> t) t vals.

(** [indexs_[key]] creates the inner map when the key is new. *)
Definition addEntry (entry : Entry) (k : Key) (vals : list T)
    (ix : InvertedIndexImpl Key T) : InvertedIndexImpl Key T :=
  <[k := push_values entry vals (default ∅ (ix !! k))]> ix.

Definition trigger (group : PostingListGroup) (k : Key) (vals : list T)
    (ix : InvertedIndexImpl Key T) : PostingListGroup :=
  match ix !! k with
  | None => group
  | Some t =>
      foldl (λ g v, match t !! v with
                    | None => g
                    | Some l => PostingListGroup.add (PostingList.new l) g
                    end) group vals
  end.

Definition build (ix : InvertedIndexImpl Key T) : InvertedIndexImpl Key T :=
  (λ t : gmap T (list Entry), sort_entries <$> t) <$> ix.

End Impl.
End InvertedIndexImpl.

(** ** class InvertedIndex *)

Record InvertedIndex (Key : Type) `{Countable Key} : Type := mkInvertedIndex {
  intIndex_ : InvertedIndexImpl Key Z;
  stringIndex_ : InvertedIndexImpl Key string
}.
Arguments mkInvertedIndex {Key _ _}.
Arguments intIndex_ {Key _ _}.
Arguments stringIndex_ {Key _ _}.

Module InvertedIndex.
Section Index.
Context {Key : Type} `{Countable Key}.

Definition new : InvertedIndex Key := mkInvertedIndex ∅ ∅.

(** The [if constexpr] on the value type is a match on the variant. *)
Definition addEntry (entry : Entry) (k : Key) (vals : Values)
    (ix : InvertedIndex Key) : InvertedIndex Key :=
  match vals with
  | StringValues l =>
      mkInvertedIndex (intIndex_ ix)
        (InvertedIndexImpl.addEntry entry k l (stringIndex_ ix))
  | IntValues l =>
      mkInvertedIndex (InvertedIndexImpl.addEntry entry k l (intIndex_ ix))
        (stringIndex_ ix)
  end.

Definition trigger (group : PostingListGroup) (k : Key) (vals : Values)
    (ix : InvertedIndex Key) : PostingListGroup :=
  match vals with
  | StringValues l => InvertedIndexImpl.trigger group k l (stringIndex_ ix)
  | IntValues l => InvertedIndexImpl.trigger group k l (intIndex_ ix)
  end.

Definition build (ix : InvertedIndex Key) : InvertedIndex Key :=
  mkInvertedIndex (InvertedIndexImpl.build (intIndex_ ix))
                  (InvertedIndexImpl.build (stringIndex_ ix)).

End Index.
End InvertedIndex.

(** ** class Indexer *)

Record Indexer (Key : Type) `{Countable Key} : Type := mkIndexer {
  indexs_ : list (InvertedIndex Key);
  z_ : list Entry
}.
Arguments mkIndexer {Key _ _}.
Arguments indexs_ {Key _ _}.
Arguments z_ {Key _ _}.

(** The number of entries between the cursors of a group and the ends of
    its posting lists; it bounds the turns of the inner loop. *)
Definition group_remaining (g : PostingListGroup) : nat :=
  sum_list_with (λ p, length (rest_ p)) (plists_ g).

(** One turn of the inner [for (;;)] of [retrieve] either leaves the loop
    or goes round with the groups moved and the result grown. *)
Inductive Step : Type :=
| Break
| Continue (plists : list PostingListGroup) (result : ResultSet).

Module Indexer.
Section Build.
Context {Key : Type} `{Countable Key}.

(** The body of [for (auto& expr : conjunction.expressions)]. *)
Definition add_expression (i j : Z) (size : nat) (ix : Indexer Key)
    (expr : Expression Key) : Indexer Key :=
  let entry := Entry.new i j (positive expr) in
  let grown :=
    if (length (indexs_ ix) <? size + 1)%nat
    then resize (size + 1) InvertedIndex.new (indexs_ ix)
    else indexs_ ix in
  mkIndexer
    (alter (InvertedIndex.addEntry entry (key expr) (values expr)) size grown)
    (z_ ix).

(** The body of the loop over the conjunctions of document [i]. *)
Definition add_conjunction (i j : Z) (ix : Indexer Key)
    (c : Conjunction Key) : Indexer Key :=
  let size := getConjunctionSize c in
  let ix' := foldl (add_expression i j size) ix (expressions c) in
  if (size =? 0)%nat
  then mkIndexer (indexs_ ix') (z_ ix' ++ [Entry.new i j true])
  else ix'.

(** The loop over [j]; the counter stays below the number of
    conjunctions, so [++j] does not wrap. *)
Fixpoint add_conjunctions (i j : Z) (ix : Indexer Key)
    (cs : list (Conjunction Key)) : Indexer Key :=
  match cs with
  | [] => ix
  | c :: cs' => add_conjunctions i (j + 1) (add_conjunction i j ix c) cs'
  end.

(** The loop over [i]; a document without conjunctions is passed over
    by the [continue]. *)
Fixpoint add_documents (i : Z) (ix : Indexer Key)
    (docs : list (Document Key)) : Indexer Key :=
  match docs with
  | [] => ix
  | doc :: docs' =>
      let ix' :=
        match conjunctions doc with
        | [] => ix
        | _ :: _ => add_conjunctions i 0 ix (conjunctions doc)
        end in
      add_documents (i + 1) ix' docs'
  end.

Definition build (documents : list (Document Key)) : Indexer Key :=
  let ix := add_documents 0 (mkIndexer [] []) documents in
  mkIndexer (InvertedIndex.build <$> indexs_ ix) (sort_entries (z_ ix)).

(** [Indexer::create] *)
Definition create (documents : list (Document Key)) : Indexer Key :=
  build documents.

(** The callback that [getPostingLists] hands to [trigger], run on the
    calls of the assignment in order. *)
Definition collect_groups (index : InvertedIndex Key)
    (calls : list (Key * Values)) : list PostingListGroup :=
  foldl (λ result call,
           let group := InvertedIndex.trigger PostingListGroup.new
                          call.1 call.2 index in
           if PostingListGroup.empty group then result
           else result ++ [group])
        [] calls.

(** [indexs_[k]] is read inside the bounds: [retrieve] only asks for
    [k ≤ indexs_.size() - 1]. *)
Definition getPostingLists (ix : Indexer Key) (k : nat)
    (s : Assignment Key) : list PostingListGroup :=
  let result :=
    match indexs_ ix !! k with
    | Some index => collect_groups index (asg_calls s)
    | None => []
    end in
  if (k =? 0)%nat && negb (bool_decide (z_ ix = []))
  then result ++ [PostingListGroup.add (PostingList.new (z_ ix))
                    PostingListGroup.new]
  else result.

End Build.

(** The veto loop [for (size_t l = k; l < plists.size(); ++l)]: [n]
    counts the indices that are left. *)
Fixpoint veto_loop (n : nat) (rejectId : EntryId) (l : nat)
    (plists : list PostingListGroup) : list PostingListGroup :=
  match n with
  | O => plists
  | S n' =>
      match plists !! l with
      | None => plists
      | Some g =>
          if Entry.id (PostingListGroup.current g) =? rejectId
          then veto_loop n' rejectId (S l)
                 (<[l := PostingListGroup.skipTo (u64 (rejectId + 1)) g]> plists)
          else plists
      end
  end.

(** [for (size_t l = 0; l < k; ++l) plists[l].skipTo(nextId)] *)
Definition skip_first (k : nat) (nextId : EntryId)
    (plists : list PostingListGroup) : list PostingListGroup :=
  foldl (λ pl l, alter (PostingListGroup.skipTo nextId) l pl) plists (seq 0 k).

(** The body of the inner loop after [std::sort].  [None] stands for a
    read of [plists[k - 1]] or [plists[0]] outside the vector, which the
    size test before the loop rules out. *)
Definition merge_body (k : nat) (plists : list PostingListGroup)
    (result : ResultSet) : option Step :=
  match plists !! (k - 1)%nat, plists !! 0%nat with
  | Some gk, Some g0 =>
      if PostingListGroup.empty gk then Some Break
      else if Entry.id (PostingListGroup.current g0)
              =? Entry.id (PostingListGroup.current gk)
      then
        if Entry.isNegative (PostingListGroup.current g0) then
          let rejectId := Entry.id (PostingListGroup.current g0) in
          let plists' := veto_loop (length plists - k) rejectId k plists in
          match plists' !! (k - 1)%nat with
          | Some gk' =>
              let nextId := u64 (Entry.id (PostingListGroup.current gk') + 1) in
              Some (Continue (skip_first k nextId plists') result)
          | None => None
          end
        else
          let docId := Entry.documentId (PostingListGroup.current gk) in
          let result' := addDocumentId docId result in
          let nextId := u64 (Entry.id (PostingListGroup.current gk) + 1) in
          Some (Continue (skip_first k nextId plists) result')
      else
        let nextId := Entry.id (PostingListGroup.current gk) in
        Some (Continue (skip_first k nextId plists) result)
  | _, _ => None
  end.

Section Retrieve.
Context {Key : Type} `{Countable Key} `{StdSort}.

Definition merge_step (k : nat) (plists : list PostingListGroup)
    (result : ResultSet) : option Step :=
  merge_body k (sort_groups plists) result.

(** The inner [for (;;)], with a bound on the number of turns; [None]
    when the bound is used up. *)
Fixpoint merge_loop (fuel : nat) (k : nat) (plists : list PostingListGroup)
    (result : ResultSet) : option ResultSet :=
  match fuel with
  | O => None
  | S fuel' =>
      match merge_step k plists result with
      | None => None
      | Some Break => Some result
      | Some (Continue plists' result') => merge_loop fuel' k plists' result'
      end
  end.

(** The entries that the cursors of the groups have not passed yet. *)
Definition remaining (plists : list PostingListGroup) : nat :=
  sum_list_with group_remaining plists.

(** The body of the outer loop for the size [i]. *)
Definition retrieve_size (ix : Indexer Key) (s : Assignment Key) (i : nat)
    (result : ResultSet) : option ResultSet :=
  let plists := getPostingLists ix i s in
  let k := if (i =? 0)%nat then 1%nat else i in
  if (length plists <? k)%nat then Some result
  else merge_loop (S (remaining plists)) k plists result.

(** [for (int i = ...; i >= 0; --i)], run for [i = count - 1] down to 0. *)
Fixpoint retrieve_sizes (ix : Indexer Key) (s : Assignment Key) (count : nat)
    (result : ResultSet) : option ResultSet :=
  match count with
  | O => Some result
  | S i =>
      match retrieve_size ix s i result with
      | Some result' => retrieve_sizes ix s i result'
      | None => None
      end
  end.

(** [std::min<int>(indexs_.size() - 1, s.size())]: the difference is
    taken in [size_t] and both arguments are converted to [int]. *)
Definition first_size (ix : Indexer Key) (s : Assignment Key) : Z :=
  Z.min (to_int (u64 (Z.of_nat (length (indexs_ ix)) - 1)))
        (to_int (asg_size s)).

Definition retrieve (result : ResultSet) (s : Assignment Key)
    (ix : Indexer Key) : option ResultSet :=
  let start := first_size ix s in
  if start <? 0 then Some result
  else retrieve_sizes ix s (S (Z.to_nat start)) result.

End Retrieve.
End Indexer.

(** One conforming [std::sort]: merge sort on [current()]. *)
Definition merge_sort_groups (l : list PostingListGroup) : list PostingListGroup :=
  merge_sort group_le l.

Global Instance group_le_trans : Transitive group_le.
Proof. intros a b c. unfold group_le, Entry.le. lia. Qed.

Global Instance group_le_total : Total group_le.
Proof. intros a b. unfold group_le, Entry.le. lia. Qed.

Global Instance merge_StdSort : StdSort := {|
  sort_groups := merge_sort_groups;
  sort_groups_perm := merge_sort_Permutation group_le;
  sort_groups_sorted := StronglySorted_merge_sort group_le
|}.

(** * Vocabulary of the statements *)

(** A word of 64 bits. *)
Definition is_u64 (z : Z) : Prop := 0 <= z < 2 ^ 64.

(** The bounds under which the three fields of an Entry do not overlap. *)
Definition in_bounds (docId index : EntryId) : Prop :=
  0 <= docId < 2 ^ 47 ∧ 0 <= index < 2 ^ 16.

(** Lexicographic order on (document, conjunction, polarity), with
    [false] before [true]. *)
Definition lex_lt (d1 i1 : Z) (p1 : bool) (d2 i2 : Z) (p2 : bool) : Prop :=
  d1 < d2 ∨ (d1 = d2 ∧ (i1 < i2 ∨ (i1 = i2 ∧ p1 = false ∧ p2 = true))).

Definition valid_plist (p : PostingList) : Prop :=
  Forall (λ e, is_u64 (value_ e)) (rest_ p).

(** Groups a client can obtain: the class hides its fields, so every
    group comes from the constructor by [add] and [skipTo]. *)
Inductive reachable : PostingListGroup → Prop :=
| reachable_new : reachable PostingListGroup.new
| reachable_add plist g :
    valid_plist plist → reachable g → reachable (PostingListGroup.add plist g)
| reachable_skipTo target g :
    reachable g → reachable (PostingListGroup.skipTo target g).

Definition exhausted (plists : list PostingList) : Prop :=
  Forall (λ p, PostingList.empty p = true) plists.

(** [m] is the least current entry of the members that have one. *)
Definition min_current (m : Entry) (plists : list PostingList) : Prop :=
  (∃ p, p ∈ plists ∧ PostingList.current p = Some m) ∧
  (∀ p e, p ∈ plists → PostingList.current p = Some e → Entry.le m e).

(** The running minimum of the second loop of [skipTo], as a fold. *)
Definition min_over (m : Entry) (plists : list PostingList) : Entry :=
  fold_left (λ m p, match PostingList.current p with
                    | Some e => if Entry.ltb e m then e else m
                    | None => m
                    end) plists m.

(** A value of either domain, and the values of a list of them. *)
Inductive Value : Type :=
| IntValue (z : Z)
| StringValue (s : string).

Global Instance Value_eq_dec : EqDecision Value.
Proof. solve_decision. Defined.

Definition value_list (vs : Values) : list Value :=
  match vs with
  | IntValues l => IntValue <$> l
  | StringValues l => StringValue <$> l
  end.

(** The posting list stored under a key and a value ([[]] when there is
    none), in one map, in one index, and in the index of one size. *)
Definition impl_postings {Key : Type} `{Countable Key} {T : Type} `{Countable T}
    (m : InvertedIndexImpl Key T) (k : Key) (v : T) : list Entry :=
  match m !! k with
  | Some t => default [] (t !! v)
  | None => []
  end.

Definition index_postings {Key : Type} `{Countable Key}
    (index : InvertedIndex Key) (k : Key) (v : Value) : list Entry :=
  match v with
  | IntValue z => impl_postings (intIndex_ index) k z
  | StringValue s => impl_postings (stringIndex_ index) k s
  end.

Definition postings_at {Key : Type} `{Countable Key}
    (indexs : list (InvertedIndex Key)) (size : nat) (k : Key) (v : Value)
  : list Entry :=
  match indexs !! size with
  | Some index => index_postings index k v
  | None => []
  end.

(** A conjunction has [size] positive predicates and one of its predicates
    has polarity [p], the key [k] and the value [v] among its values. *)
Definition conj_stored {Key : Type} (c : Conjunction Key) (size : nat)
    (k : Key) (v : Value) (p : bool) : Prop :=
  getConjunctionSize c = size ∧
  ∃ expr, expr ∈ expressions c ∧ key expr = k ∧
          v ∈ value_list (values expr) ∧ positive expr = p.

(** The entries that [build] files under [(size, k, v)], and in [z_]. *)
Definition stored {Key : Type} (docs : list (Document Key)) (size : nat)
    (k : Key) (v : Value) (x : Entry) : Prop :=
  ∃ (i j : nat) doc c p,
    docs !! i = Some doc ∧ conjunctions doc !! j = Some c ∧
    conj_stored c size k v p ∧ x = Entry.new (Z.of_nat i) (Z.of_nat j) p.

Definition stored_zero {Key : Type} (docs : list (Document Key)) (x : Entry)
  : Prop :=
  ∃ (i j : nat) doc c,
    docs !! i = Some doc ∧ conjunctions doc !! j = Some c ∧
    getConjunctionSize c = 0%nat ∧ x = Entry.new (Z.of_nat i) (Z.of_nat j) true.

(** The longest prefix of groups whose current entry has the given id. *)
Fixpoint agreeing_prefix (rejectId : EntryId) (l : list PostingListGroup)
  : list PostingListGroup :=
  match l with
  | [] => []
  | g :: l' =>
      if Entry.id (PostingListGroup.current g) =? rejectId
      then g :: agreeing_prefix rejectId l'
      else []
  end.

(** The representation invariant of a group: [current_] is a lower bound
    of the members' current entries and is one of them or the sentinel. *)
Definition group_inv (g : PostingListGroup) : Prop :=
  Forall valid_plist (plists_ g) ∧
  (∀ p e, p ∈ plists_ g → PostingList.current p = Some e →
          Entry.le (current_ g) e) ∧
  (current_ g = Entry.max ∨
   ∃ p, p ∈ plists_ g ∧ PostingList.current p = Some (current_ g)).

(** The entries of a group that its cursors have not passed. *)
Definition group_entries (g : PostingListGroup) : list Entry :=
  mjoin (rest_ <$> plists_ g).

(** A group over ascending posting lists none of whose entries is the
    sentinel. *)
Definition good_group (g : PostingListGroup) : Prop :=
  group_inv g ∧
  Forall (λ p, StronglySorted Entry.le (rest_ p)) (plists_ g) ∧
  Forall (λ p, Forall (λ e, e ≠ Entry.max) (rest_ p)) (plists_ g).

(** Among a list of entries there is a positive (a negative) one with the
    id [X]. *)
Definition has_pos (X : EntryId) (o : list Entry) : Prop :=
  Exists (λ e, Entry.id e = X ∧ Entry.isNegative e = false) o.

Definition has_neg (X : EntryId) (o : list Entry) : Prop :=
  Exists (λ e, Entry.id e = X ∧ Entry.isNegative e = true) o.

(** What the inner loop for [k] required groups looks for: an id that at
    least [k] groups hold positively and that no group holds negatively. *)
Definition true_match (k : nat) (origs : list (list Entry)) (X : EntryId) : Prop :=
  (k <= length (filter (has_pos X) origs))%nat ∧
  Forall (λ o, ¬ has_neg X o) origs.

(** The state of the inner loop as the proof sees it: every group paired
    with the entries it started with. *)
Abbreviation LoopState := (list (list Entry * PostingListGroup)).

(** Some group has passed an entry with the id [X]. *)
Definition consumed (st : LoopState) (X : EntryId) : Prop :=
  ∃ o g e, (o, g) ∈ st ∧ e ∈ o ∧ Entry.id e = X ∧ e ∉ group_entries g.

(** Some group still has an entry with the id [X] ahead. *)
Definition remains (st : LoopState) (X : EntryId) : Prop :=
  ∃ o g e, (o, g) ∈ st ∧ e ∈ group_entries g ∧ Entry.id e = X.

Definition state_ok (st : LoopState) : Prop :=
  Forall (λ og, good_group og.2 ∧ ∀ e, e ∈ group_entries og.2 → e ∈ og.1) st.

(** The first [b] groups are moved to [n]. *)
Definition advance (b : nat) (n : EntryId) (st : LoopState) : LoopState :=
  (prod_map id (PostingListGroup.skipTo n) <$> take b st) ++ drop b st.

(** The invariant of the inner loop for [k] required groups that started
    from the entries [origs] and the result [r0]. *)
Definition loop_inv (k : nat) (origs : list (list Entry)) (r0 : ResultSet)
    (st : LoopState) (r : ResultSet) : Prop :=
  st.*1 ≡ₚ origs ∧
  state_ok st ∧
  (∀ X, true_match k origs X → consumed st X → Z.shiftr X 16 ∈ r) ∧
  (∀ d, d ∈ r → d ∈ r0 ∨ ∃ X, true_match k origs X ∧ d = Z.shiftr X 16) ∧
  (∀ X, consumed st X → remains st X → true_match k origs X).

(** The invariant as a property of the vector of groups. *)
Definition groups_inv (k : nat) (origs : list (list Entry)) (r0 : ResultSet)
    (gs : list PostingListGroup) (r : ResultSet) : Prop :=
  (1 <= k <= length gs)%nat ∧
  ∃ st : LoopState, st.*2 = gs ∧ loop_inv k origs r0 st r.

(** An ascending list of 64-bit entries below the sentinel. *)
Definition good_list (l : list Entry) : Prop :=
  StronglySorted Entry.le l ∧
  Forall (λ e, is_u64 (value_ e)) l ∧
  Forall (λ e, e ≠ Entry.max) l.

(** The group that the callback of [getPostingLists] builds for one call
    of the assignment. *)
Definition call_group {Key : Type} `{Countable Key} (index : InvertedIndex Key)
    (call : Key * Values) : PostingListGroup :=
  InvertedIndex.trigger PostingListGroup.new call.1 call.2 index.

(** ** The meaning of documents, in the words of the specification *)

(** [A[k]]: the values that the assignment binds to the key [k]. *)
Definition asg_values {Key : Type} `{EqDecision Key} (s : Assignment Key)
    (k : Key) : list Value :=
  mjoin ((λ call : Key * Values,
            if decide (call.1 = k) then value_list call.2 else [])
         <$> asg_calls s).

(** Some value assigned to the key of the predicate is among its values. *)
Definition predicate_hit {Key : Type} `{EqDecision Key} (s : Assignment Key)
    (expr : Expression Key) : Prop :=
  Exists (λ v, v ∈ value_list (values expr)) (asg_values s (key expr)).

(** A positive predicate holds when it is hit, a negative one when it is
    not. *)
Definition expression_holds {Key : Type} `{EqDecision Key} (s : Assignment Key)
    (expr : Expression Key) : Prop :=
  if positive expr then predicate_hit s expr else ¬ predicate_hit s expr.

Definition conjunction_holds {Key : Type} `{EqDecision Key} (s : Assignment Key)
    (c : Conjunction Key) : Prop :=
  Forall (expression_holds s) (expressions c).

Definition document_matches {Key : Type} `{EqDecision Key} (s : Assignment Key)
    (doc : Document Key) : Prop :=
  Exists (conjunction_holds s) (conjunctions doc).

Global Instance predicate_hit_dec {Key : Type} `{EqDecision Key}
    (s : Assignment Key) (expr : Expression Key) : Decision (predicate_hit s expr).
Proof. unfold predicate_hit. apply _. Defined.

Global Instance expression_holds_dec {Key : Type} `{EqDecision Key}
    (s : Assignment Key) (expr : Expression Key) : Decision (expression_holds s expr).
Proof. unfold expression_holds. destruct (positive expr); apply _. Defined.

Global Instance conjunction_holds_dec {Key : Type} `{EqDecision Key}
    (s : Assignment Key) (c : Conjunction Key) : Decision (conjunction_holds s c).
Proof. unfold conjunction_holds. apply _. Defined.

Global Instance document_matches_dec {Key : Type} `{EqDecision Key}
    (s : Assignment Key) (doc : Document Key) : Decision (document_matches s doc).
Proof. unfold document_matches. apply _. Defined.

(** ** The inputs on which [retrieve] computes that meaning *)

(** The keys of the positive predicates of a conjunction. *)
Definition positive_keys {Key : Type} (c : Conjunction Key) : list Key :=
  key <$> filter (λ e, positive e = true) (expressions c).

(** Fewer than [2^47] documents of at most [2^16] conjunctions, so
    that every Entry is inside the bounds and below the sentinel; in a
    conjunction the positive predicates have different keys and are fewer
    than [2^31]; and a conjunction without any predicate does not come
    alone: some conjunction of the list has a predicate. *)
Definition indexable {Key : Type} (docs : list (Document Key)) : Prop :=
  Z.of_nat (length docs) < 2 ^ 47 ∧
  Forall (λ doc,
            Z.of_nat (length (conjunctions doc)) <= 2 ^ 16 ∧
            Forall (λ c, NoDup (positive_keys c) ∧
                         Z.of_nat (getConjunctionSize c) < 2 ^ 31)
                   (conjunctions doc)) docs ∧
  (Exists (λ doc, Exists (λ c, expressions c = []) (conjunctions doc)) docs →
   Exists (λ doc, Exists (λ c, expressions c ≠ []) (conjunctions doc)) docs).

(** [trigger] calls the callback once per key, and [size()] is an [int]
    that is not below the number of calls. *)
Definition well_formed_assignment {Key : Type} (s : Assignment Key) : Prop :=
  NoDup (asg_calls s).*1 ∧
  Z.of_nat (length (asg_calls s)) <= asg_size s < 2 ^ 31.

(** The number of groups the inner loop requires for the size [i]. *)
Definition required (i : nat) : nat := if (i =? 0)%nat then 1%nat else i.

(** The entries of the groups that [getPostingLists] collects for the
    size [i] on the built index, and the calls of the assignment whose
    group holds the id [X] positively. *)
Definition size_origs {Key : Type} `{Countable Key} (docs : list (Document Key))
    (s : Assignment Key) (i : nat) : list (list Entry) :=
  group_entries <$> Indexer.getPostingLists (Indexer.build docs) i s.

Definition hit_calls {Key : Type} `{Countable Key} (index : InvertedIndex Key)
    (s : Assignment Key) (X : EntryId) : list (Key * Values) :=
  filter (λ call, has_pos X (group_entries (call_group index call))) (asg_calls s).

Global Instance indexable_dec {Key : Type} `{EqDecision Key}
    (docs : list (Document Key)) : Decision (indexable docs).
Proof. unfold indexable, positive_keys. apply _. Defined.

Global Instance well_formed_assignment_dec {Key : Type} `{EqDecision Key}
    (s : Assignment Key) : Decision (well_formed_assignment s).
Proof. unfold well_formed_assignment. apply _. Defined.

(** ** Vocabulary of the further properties *)

(** The conjunctions of all documents, in order. *)
Definition all_conjunctions {Key : Type} (docs : list (Document Key))
  : list (Conjunction Key) :=
  mjoin (conjunctions <$> docs).

(** The number of indices that filing a conjunction asks for: one more
    than its size when it has a predicate, none when it has no predicate,
    since the [resize] sits in the loop over the predicates. *)
Definition index_slots {Key : Type} (c : Conjunction Key) : nat :=
  match expressions c with
  | [] => 0%nat
  | _ :: _ => S (getConjunctionSize c)
  end.

(** The number of sizes the outer loop of [retrieve] goes through. *)
Definition retrieve_count {Key : Type} `{Countable Key} (ix : Indexer Key)
    (s : Assignment Key) : nat :=
  if Indexer.first_size ix s <? 0 then 0%nat
  else S (Z.to_nat (Indexer.first_size ix s)).

(** A second conforming [std::sort]: merge sort of the reversed vector,
    which leaves groups with equal [current()] in another order. *)
Definition merge_sort_groups_rev (l : list PostingListGroup)
  : list PostingListGroup :=
  merge_sort group_le (reverse l).

Definition rev_StdSort : StdSort := {|
  sort_groups := merge_sort_groups_rev;
  sort_groups_perm := λ l,
    transitivity (merge_sort_Permutation group_le (reverse l))
                 (reverse_Permutation l);
  sort_groups_sorted := λ l, StronglySorted_merge_sort group_le (reverse l)
|}.

(** ** example.cpp

    The class [Assignment] of the example, with the values of its fields
    [va] and [vb] left open, and the documents and the retrieval of
    [main]. *)

Module Example.

Definition trigger (va : Z) (vb : list string) : list (string * Values) :=
  [("a", IntValues [va]); ("b", StringValues vb)].

Definition size : Z := 2.

Definition assignment (va : Z) (vb : list string) : Assignment string :=
  mkAssignment size (trigger va vb).

Definition docs : list (Document string) :=
  [mkDocument [mkConjunction [mkExpression "a" (IntValues [3]) true]]].

Definition main `{StdSort} (va : Z) (vb : list string) : option ResultSet :=
  Indexer.retrieve ∅ (assignment va vb) (Indexer.create docs).

End Example.

(** * Properties *)

(** ** Arithmetic of the packed word *)

(** Evaluate the closed powers of two, so that [lia] sees numerals. *)
Ltac eval_pow2 :=
  repeat match goal with
  | |- context [2 ^ ?n] =>
      let v := eval vm_compute in (2 ^ n) in
      progress change (2 ^ n) with v
  | H : context [2 ^ ?n] |- _ =>
      let v := eval vm_compute in (2 ^ n) in
      progress change (2 ^ n) with v in H
  end.

Lemma div_known (a b q r : Z) : 0 <= r < b → a = b * q + r → a / b = q.
Proof. intros Hr ->. symmetry. apply Z.div_unique with (r := r); [ left | ]; lia. Qed.

Lemma lor_shiftl_add (hi lo n : Z) :
  0 <= n → 0 <= lo < 2 ^ n → Z.lor (Z.shiftl hi n) lo = hi * 2 ^ n + lo.
Proof.
  intros Hn Hlo.
  rewrite <- Z.shiftl_mul_pow2 by lia.
  rewrite <- Z.lxor_lor, <- Z.add_nocarry_lxor; try reflexivity.
  all: apply Z.bits_inj'; intros k Hk; rewrite Z.land_spec, Z.bits_0.
  all: destruct (Z.lt_ge_cases k n) as [Hlt | Hge].
  all: try (rewrite Z.shiftl_spec_low by lia; reflexivity).
  all: destruct (Z.eq_dec lo 0) as [-> | Hne];
       [ rewrite Z.bits_0; apply andb_false_r | ].
  all: rewrite (Z.bits_above_log2 lo k), andb_false_r; try reflexivity; try lia.
  all: apply Z.log2_lt_pow2; try lia.
  all: apply Z.lt_le_trans with (2 ^ n); [ lia | apply Z.pow_le_mono_r; lia ].
Qed.

Lemma Entry_new_value (d i : EntryId) (p : bool) :
  in_bounds d i →
  value_ (Entry.new d i p) = d * 2 ^ 17 + i * 2 + (if p then 1 else 0).
Proof.
  intros [Hd Hi]. unfold Entry.new, u64. simpl value_.
  rewrite !Z.shiftl_mul_pow2 by lia.
  rewrite (Z.mod_small (d * 2 ^ 17)) by (eval_pow2; lia).
  rewrite (Z.mod_small (i * 2 ^ 1)) by (eval_pow2; lia).
  rewrite <- !Z.shiftl_mul_pow2 by lia.
  replace (Z.shiftl d 17) with (Z.shiftl (Z.shiftl d 16) 1)
    by (rewrite Z.shiftl_shiftl by lia; reflexivity).
  rewrite <- Z.shiftl_lor.
  rewrite (lor_shiftl_add d i 16) by (eval_pow2; lia).
  rewrite (lor_shiftl_add _ (if p then 1 else 0) 1)
    by (destruct p; eval_pow2; lia).
  rewrite !Z.shiftl_mul_pow2 by lia. eval_pow2. lia.
Qed.

(** ** Entry *)

(** C10: inside the bounds an Entry gives back the fields it was built
    from: [documentId] and [conjunctionIndex] return the arguments,
    [isNegative] is the negation of the polarity, and the positive and the
    negative Entry of one (document, conjunction) have the same [id]. *)
Theorem Entry_accessors_roundtrip (d i : EntryId) (p : bool) :
  in_bounds d i →
  Entry.documentId (Entry.new d i p) = d ∧
  Entry.conjunctionIndex (Entry.new d i p) = i ∧
  Entry.isNegative (Entry.new d i p) = negb p ∧
  Entry.id (Entry.new d i true) = Entry.id (Entry.new d i false).
Proof.
  intros Hb. pose proof Hb as [Hd Hi].
  unfold Entry.documentId, Entry.conjunctionIndex, Entry.isNegative, Entry.id.
  rewrite !Entry_new_value by exact Hb.
  rewrite !Z.shiftr_div_pow2 by lia.
  change 65535 with (Z.ones 16). rewrite Z.land_ones by lia.
  rewrite Z.bit0_odd. eval_pow2.
  repeat split.
  - apply div_known with (r := i * 2 + (if p then 1 else 0)); destruct p; lia.
  - rewrite (div_known _ 2 (d * 65536 + i) (if p then 1 else 0))
      by (destruct p; lia).
    rewrite Z.add_comm, Z.mod_add by lia. apply Z.mod_small; lia.
  - replace (d * 131072 + i * 2 + (if p then 1 else 0))
      with ((if p then 1 else 0) + 2 * (d * 65536 + i)) by lia.
    rewrite Z.odd_add_mul_2. destruct p; reflexivity.
  - rewrite (div_known _ 2 (d * 65536 + i) 1) by lia.
    rewrite (div_known _ 2 (d * 65536 + i) 0) by lia. reflexivity.
Qed.

Lemma Entry_accessors_roundtrip_witness :
  Entry.documentId (Entry.new 5 3 true) = 5 ∧
  Entry.conjunctionIndex (Entry.new 5 3 true) = 3 ∧
  Entry.isNegative (Entry.new 5 3 true) = negb true ∧
  Entry.id (Entry.new 5 3 true) = Entry.id (Entry.new 5 3 false).
Proof. apply (Entry_accessors_roundtrip 5 3 true). unfold in_bounds. eval_pow2. lia. Defined.

(** C5: inside the bounds, [operator<] on Entries is the lexicographic
    order on (document id, conjunction index, polarity) with negative
    before positive; for one (document, conjunction) the negative Entry is
    strictly below the positive one. *)
Theorem Entry_lt_lexicographic (d1 i1 : EntryId) (p1 : bool)
    (d2 i2 : EntryId) (p2 : bool) :
  in_bounds d1 i1 → in_bounds d2 i2 →
  (Entry.ltb (Entry.new d1 i1 p1) (Entry.new d2 i2 p2) = true
     ↔ lex_lt d1 i1 p1 d2 i2 p2) ∧
  Entry.ltb (Entry.new d1 i1 false) (Entry.new d1 i1 true) = true.
Proof.
  intros H1 H2. unfold Entry.ltb, lex_lt.
  rewrite !Entry_new_value by assumption.
  destruct H1 as [Hd1 Hi1], H2 as [Hd2 Hi2]. eval_pow2.
  split; [ rewrite Z.ltb_lt | apply Z.ltb_lt; lia ].
  destruct p1, p2; split; intros H; try lia.
  all: destruct H as [H | [-> [H | (-> & H & H')]]]; try lia; discriminate.
Qed.

Lemma Entry_lt_lexicographic_witness :
  (Entry.ltb (Entry.new 2 7 true) (Entry.new 3 0 false) = true
     ↔ lex_lt 2 7 true 3 0 false) ∧
  Entry.ltb (Entry.new 2 7 false) (Entry.new 2 7 true) = true.
Proof.
  apply (Entry_lt_lexicographic 2 7 true 3 0 false);
    unfold in_bounds; eval_pow2; lia.
Defined.

(** C4, as stated, fails: the positive Entry of document [2^47 - 1] and
    conjunction [2^16 - 1] is inside the bounds and is the sentinel. *)
Lemma Entry_max_not_strict :
  in_bounds (2 ^ 47 - 1) (2 ^ 16 - 1) ∧
  Entry.new (2 ^ 47 - 1) (2 ^ 16 - 1) true = Entry.max ∧
  Entry.ltb (Entry.new (2 ^ 47 - 1) (2 ^ 16 - 1) true) Entry.max = false.
Proof. unfold in_bounds. repeat split; vm_compute; congruence. Qed.

(** C4, amended: no Entry built inside the bounds is above [Entry::max()],
    and every such Entry is strictly below it except the positive Entry of
    document [2^47 - 1] and conjunction [2^16 - 1], which equals it. *)
Theorem Entry_max_upper_bound (d i : EntryId) (p : bool) :
  in_bounds d i →
  Entry.ltb Entry.max (Entry.new d i p) = false ∧
  (Entry.ltb (Entry.new d i p) Entry.max = true
     ↔ ¬ (d = 2 ^ 47 - 1 ∧ i = 2 ^ 16 - 1 ∧ p = true)) ∧
  (Entry.new d i p = Entry.max ↔ d = 2 ^ 47 - 1 ∧ i = 2 ^ 16 - 1 ∧ p = true).
Proof.
  intros Hb. pose proof (Entry_new_value d i p Hb) as Hv.
  destruct Hb as [Hd Hi]. unfold Entry.ltb.
  destruct (Entry.new d i p) as [v]. simpl in *. subst v.
  unfold Entry.max. simpl. eval_pow2.
  split; [ apply Z.ltb_ge; destruct p; lia | ].
  split; [ rewrite Z.ltb_lt | ].
  - split.
    + intros H (-> & -> & ->). lia.
    + intros H. destruct p; lia.
  - split.
    + intros [= H]. destruct p; lia.
    + intros (-> & -> & ->). reflexivity.
Qed.

Lemma Entry_max_upper_bound_witness :
  Entry.ltb Entry.max (Entry.new 1 2 false) = false ∧
  (Entry.ltb (Entry.new 1 2 false) Entry.max = true
     ↔ ¬ (1 = 2 ^ 47 - 1 ∧ 2 = 2 ^ 16 - 1 ∧ false = true)) ∧
  (Entry.new 1 2 false = Entry.max
     ↔ 1 = 2 ^ 47 - 1 ∧ 2 = 2 ^ 16 - 1 ∧ false = true).
Proof.
  apply (Entry_max_upper_bound 1 2 false). unfold in_bounds. eval_pow2. lia.
Defined.

(** ** PostingList *)

Lemma skip_loop_spec (target : EntryId) (rest : list Entry) (pos : nat) :
  ∃ skipped,
    rest = skipped ++ rest_ (PostingList.skip_loop target pos rest) ∧
    Forall (λ e, Entry.id e < target) skipped ∧
    pos_ (PostingList.skip_loop target pos rest) = (pos + length skipped)%nat.
Proof.
  revert pos. induction rest as [| e rest IH]; intros pos; simpl.
  - exists []. simpl. auto with lia.
  - destruct (Z.ltb_spec (Entry.id e) target) as [Hlt | Hge].
    + destruct (IH (S pos)) as (sk & Heq & Hall & Hpos).
      exists (e :: sk). simpl. rewrite <- Heq, Hpos.
      split; [ reflexivity | split; [ constructor; assumption | lia ] ].
    + exists []. simpl. auto with lia.
Qed.

Lemma skip_loop_head (target : EntryId) (rest : list Entry) (pos : nat) (e : Entry) :
  head (rest_ (PostingList.skip_loop target pos rest)) = Some e →
  target <= Entry.id e.
Proof.
  revert pos. induction rest as [| x rest IH]; intros pos; simpl.
  - discriminate.
  - destruct (Z.ltb_spec (Entry.id x) target) as [Hlt | Hge].
    + apply IH.
    + simpl. intros [= ->]. exact Hge.
Qed.

Lemma Entry_id_mono (a b : Entry) : Entry.le a b → Entry.id a <= Entry.id b.
Proof.
  unfold Entry.le, Entry.id. intros Hle.
  rewrite !Z.shiftr_div_pow2 by lia. apply Z.div_le_mono; lia.
Qed.

Lemma skip_loop_sorted (target : EntryId) (rest : list Entry) (pos : nat) :
  StronglySorted Entry.le rest →
  Forall (λ e, target <= Entry.id e)
         (rest_ (PostingList.skip_loop target pos rest)).
Proof.
  intros Hs. revert pos. induction Hs as [| e rest Hs IH Hall]; intros pos; simpl.
  - constructor.
  - destruct (Z.ltb_spec (Entry.id e) target) as [Hlt | Hge]; [ apply IH | ].
    simpl. constructor; [ exact Hge | ].
    eapply Forall_impl; [ exact Hall | ].
    intros x Hx. apply Entry_id_mono in Hx. lia.
Qed.

(** C7: [skipTo] leaves the cursor on the first entry, at or after the old
    cursor position, whose id is not below the target, or at the end when
    there is none; the entries stepped over all have a smaller id and the
    cursor does not move backward.  This needs no order on the slice; over
    an ascending slice no entry from the new cursor on is below the
    target. *)
Theorem PostingList_skipTo_first_geq (target : EntryId) (p : PostingList) :
  ∃ skipped,
    rest_ p = skipped ++ rest_ (PostingList.skipTo target p) ∧
    Forall (λ e, Entry.id e < target) skipped ∧
    (∀ e, PostingList.current (PostingList.skipTo target p) = Some e →
          target <= Entry.id e) ∧
    (PostingList.empty (PostingList.skipTo target p) = true ∨
     ∃ e, PostingList.current (PostingList.skipTo target p) = Some e) ∧
    pos_ (PostingList.skipTo target p) = (pos_ p + length skipped)%nat ∧
    (pos_ p <= pos_ (PostingList.skipTo target p))%nat ∧
    (StronglySorted Entry.le (rest_ p) →
     Forall (λ e, target <= Entry.id e) (rest_ (PostingList.skipTo target p))).
Proof.
  unfold PostingList.skipTo, PostingList.current, PostingList.empty.
  destruct (skip_loop_spec target (rest_ p) (pos_ p)) as (sk & Heq & Hall & Hpos).
  exists sk.
  split; [ exact Heq | ]. split; [ exact Hall | ].
  split; [ intros e; apply skip_loop_head | ].
  split; [ | split; [ exact Hpos | split; [ lia | ] ] ].
  - destruct (rest_ (PostingList.skip_loop target (pos_ p) (rest_ p))) as [| e l];
      [ left | right; exists e ]; reflexivity.
  - intros Hs. apply skip_loop_sorted. exact Hs.
Qed.

(** ** PostingListGroup *)

(** Closed lists of closed 64-bit words. *)
Ltac solve_valid :=
  unfold valid_plist; simpl;
  repeat (apply Forall_cons_2; [ vm_compute; split; congruence | ]);
  apply Forall_nil_2.

Lemma Entry_ltb_lt (a b : Entry) : Entry.ltb a b = true ↔ Entry.lt a b.
Proof. apply Z.ltb_lt. Qed.

(** The orders that the sorts establish, in terms of [operator<]: no
    element is less than one before it. *)
Lemma Entry_le_ltb (a b : Entry) : Entry.le a b ↔ Entry.ltb b a = false.
Proof. unfold Entry.le, Entry.ltb. rewrite Z.ltb_ge. reflexivity. Qed.

Lemma group_le_ltb (a b : PostingListGroup) :
  group_le a b ↔ PostingListGroup.ltb b a = false.
Proof. apply Entry_le_ltb. Qed.

Lemma Entry_eqb_eq (a b : Entry) : Entry.eqb a b = true ↔ a = b.
Proof.
  unfold Entry.eqb. rewrite Z.eqb_eq. destruct a, b; simpl.
  split; [ intros -> | intros [= ->] ]; reflexivity.
Qed.

Lemma Entry_le_antisym (a b : Entry) : Entry.le a b → Entry.le b a → a = b.
Proof. destruct a, b; unfold Entry.le; simpl. intros. f_equal. lia. Qed.

Lemma skipTo_empty (target : EntryId) (p : PostingList) :
  PostingList.empty p = true → PostingList.skipTo target p = p.
Proof.
  destruct p as [pos [| e l]]; [ reflexivity | discriminate ].
Qed.

Lemma empty_current (p : PostingList) :
  PostingList.empty p = true ↔ PostingList.current p = None.
Proof.
  unfold PostingList.empty, PostingList.current.
  destruct p as [pos [| e l]]; simpl; split; congruence.
Qed.

Lemma skipTo_valid (target : EntryId) (p : PostingList) :
  valid_plist p → valid_plist (PostingList.skipTo target p).
Proof.
  unfold valid_plist, PostingList.skipTo.
  destruct (skip_loop_spec target (rest_ p) (pos_ p)) as (sk & Heq & _).
  rewrite Heq at 1. rewrite Forall_app. tauto.
Qed.

Lemma skip_members_spec (target : EntryId) (plists : list PostingList) (m : Entry) :
  PostingListGroup.skip_members target m plists
  = (min_over m (PostingList.skipTo target <$> plists),
     PostingList.skipTo target <$> plists).
Proof.
  revert m. induction plists as [| p tl IH]; intros m; [ reflexivity | ].
  simpl. unfold min_over in *. simpl.
  destruct (PostingList.empty p) eqn:He.
  - rewrite (skipTo_empty _ _ He). apply empty_current in He. rewrite He.
    rewrite IH. reflexivity.
  - destruct (PostingList.current (PostingList.skipTo target p)) as [e |];
      rewrite IH; reflexivity.
Qed.

Lemma min_over_le_init (plists : list PostingList) (m : Entry) :
  Entry.le (min_over m plists) m.
Proof.
  revert m. unfold min_over, Entry.le.
  induction plists as [| p tl IH]; intros m; simpl; [ lia | ].
  destruct (PostingList.current p) as [e |]; [ | apply IH ].
  destruct (Entry.ltb e m) eqn:Hlt; [ | apply IH ].
  apply Entry_ltb_lt in Hlt. unfold Entry.lt in Hlt.
  specialize (IH e). lia.
Qed.

Lemma min_over_lower (plists : list PostingList) (m : Entry) (p : PostingList) (e : Entry) :
  p ∈ plists → PostingList.current p = Some e → Entry.le (min_over m plists) e.
Proof.
  revert m. induction plists as [| q tl IH]; intros m Hin Hcur.
  - inversion Hin.
  - apply elem_of_cons in Hin as [<- | Hin].
    + unfold min_over. simpl. rewrite Hcur.
      pose proof (min_over_le_init tl (if Entry.ltb e m then e else m)) as Hle.
      unfold min_over, Entry.le in *.
      destruct (Entry.ltb e m) eqn:Hlt; [ exact Hle | ].
      apply Z.ltb_ge in Hlt. lia.
    + unfold min_over. simpl. apply IH; assumption.
Qed.

Lemma min_over_attained (plists : list PostingList) (m : Entry) :
  min_over m plists = m ∨
  ∃ p, p ∈ plists ∧ PostingList.current p = Some (min_over m plists).
Proof.
  revert m. induction plists as [| q tl IH]; intros m; [ left; reflexivity | ].
  unfold min_over in *. simpl.
  destruct (PostingList.current q) as [e |] eqn:Hcur.
  - destruct (Entry.ltb e m).
    + destruct (IH e) as [-> | (p & Hin & Hp)].
      * right. exists q. split; [ left | assumption ].
      * right. exists p. split; [ right | ]; assumption.
    + destruct (IH m) as [-> | (p & Hin & Hp)]; [ left; reflexivity | ].
      right. exists p. split; [ right | ]; assumption.
  - destruct (IH m) as [-> | (p & Hin & Hp)]; [ left; reflexivity | ].
    right. exists p. split; [ right | ]; assumption.
Qed.

Lemma group_inv_skipTo (target : EntryId) (g : PostingListGroup) :
  group_inv g → group_inv (PostingListGroup.skipTo target g).
Proof.
  intros (Hv & Hlow & Hatt). unfold PostingListGroup.skipTo.
  destruct (Entry.eqb (current_ g) Entry.max); [ repeat split; assumption | ].
  rewrite skip_members_spec. repeat split; simpl.
  - apply Forall_fmap. eapply Forall_impl; [ exact Hv | ].
    intros p. apply skipTo_valid.
  - intros p e. apply min_over_lower.
  - apply min_over_attained.
Qed.

Lemma group_inv_add (plist : PostingList) (g : PostingListGroup) :
  valid_plist plist → group_inv g → group_inv (PostingListGroup.add plist g).
Proof.
  intros Hvalid (Hv & Hlow & Hatt). unfold PostingListGroup.add.
  destruct (PostingList.current plist) as [e |] eqn:Hcur;
    [ | repeat split; assumption ].
  unfold Entry.min. repeat split; simpl; unfold Entry.le in *.
  - apply Forall_app. split; [ assumption | repeat constructor; assumption ].
  - intros p x Hin Hx. apply elem_of_app in Hin as [Hin | Hin].
    + specialize (Hlow p x Hin Hx).
      destruct (Entry.ltb e (current_ g)) eqn:Hlt; [ | exact Hlow ].
      apply Z.ltb_lt in Hlt. lia.
    + apply list_elem_of_singleton in Hin as ->.
      rewrite Hcur in Hx. injection Hx as ->.
      destruct (Entry.ltb x (current_ g)) eqn:Hlt; [ lia | ].
      apply Z.ltb_ge in Hlt. lia.
  - destruct (Entry.ltb e (current_ g)).
    + right. exists plist. rewrite elem_of_app, list_elem_of_singleton. auto.
    + destruct Hatt as [Hmax | (p & Hin & Hp)]; [ left; assumption | ].
      right. exists p. rewrite elem_of_app. auto.
Qed.

Lemma group_inv_new : group_inv PostingListGroup.new.
Proof.
  repeat split; simpl; [ constructor | | left; reflexivity ].
  intros p e Hin. inversion Hin.
Qed.

Lemma reachable_group_inv (g : PostingListGroup) : reachable g → group_inv g.
Proof.
  induction 1 as [| plist g Hvalid Hr IH | target g Hr IH].
  - apply group_inv_new.
  - apply group_inv_add; assumption.
  - apply group_inv_skipTo. exact IH.
Qed.

Lemma group_inv_exhausted (g : PostingListGroup) :
  group_inv g → exhausted (plists_ g) →
  PostingListGroup.current g = Entry.max ∧ PostingListGroup.empty g = true.
Proof.
  intros (_ & _ & Hatt) Hex.
  assert (current_ g = Entry.max) as Hmax.
  { destruct Hatt as [? | (p & Hin & Hp)]; [ assumption | ].
    unfold exhausted in Hex. rewrite Forall_forall in Hex.
    apply Hex, empty_current in Hin. congruence. }
  split; [ exact Hmax | ].
  unfold PostingListGroup.empty. rewrite Hmax. reflexivity.
Qed.

Lemma group_inv_min_current (g : PostingListGroup) :
  group_inv g → ¬ exhausted (plists_ g) →
  min_current (PostingListGroup.current g) (plists_ g).
Proof.
  intros (Hv & Hlow & Hatt) Hne. split; [ | exact Hlow ].
  destruct Hatt as [Hmax | ?]; [ | assumption ].
  unfold exhausted in Hne. apply not_Forall_Exists in Hne; [ | intros p; apply _ ].
  apply Exists_exists in Hne as (p & Hin & Hp).
  destruct (PostingList.current p) as [e |] eqn:Hcur;
    [ | apply empty_current in Hcur; contradiction ].
  exists p. split; [ assumption | ].
  rewrite Hcur. f_equal. unfold PostingListGroup.current. rewrite Hmax.
  apply Entry_le_antisym.
  - rewrite Forall_forall in Hv. specialize (Hv p Hin).
    unfold valid_plist in Hv. destruct p as [pos [| x l]]; [ discriminate | ].
    simpl in Hcur. injection Hcur as ->.
    apply Forall_inv in Hv. unfold is_u64, Entry.le, Entry.max in *. simpl. lia.
  - rewrite <- Hmax. apply (Hlow p e Hin Hcur).
Qed.

(** C8, as stated, fails: a group whose only member stands on an Entry
    equal to the sentinel reports itself empty, so [skipTo] returns at once
    and does not move the member, although the member's [skipTo] would. *)
Lemma group_skipTo_sentinel_member :
  let plist := PostingList.new [Entry.new (2 ^ 47 - 1) (2 ^ 16 - 1) true] in
  let g := PostingListGroup.add plist PostingListGroup.new in
  reachable g ∧
  plists_ (PostingListGroup.skipTo (2 ^ 63) g) = [plist] ∧
  PostingList.skipTo (2 ^ 63) <$> plists_ g = [mkPostingList 1 []] ∧
  plists_ (PostingListGroup.skipTo (2 ^ 63) g)
    ≠ (PostingList.skipTo (2 ^ 63) <$> plists_ g).
Proof.
  intros plist g. split; [ | split; [ | split ] ].
  - apply reachable_add; [ | apply reachable_new ].
    subst plist. solve_valid.
  - reflexivity.
  - reflexivity.
  - vm_compute. discriminate.
Qed.

(** C8, amended: for a group built by the constructor, [add] and [skipTo]
    and every target, [skipTo] moves every member by the member's own
    [skipTo], except exactly when [current()] is the sentinel, the target
    is above the id of the sentinel and some member is not exhausted; so
    it moves every member whenever no member stands on an Entry equal to
    the sentinel.  For every target, afterwards [current()] is the least
    current entry of the members that are not exhausted, and when all are
    exhausted it is the sentinel and [empty()] is true.  A group whose
    [current()] is the sentinel is returned as it is, for every target. *)
Theorem group_skipTo_spec (target : EntryId) (g : PostingListGroup) :
  reachable g →
  let g' := PostingListGroup.skipTo target g in
  (plists_ g' = (PostingList.skipTo target <$> plists_ g)
   ↔ PostingListGroup.current g ≠ Entry.max
     ∨ target <= Entry.id Entry.max
     ∨ exhausted (plists_ g)) ∧
  (Forall (λ p, PostingList.current p ≠ Some Entry.max) (plists_ g) →
   plists_ g' = (PostingList.skipTo target <$> plists_ g)) ∧
  (exhausted (plists_ g') →
     PostingListGroup.current g' = Entry.max ∧ PostingListGroup.empty g' = true) ∧
  (¬ exhausted (plists_ g') →
     min_current (PostingListGroup.current g') (plists_ g')) ∧
  (PostingListGroup.current g = Entry.max → g' = g).
Proof.
  intros Hr g'.
  pose proof (reachable_group_inv _ (reachable_skipTo target g Hr)) as Hinv'.
  pose proof (reachable_group_inv _ Hr) as (Hv & Hlow & Hatt).
  fold g' in Hinv'.
  (* a member that is not exhausted under a sentinel [current()] stands on
     the sentinel *)
  assert (∀ p pos e rest, current_ g = Entry.max → p ∈ plists_ g →
            p = mkPostingList pos (e :: rest) → e = Entry.max) as Hhead.
  { intros p pos e rest Hmax Hp ->.
    specialize (Hlow _ e Hp eq_refl). rewrite Hmax in Hlow.
    rewrite Forall_forall in Hv. specialize (Hv _ Hp).
    unfold valid_plist in Hv. simpl in Hv. apply Forall_inv in Hv.
    apply Entry_le_antisym; [ | exact Hlow ].
    unfold Entry.le, is_u64, Entry.max in *. simpl. lia. }
  assert (plists_ g' = (PostingList.skipTo target <$> plists_ g)
          ↔ PostingListGroup.current g ≠ Entry.max
            ∨ target <= Entry.id Entry.max
            ∨ exhausted (plists_ g)) as Hiff.
  { subst g'. unfold PostingListGroup.skipTo, PostingListGroup.current.
    destruct (Entry.eqb (current_ g) Entry.max) eqn:Heq.
    - apply Entry_eqb_eq in Heq. split.
      + intros Hsame. right.
        destruct (Z.le_gt_cases target (Entry.id Entry.max)) as [Hle | Hgt];
          [ left; exact Hle | right ].
        apply Forall_forall. intros p Hp.
        destruct p as [pos [| e rest]] eqn:Hpeq; [ reflexivity | exfalso ].
        pose proof (Hhead _ pos e rest Heq Hp eq_refl) as ->.
        apply list_elem_of_lookup in Hp as (i & Hi).
        pose proof (f_equal (λ l, l !! i) Hsame) as Hlook. simpl in Hlook.
        rewrite list_lookup_fmap, Hi in Hlook. simpl in Hlook.
        injection Hlook as Hlook. unfold PostingList.skipTo in Hlook.
        simpl in Hlook.
        destruct (Z.ltb_spec (Entry.id Entry.max) target) as [_ | Hge]; [ | lia ].
        apply (f_equal pos_) in Hlook. simpl in Hlook.
        destruct (skip_loop_spec target rest (S pos)) as (sk & _ & _ & Hpos).
        lia.
      + intros [Hne | Hcase]; [ contradiction | ].
        symmetry. rewrite <- (list_fmap_id (plists_ g)) at 2.
        apply list_fmap_ext. intros i p Hp.
        apply list_elem_of_lookup_2 in Hp.
        destruct p as [pos [| e rest]] eqn:Hpeq; [ reflexivity | ].
        destruct Hcase as [Hle | Hex].
        * pose proof (Hhead _ pos e rest Heq Hp eq_refl) as ->.
          unfold PostingList.skipTo. simpl.
          destruct (Z.ltb_spec (Entry.id Entry.max) target); [ lia | reflexivity ].
        * unfold exhausted in Hex. rewrite Forall_forall in Hex.
          specialize (Hex _ Hp). discriminate.
    - rewrite skip_members_spec. simpl. split; [ | reflexivity ].
      intros _. left. intros Hmax. rewrite Hmax in Heq.
      unfold Entry.eqb in Heq. rewrite Z.eqb_refl in Heq. discriminate. }
  split; [ exact Hiff | ].
  split; [ | split; [ apply group_inv_exhausted; assumption | split ] ].
  - intros Hnone. apply Hiff.
    destruct (decide (PostingListGroup.current g = Entry.max)) as [Hmax | Hne];
      [ right; right | left; exact Hne ].
    apply Forall_forall. intros p Hp.
    destruct p as [pos [| e rest]] eqn:Hpeq; [ reflexivity | exfalso ].
    pose proof (Hhead _ pos e rest Hmax Hp eq_refl) as ->.
    rewrite Forall_forall in Hnone. apply (Hnone _ Hp). reflexivity.
  - apply group_inv_min_current. assumption.
  - intros Hmax. subst g'. unfold PostingListGroup.skipTo.
    unfold PostingListGroup.current in Hmax. rewrite Hmax. reflexivity.
Qed.

Lemma group_skipTo_spec_witness :
  let g := PostingListGroup.add
             (PostingList.new [Entry.new 0 0 true; Entry.new 1 0 true])
             PostingListGroup.new in
  let g' := PostingListGroup.skipTo (2 ^ 63) g in
  (plists_ g' = (PostingList.skipTo (2 ^ 63) <$> plists_ g)
   ↔ PostingListGroup.current g ≠ Entry.max
     ∨ 2 ^ 63 <= Entry.id Entry.max
     ∨ exhausted (plists_ g)) ∧
  (Forall (λ p, PostingList.current p ≠ Some Entry.max) (plists_ g) →
   plists_ g' = (PostingList.skipTo (2 ^ 63) <$> plists_ g)) ∧
  (exhausted (plists_ g') →
     PostingListGroup.current g' = Entry.max ∧ PostingListGroup.empty g' = true) ∧
  (¬ exhausted (plists_ g') →
     min_current (PostingListGroup.current g') (plists_ g')) ∧
  (PostingListGroup.current g = Entry.max → g' = g).
Proof.
  intros g. apply (group_skipTo_spec (2 ^ 63) g).
  apply reachable_add; [ | apply reachable_new ].
  solve_valid.
Defined.

(** ** The veto branch of the inner loop *)

Lemma veto_loop_spec (rejectId : EntryId) (tail pre : list PostingListGroup) :
  Indexer.veto_loop (length tail) rejectId (length pre) (pre ++ tail)
  = pre
    ++ (PostingListGroup.skipTo (u64 (rejectId + 1))
          <$> agreeing_prefix rejectId tail)
    ++ drop (length (agreeing_prefix rejectId tail)) tail.
Proof.
  revert pre. induction tail as [| g tail IH]; intros pre; simpl.
  - reflexivity.
  - rewrite list_lookup_middle by reflexivity.
    destruct (Entry.id (PostingListGroup.current g) =? rejectId); [ | reflexivity ].
    rewrite insert_app_r_alt, Nat.sub_diag by lia. simpl.
    specialize (IH (pre ++ [PostingListGroup.skipTo (u64 (rejectId + 1)) g])).
    rewrite length_app, Nat.add_1_r, <- !app_assoc in IH. exact IH.
Qed.

Lemma alter_out_of_range {A : Type} (f : A → A) (l : list A) (i : nat) :
  (length l <= i)%nat → alter f i l = l.
Proof.
  revert i. induction l as [| x l IH]; intros [| i] Hlen; simpl in *;
    try reflexivity; try lia.
  f_equal. apply IH. lia.
Qed.

Lemma skip_first_spec (k : nat) (nextId : EntryId) (plists : list PostingListGroup) :
  Indexer.skip_first k nextId plists
  = (PostingListGroup.skipTo nextId <$> take k plists) ++ drop k plists.
Proof.
  unfold Indexer.skip_first. induction k as [| k IH].
  - simpl. rewrite drop_0. reflexivity.
  - rewrite seq_S, foldl_app, IH. simpl.
    destruct (plists !! k) as [g |] eqn:Hg.
    + rewrite (take_S_r _ _ _ Hg), (drop_S _ _ _ Hg), fmap_app. simpl.
      assert (length (PostingListGroup.skipTo nextId <$> take k plists) = k) as Hlen.
      { rewrite length_fmap, length_take. apply lookup_lt_Some in Hg. lia. }
      rewrite alter_app_r_alt by lia. rewrite Hlen, Nat.sub_diag. simpl.
      rewrite <- app_assoc. reflexivity.
    + apply lookup_ge_None in Hg.
      rewrite !take_ge, !drop_ge by lia. rewrite !app_nil_r.
      apply alter_out_of_range. rewrite length_fmap. lia.
Qed.

Lemma Entry_id_succ (e : Entry) :
  is_u64 (value_ e) → u64 (Entry.id e + 1) = Entry.id e + 1.
Proof.
  unfold is_u64, u64, Entry.id. intros Hv.
  rewrite Z.shiftr_div_pow2 by lia. apply Z.mod_small.
  assert (value_ e / 2 ^ 1 < 2 ^ 63) by (apply Z.div_lt_upper_bound; eval_pow2; lia).
  assert (0 <= value_ e / 2 ^ 1) by (apply Z.div_pos; lia).
  eval_pow2. lia.
Qed.

Lemma merge_body_veto (k : nat) (plists : list PostingListGroup)
    (result : ResultSet) (g0 gk : PostingListGroup) :
  plists !! 0%nat = Some g0 →
  plists !! (k - 1)%nat = Some gk →
  (1 <= k)%nat →
  is_u64 (value_ (PostingListGroup.current g0)) →
  PostingListGroup.empty gk = false →
  Entry.id (PostingListGroup.current g0) = Entry.id (PostingListGroup.current gk) →
  Entry.isNegative (PostingListGroup.current g0) = true →
  let rejectId := Entry.id (PostingListGroup.current g0) in
  let run := agreeing_prefix rejectId (drop k plists) in
  Indexer.veto_loop (length plists - k) rejectId k plists
  = take k plists
    ++ (PostingListGroup.skipTo (rejectId + 1) <$> run)
    ++ drop (length run) (drop k plists)
  ∧
  Indexer.merge_body k plists result
  = Some (Continue
            ((PostingListGroup.skipTo (rejectId + 1) <$> take k plists)
             ++ (PostingListGroup.skipTo (rejectId + 1) <$> run)
             ++ drop (length run) (drop k plists))
            result).
Proof.
  intros H0 Hk Hk1 Hvalid Hne Hid Hneg rejectId run.
  assert (k <= length plists)%nat as Hlen by (apply lookup_lt_Some in Hk; lia).
  assert (Indexer.veto_loop (length plists - k) rejectId k plists
          = take k plists
            ++ (PostingListGroup.skipTo (rejectId + 1) <$> run)
            ++ drop (length run) (drop k plists)) as Hveto.
  { pose proof (veto_loop_spec rejectId (drop k plists) (take k plists)) as Hs.
    rewrite take_drop, length_drop, length_take_le in Hs by lia.
    rewrite Hs. subst rejectId run. rewrite (Entry_id_succ _ Hvalid). reflexivity. }
  split; [ exact Hveto | ].
  unfold Indexer.merge_body. rewrite Hk, H0, Hne.
  fold rejectId. rewrite <- Hid. fold rejectId.
  rewrite Z.eqb_refl, Hneg, Hveto.
  assert (take k plists !! (k - 1)%nat = Some gk) as Hgk.
  { rewrite lookup_take_lt by lia. exact Hk. }
  rewrite (lookup_app_l_Some _ _ _ _ Hgk).
  rewrite <- Hid. fold rejectId. subst rejectId.
  rewrite (Entry_id_succ _ Hvalid), skip_first_spec.
  rewrite take_app_length' by (rewrite length_take; lia).
  rewrite drop_app_length' by (rewrite length_take; lia).
  reflexivity.
Qed.




(** ** A document list without any predicate *)

Section NoIndex.
Context {Key : Type} `{Countable Key} `{StdSort}.

Lemma retrieve_no_index (ix : Indexer Key) (s : Assignment Key) (r : ResultSet) :
  indexs_ ix = [] → Indexer.retrieve r s ix = Some r.
Proof.
  intros Hnil. unfold Indexer.retrieve, Indexer.first_size. rewrite Hnil.
  assert (to_int (u64 (Z.of_nat (length (@nil (InvertedIndex Key))) - 1)) = -1)
    as -> by reflexivity.
  destruct (Z.ltb_spec (Z.min (-1) (to_int (asg_size s))) 0); [ reflexivity | lia ].
Qed.

(** C3 on the code: for the single document whose only conjunction has
    no predicate, [build] leaves [indexs_] empty and puts the entry of
    the conjunction in [z_]; [retrieve] then starts its loop at
    [min<int>(size_t(0) - 1, s.size()) = -1], never enters it, and
    returns the result set it was given, for every assignment. *)
Theorem retrieve_single_empty_conjunction (s : Assignment Key) (r : ResultSet) :
  let documents := [mkDocument [mkConjunction (@nil (Expression Key))]] in
  indexs_ (Indexer.build documents) = [] ∧
  z_ (Indexer.build documents) = [Entry.new 0 0 true] ∧
  Indexer.first_size (Indexer.build documents) s < 0 ∧
  Indexer.retrieve r s (Indexer.build documents) = Some r.
Proof.
  intros documents.
  assert (indexs_ (Indexer.build documents) = []) as Hnil by reflexivity.
  split; [ exact Hnil | ]. split; [ reflexivity | ].
  split; [ | apply retrieve_no_index; exact Hnil ].
  unfold Indexer.first_size. rewrite Hnil.
  assert (to_int (u64 (Z.of_nat (length (@nil (InvertedIndex Key))) - 1)) = -1)
    as -> by reflexivity.
  lia.
Qed.

End NoIndex.

(** ** Progress of the inner loop *)

Lemma skip_loop_length (target : EntryId) (rest : list Entry) (pos : nat) :
  (length (rest_ (PostingList.skip_loop target pos rest)) <= length rest)%nat.
Proof.
  destruct (skip_loop_spec target rest pos) as (sk & Heq & _).
  rewrite Heq at 2. rewrite length_app. lia.
Qed.

Lemma skipTo_length (target : EntryId) (p : PostingList) :
  (length (rest_ (PostingList.skipTo target p)) <= length (rest_ p))%nat.
Proof. apply skip_loop_length. Qed.

Lemma skipTo_length_lt (target : EntryId) (p : PostingList) (e : Entry) :
  PostingList.current p = Some e → Entry.id e < target →
  (length (rest_ (PostingList.skipTo target p)) < length (rest_ p))%nat.
Proof.
  unfold PostingList.current, PostingList.skipTo.
  destruct p as [pos [| x l]]; simpl; [ discriminate | ].
  intros [= ->] Hlt. apply Z.ltb_lt in Hlt. rewrite Hlt.
  pose proof (skip_loop_length target l (S pos)). lia.
Qed.

Lemma sum_list_with_le {A : Type} (f g : A → nat) (l : list A) :
  (∀ x, x ∈ l → (f x <= g x)%nat) →
  (sum_list_with f l <= sum_list_with g l)%nat.
Proof.
  induction l as [| x l IH]; intros Hle; simpl; [ lia | ].
  pose proof (Hle x (list_elem_of_here x l)).
  assert (sum_list_with f l <= sum_list_with g l)%nat.
  { apply IH. intros y Hy. apply Hle. right. exact Hy. }
  lia.
Qed.

Lemma sum_list_with_lt {A : Type} (f g : A → nat) (l : list A) (a : A) :
  a ∈ l → (f a < g a)%nat →
  (∀ x, x ∈ l → (f x <= g x)%nat) →
  (sum_list_with f l < sum_list_with g l)%nat.
Proof.
  induction l as [| x l IH]; intros Hin Hlt Hle; [ inversion Hin | ].
  simpl. pose proof (Hle x (list_elem_of_here x l)).
  assert (∀ y, y ∈ l → (f y <= g y)%nat) as Hle'.
  { intros y Hy. apply Hle. right. exact Hy. }
  apply elem_of_cons in Hin as [<- | Hin].
  - pose proof (sum_list_with_le f g l Hle'). lia.
  - specialize (IH Hin Hlt Hle'). lia.
Qed.

Lemma sum_list_with_fmap {A B : Type} (f : B → nat) (h : A → B) (l : list A) :
  sum_list_with f (h <$> l) = sum_list_with (f ∘ h) l.
Proof. induction l as [| x l IH]; csimpl; [ reflexivity | rewrite IH; reflexivity ]. Qed.

Lemma group_remaining_skipTo_le (target : EntryId) (g : PostingListGroup) :
  (group_remaining (PostingListGroup.skipTo target g) <= group_remaining g)%nat.
Proof.
  unfold PostingListGroup.skipTo.
  destruct (Entry.eqb (current_ g) Entry.max); [ lia | ].
  rewrite skip_members_spec. unfold group_remaining. simpl.
  rewrite sum_list_with_fmap.
  apply sum_list_with_le. intros p _. apply skipTo_length.
Qed.

Lemma group_remaining_skipTo_lt (target : EntryId) (g : PostingListGroup) :
  group_inv g → PostingListGroup.empty g = false →
  Entry.id (PostingListGroup.current g) < target →
  (group_remaining (PostingListGroup.skipTo target g) < group_remaining g)%nat.
Proof.
  intros (_ & _ & Hatt) Hne Hlt.
  unfold PostingListGroup.skipTo, PostingListGroup.empty in *. rewrite Hne.
  destruct Hatt as [Hmax | (p & Hin & Hp)].
  { rewrite Hmax in Hne. discriminate. }
  rewrite skip_members_spec. unfold group_remaining. simpl.
  rewrite sum_list_with_fmap.
  apply sum_list_with_lt with (a := p); [ exact Hin | | ].
  - simpl. eapply skipTo_length_lt; eassumption.
  - intros q _. apply skipTo_length.
Qed.

Lemma remaining_app (l1 l2 : list PostingListGroup) :
  Indexer.remaining (l1 ++ l2)
  = (Indexer.remaining l1 + Indexer.remaining l2)%nat.
Proof. apply sum_list_with_app. Qed.

Lemma remaining_Permutation (l1 l2 : list PostingListGroup) :
  l1 ≡ₚ l2 → Indexer.remaining l1 = Indexer.remaining l2.
Proof. intros Hp. unfold Indexer.remaining. rewrite Hp. reflexivity. Qed.

Lemma group_inv_current_valid (g : PostingListGroup) :
  group_inv g → is_u64 (value_ (PostingListGroup.current g)).
Proof.
  intros (Hv & _ & [Hmax | (p & Hin & Hp)]); unfold PostingListGroup.current.
  - rewrite Hmax. vm_compute. split; congruence.
  - rewrite Forall_forall in Hv. specialize (Hv p Hin).
    destruct p as [pos [| x l]]; [ discriminate | ].
    injection Hp as ->. apply Forall_inv in Hv. exact Hv.
Qed.

Lemma StronglySorted_lookup {A : Type} (R : relation A) (l : list A)
    (i j : nat) (a b : A) :
  StronglySorted R l → (i < j)%nat → l !! i = Some a → l !! j = Some b → R a b.
Proof.
  intros Hs. revert i j. induction Hs as [| x l Hs IH Hall]; intros i j Hij Hi Hj.
  - discriminate.
  - destruct j as [| j]; [ lia | ]. simpl in Hj.
    destruct i as [| i].
    + injection Hi as <-. rewrite Forall_forall in Hall.
      apply Hall. eapply list_elem_of_lookup_2. exact Hj.
    + simpl in Hi. apply (IH i j); [ lia | assumption | assumption ].
Qed.

Lemma sorted_groups_le (l : list PostingListGroup) (i j : nat)
    (a b : PostingListGroup) :
  StronglySorted group_le l → (i <= j)%nat →
  l !! i = Some a → l !! j = Some b → group_le a b.
Proof.
  intros Hs Hij Hi Hj. destruct (decide (i = j)) as [-> | Hne].
  - rewrite Hi in Hj. injection Hj as ->. unfold group_le, Entry.le. lia.
  - apply (StronglySorted_lookup group_le l i j); [ assumption | lia | assumption | assumption ].
Qed.

Lemma agreeing_prefix_take (rejectId : EntryId) (l : list PostingListGroup) :
  agreeing_prefix rejectId l = take (length (agreeing_prefix rejectId l)) l.
Proof.
  induction l as [| g l IH]; simpl; [ reflexivity | ].
  destruct (Entry.id (PostingListGroup.current g) =? rejectId); simpl;
    [ f_equal; exact IH | reflexivity ].
Qed.

Lemma agreeing_prefix_Forall (rejectId : EntryId) (l : list PostingListGroup) :
  Forall (λ g, Entry.id (PostingListGroup.current g) = rejectId)
         (agreeing_prefix rejectId l).
Proof.
  induction l as [| g l IH]; simpl; [ constructor | ].
  destruct (Z.eqb_spec (Entry.id (PostingListGroup.current g)) rejectId);
    constructor; assumption.
Qed.

Lemma agreeing_prefix_next (rejectId : EntryId) (l : list PostingListGroup)
    (g : PostingListGroup) :
  l !! length (agreeing_prefix rejectId l) = Some g →
  Entry.id (PostingListGroup.current g) ≠ rejectId.
Proof.
  induction l as [| x l IH]; simpl; [ discriminate | ].
  destruct (Z.eqb_spec (Entry.id (PostingListGroup.current x)) rejectId) as [Heq | Hne];
    simpl.
  - exact IH.
  - intros [= ->]. exact Hne.
Qed.

Lemma agreeing_prefix_length (rejectId : EntryId) (l : list PostingListGroup) :
  (length (agreeing_prefix rejectId l) <= length l)%nat.
Proof.
  induction l as [| g l IH]; simpl; [ lia | ].
  destruct (Entry.id (PostingListGroup.current g) =? rejectId); simpl; lia.
Qed.

(** What one turn that goes round does: the first [b] groups are moved to
    [n] and the others stay; [b] is [k] except in the veto branch. *)
Lemma merge_body_continue (k : nat) (gs gs' : list PostingListGroup)
    (r r' : ResultSet) (g0 gk : PostingListGroup) :
  gs !! 0%nat = Some g0 →
  gs !! (k - 1)%nat = Some gk →
  (1 <= k)%nat →
  is_u64 (value_ (PostingListGroup.current g0)) →
  is_u64 (value_ (PostingListGroup.current gk)) →
  Indexer.merge_body k gs r = Some (Continue gs' r') →
  PostingListGroup.empty gk = false ∧
  ∃ (n : EntryId) (b : nat),
    (k <= b <= length gs)%nat ∧
    gs' = (PostingListGroup.skipTo n <$> take b gs) ++ drop b gs ∧
    ((Entry.id (PostingListGroup.current g0)
        ≠ Entry.id (PostingListGroup.current gk) ∧
      n = Entry.id (PostingListGroup.current gk) ∧ b = k ∧ r' = r)
     ∨ (Entry.id (PostingListGroup.current g0)
          = Entry.id (PostingListGroup.current gk) ∧
        Entry.isNegative (PostingListGroup.current g0) = false ∧
        n = Entry.id (PostingListGroup.current gk) + 1 ∧ b = k ∧
        r' = addDocumentId (Entry.documentId (PostingListGroup.current gk)) r)
     ∨ (Entry.id (PostingListGroup.current g0)
          = Entry.id (PostingListGroup.current gk) ∧
        Entry.isNegative (PostingListGroup.current g0) = true ∧
        n = Entry.id (PostingListGroup.current gk) + 1 ∧ r' = r ∧
        (∀ i g, (k <= i < b)%nat → gs !! i = Some g →
           Entry.id (PostingListGroup.current g)
           = Entry.id (PostingListGroup.current gk)) ∧
        (∀ g, gs !! b = Some g →
           Entry.id (PostingListGroup.current g)
           ≠ Entry.id (PostingListGroup.current gk)))).
Proof.
  intros H0 Hk Hk1 Hv0 Hvk Hbody.
  assert (k <= length gs)%nat as Hlen by (apply lookup_lt_Some in Hk; lia).
  destruct (PostingListGroup.empty gk) eqn:Hne.
  { unfold Indexer.merge_body in Hbody. rewrite Hk, H0, Hne in Hbody. discriminate. }
  split; [ reflexivity | ].
  destruct (Z.eqb_spec (Entry.id (PostingListGroup.current g0))
                       (Entry.id (PostingListGroup.current gk))) as [Hid | Hid].
  - destruct (Entry.isNegative (PostingListGroup.current g0)) eqn:Hneg.
    + destruct (merge_body_veto k gs r g0 gk H0 Hk Hk1 Hv0 Hne Hid Hneg) as [_ Heq].
      rewrite Heq in Hbody. injection Hbody as <- <-.
      set (rid := Entry.id (PostingListGroup.current g0)) in *.
      set (run := agreeing_prefix rid (drop k gs)).
      exists (rid + 1), (k + length run)%nat.
      pose proof (agreeing_prefix_length rid (drop k gs)) as Hrl.
      rewrite length_drop in Hrl. fold run in Hrl.
      split; [ lia | ]. split.
      * rewrite <- take_take_drop, fmap_app, <- app_assoc, drop_drop.
        unfold run at 1. rewrite agreeing_prefix_take. reflexivity.
      * right. right. rewrite <- Hid.
        split; [ reflexivity | ]. split; [ reflexivity | ].
        split; [ reflexivity | ]. split; [ reflexivity | ]. split.
        -- intros i g Hi Hg.
           pose proof (agreeing_prefix_Forall rid (drop k gs)) as Hall.
           rewrite Forall_forall in Hall. apply Hall.
           rewrite agreeing_prefix_take. fold run.
           apply (list_elem_of_lookup_2 _ (i - k)%nat).
           rewrite lookup_take_lt, lookup_drop by lia.
           replace (k + (i - k))%nat with i by lia. exact Hg.
        -- intros g Hg. apply (agreeing_prefix_next rid (drop k gs)).
           fold run. rewrite lookup_drop. exact Hg.
    + unfold Indexer.merge_body in Hbody. rewrite Hk, H0, Hne in Hbody.
      apply Z.eqb_eq in Hid as Hid'. rewrite Hid', Hneg in Hbody.
      injection Hbody as <- <-.
      exists (Entry.id (PostingListGroup.current gk) + 1), k.
      split; [ lia | ]. split.
      * rewrite (Entry_id_succ _ Hvk). apply skip_first_spec.
      * right. left. auto.
  - unfold Indexer.merge_body in Hbody. rewrite Hk, H0, Hne in Hbody.
    apply Z.eqb_neq in Hid as Hid'. rewrite Hid' in Hbody.
    injection Hbody as <- <-.
    exists (Entry.id (PostingListGroup.current gk)), k.
    split; [ lia | ]. split; [ apply skip_first_spec | ].
    left. auto.
Qed.

Lemma merge_body_defined (k : nat) (gs : list PostingListGroup)
    (r : ResultSet) (g0 gk : PostingListGroup) :
  gs !! 0%nat = Some g0 →
  gs !! (k - 1)%nat = Some gk →
  (1 <= k)%nat →
  is_u64 (value_ (PostingListGroup.current g0)) →
  is_Some (Indexer.merge_body k gs r).
Proof.
  intros H0 Hk Hk1 Hv0.
  destruct (PostingListGroup.empty gk) eqn:Hne.
  { unfold Indexer.merge_body. rewrite Hk, H0, Hne. eexists; reflexivity. }
  destruct (Z.eqb_spec (Entry.id (PostingListGroup.current g0))
                       (Entry.id (PostingListGroup.current gk))) as [Hid | Hid].
  - destruct (Entry.isNegative (PostingListGroup.current g0)) eqn:Hneg.
    + destruct (merge_body_veto k gs r g0 gk H0 Hk Hk1 Hv0 Hne Hid Hneg) as [_ Heq].
      rewrite Heq. eexists; reflexivity.
    + unfold Indexer.merge_body. rewrite Hk, H0, Hne.
      apply Z.eqb_eq in Hid. rewrite Hid, Hneg. eexists; reflexivity.
  - unfold Indexer.merge_body. rewrite Hk, H0, Hne.
    apply Z.eqb_neq in Hid. rewrite Hid. eexists; reflexivity.
Qed.

(** ** The inner loop ends and only adds to the result *)

Section MergeLoop.
Context `{StdSort}.

Lemma sorted_head_not_empty (gs : list PostingListGroup) (k : nat)
    (g0 gk : PostingListGroup) :
  StronglySorted group_le gs →
  gs !! 0%nat = Some g0 → gs !! (k - 1)%nat = Some gk →
  is_u64 (value_ (PostingListGroup.current gk)) →
  PostingListGroup.empty gk = false →
  PostingListGroup.empty g0 = false.
Proof.
  intros Hs H0 Hk Hvk Hne.
  pose proof (sorted_groups_le gs 0 (k - 1) g0 gk Hs ltac:(lia) H0 Hk) as Hle.
  unfold PostingListGroup.empty, Entry.eqb in *.
  apply Z.eqb_neq in Hne. apply Z.eqb_neq.
  unfold group_le, Entry.le, PostingListGroup.current, is_u64, Entry.max in *.
  simpl in *. eval_pow2. lia.
Qed.

Lemma merge_step_progress (k : nat) (gs gs' : list PostingListGroup)
    (r r' : ResultSet) :
  Forall group_inv gs → (1 <= k <= length gs)%nat →
  Indexer.merge_step k gs r = Some (Continue gs' r') →
  (Indexer.remaining gs' < Indexer.remaining gs)%nat ∧
  Forall group_inv gs' ∧ length gs' = length gs.
Proof.
  intros Hinv Hk Hstep. unfold Indexer.merge_step in Hstep.
  pose proof (sort_groups_perm gs) as Hperm.
  pose proof (sort_groups_sorted gs) as Hsorted.
  rewrite <- (remaining_Permutation _ _ Hperm).
  rewrite <- (Permutation_length Hperm) in *.
  rewrite <- Hperm in Hinv. clear Hperm.
  set (sgs := sort_groups gs) in *.
  destruct (lookup_lt_is_Some_2 sgs 0 ltac:(lia)) as [g0 H0].
  destruct (lookup_lt_is_Some_2 sgs (k - 1) ltac:(lia)) as [gk Hgk].
  assert (group_inv g0) as Hi0.
  { rewrite Forall_forall in Hinv. eapply Hinv, list_elem_of_lookup_2, H0. }
  assert (group_inv gk) as Hik.
  { rewrite Forall_forall in Hinv. eapply Hinv, list_elem_of_lookup_2, Hgk. }
  pose proof (group_inv_current_valid _ Hi0) as Hv0.
  pose proof (group_inv_current_valid _ Hik) as Hvk.
  destruct (merge_body_continue k sgs gs' r r' g0 gk H0 Hgk ltac:(lia) Hv0 Hvk Hstep)
    as (Hne & n & b & Hb & -> & Hcase).
  assert (Entry.id (PostingListGroup.current g0) < n) as Hlt.
  { pose proof (sorted_groups_le sgs 0 (k - 1) g0 gk Hsorted ltac:(lia) H0 Hgk) as Hle.
    apply Entry_id_mono in Hle.
    destruct Hcase as [(? & -> & _) | [(? & _ & -> & _) | (? & _ & -> & _)]]; lia. }
  pose proof (sorted_head_not_empty sgs k g0 gk Hsorted H0 Hgk Hvk Hne) as Hne0.
  split; [ | split ].
  - rewrite remaining_app.
    assert (Indexer.remaining sgs
            = (Indexer.remaining (take b sgs) + Indexer.remaining (drop b sgs))%nat)
      as -> by (rewrite <- remaining_app, take_drop; reflexivity).
    apply Nat.add_lt_mono_r. unfold Indexer.remaining.
    rewrite sum_list_with_fmap.
    apply sum_list_with_lt with (a := g0).
    + apply (list_elem_of_lookup_2 _ 0). rewrite lookup_take_lt by lia. exact H0.
    + simpl. apply group_remaining_skipTo_lt; assumption.
    + intros g _. apply group_remaining_skipTo_le.
  - rewrite <- (take_drop b sgs) in Hinv. apply Forall_app in Hinv as [Ht Hd].
    apply Forall_app. split; [ | exact Hd ].
    apply Forall_fmap. eapply Forall_impl; [ exact Ht | ].
    intros g. apply group_inv_skipTo.
  - rewrite length_app, length_fmap, length_take, length_drop. lia.
Qed.

Lemma merge_step_defined (k : nat) (gs : list PostingListGroup) (r : ResultSet) :
  Forall group_inv gs → (1 <= k <= length gs)%nat →
  is_Some (Indexer.merge_step k gs r).
Proof.
  intros Hinv Hk. unfold Indexer.merge_step.
  pose proof (sort_groups_perm gs) as Hperm.
  rewrite <- (Permutation_length Hperm) in Hk. rewrite <- Hperm in Hinv.
  destruct (lookup_lt_is_Some_2 (sort_groups gs) 0 ltac:(lia)) as [g0 H0].
  destruct (lookup_lt_is_Some_2 (sort_groups gs) (k - 1) ltac:(lia)) as [gk Hgk].
  apply (merge_body_defined k _ r g0 gk H0 Hgk); [ lia | ].
  apply group_inv_current_valid.
  rewrite Forall_forall in Hinv. eapply Hinv, list_elem_of_lookup_2, H0.
Qed.

Lemma merge_loop_total (k fuel : nat) (gs : list PostingListGroup) (r : ResultSet) :
  Forall group_inv gs → (1 <= k <= length gs)%nat →
  (Indexer.remaining gs < fuel)%nat →
  is_Some (Indexer.merge_loop fuel k gs r).
Proof.
  revert gs r. induction fuel as [| fuel IH]; intros gs r Hinv Hk Hfuel; [ lia | ].
  simpl. destruct (merge_step_defined k gs r Hinv Hk) as [[| gs' r'] Hstep];
    rewrite Hstep; [ eexists; reflexivity | ].
  destruct (merge_step_progress k gs gs' r r' Hinv Hk Hstep) as (Hlt & Hinv' & Hlen).
  apply IH; [ assumption | lia | lia ].
Qed.

(** The groups do not depend on the result set, and the result set only
    grows by the documents that are added. *)
Lemma merge_body_result (k : nat) (gs : list PostingListGroup) (r : ResultSet) :
  Indexer.merge_body k gs r
  = match Indexer.merge_body k gs ∅ with
    | Some (Continue gs' d) => Some (Continue gs' (d ∪ r))
    | Some Break => Some Break
    | None => None
    end.
Proof.
  unfold Indexer.merge_body, addDocumentId.
  destruct (gs !! (k - 1)%nat) as [gk |]; [ | reflexivity ].
  destruct (gs !! 0%nat) as [g0 |]; [ | reflexivity ].
  destruct (PostingListGroup.empty gk); [ reflexivity | ].
  destruct (_ =? _).
  - destruct (Entry.isNegative _).
    + destruct (_ !! _); [ | reflexivity ].
      rewrite (left_id_L ∅ (∪)). reflexivity.
    + rewrite (right_id_L ∅ (∪)). reflexivity.
  - rewrite (left_id_L ∅ (∪)). reflexivity.
Qed.

Lemma merge_loop_result (k fuel : nat) (gs : list PostingListGroup) (r : ResultSet) :
  Indexer.merge_loop fuel k gs r
  = (λ d, d ∪ r) <$> Indexer.merge_loop fuel k gs ∅.
Proof.
  revert gs r. induction fuel as [| fuel IH]; intros gs r; [ reflexivity | ].
  simpl. unfold Indexer.merge_step.
  rewrite (merge_body_result k (sort_groups gs) r).
  destruct (Indexer.merge_body k (sort_groups gs) ∅) as [[| gs' d] |];
    [ simpl; rewrite (left_id_L ∅ (∪)); reflexivity | | reflexivity ].
  rewrite (IH gs' (d ∪ r)), (IH gs' d).
  destruct (Indexer.merge_loop fuel k gs' ∅) as [x |]; [ | reflexivity ].
  simpl. rewrite (assoc_L (∪)). reflexivity.
Qed.

(** An invariant of the turns holds of the groups the loop leaves with. *)
Lemma merge_loop_invariant (I : list PostingListGroup → ResultSet → Prop) (k : nat) :
  (∀ gs r gs' r', I gs r →
     Indexer.merge_step k gs r = Some (Continue gs' r') → I gs' r') →
  ∀ fuel gs r r', I gs r → Indexer.merge_loop fuel k gs r = Some r' →
    ∃ gs', I gs' r' ∧ Indexer.merge_step k gs' r' = Some Break.
Proof.
  intros Hstep. induction fuel as [| fuel IH]; intros gs r r' HI Hloop;
    [ discriminate | ].
  simpl in Hloop.
  destruct (Indexer.merge_step k gs r) as [[| gs1 r1] |] eqn:Hs; [ | | discriminate ].
  - injection Hloop as <-. exists gs. split; assumption.
  - apply (IH gs1 r1); [ | assumption ]. eapply Hstep; eassumption.
Qed.

End MergeLoop.

(** ** What [build] stores *)

Section BuildFacts.
Context {Key : Type} `{Countable Key}.

Lemma push_values_elem {T : Type} `{Countable T} (entry : Entry) (vals : list T)
    (t : gmap T (list Entry)) (v : T) (x : Entry) :
  x ∈ default [] (InvertedIndexImpl.push_values entry vals t !! v)
  ↔ x ∈ default [] (t !! v) ∨ (v ∈ vals ∧ x = entry).
Proof.
  unfold InvertedIndexImpl.push_values. revert t.
  induction vals as [| v0 vals IH]; intros t; simpl.
  - split; [ auto | intros [? | [Hin _]]; [ assumption | inversion Hin ] ].
  - rewrite IH. rewrite elem_of_cons.
    destruct (decide (v = v0)) as [-> | Hne].
    + rewrite lookup_insert_eq. simpl. rewrite elem_of_app, list_elem_of_singleton.
      tauto.
    + rewrite lookup_insert_ne by congruence. tauto.
Qed.

Lemma impl_addEntry_elem {T : Type} `{Countable T} (entry : Entry) (k : Key)
    (vals : list T) (m : InvertedIndexImpl Key T) (k' : Key) (v : T) (x : Entry) :
  x ∈ impl_postings (InvertedIndexImpl.addEntry entry k vals m) k' v
  ↔ x ∈ impl_postings m k' v ∨ (k' = k ∧ v ∈ vals ∧ x = entry).
Proof.
  unfold impl_postings, InvertedIndexImpl.addEntry.
  destruct (decide (k' = k)) as [-> | Hne].
  - rewrite lookup_insert_eq, push_values_elem.
    destruct (m !! k) as [t |]; simpl; [ tauto | ].
    rewrite lookup_empty. simpl. tauto.
  - rewrite lookup_insert_ne by congruence. tauto.
Qed.

Lemma index_addEntry_elem (entry : Entry) (k : Key) (vals : Values)
    (index : InvertedIndex Key) (k' : Key) (v : Value) (x : Entry) :
  x ∈ index_postings (InvertedIndex.addEntry entry k vals index) k' v
  ↔ x ∈ index_postings index k' v
    ∨ (k' = k ∧ v ∈ value_list vals ∧ x = entry).
Proof.
  destruct vals as [l | l], v as [z | s]; simpl;
    rewrite ?impl_addEntry_elem, ?list_elem_of_fmap.
  - split; [ auto | intros [? | (_ & (y & [=] & _) & _)]; assumption ].
  - split.
    + intros [? | (? & ? & ?)]; [ auto | right; eauto ].
    + intros [? | (? & (y & [= ->] & ?) & ?)]; auto.
  - split.
    + intros [? | (? & ? & ?)]; [ auto | right; eauto ].
    + intros [? | (? & (y & [= ->] & ?) & ?)]; auto.
  - split; [ auto | intros [? | (_ & (y & [=] & _) & _)]; assumption ].
Qed.

Lemma index_postings_new (k : Key) (v : Value) :
  index_postings (InvertedIndex.new (Key := Key)) k v = [].
Proof.
  destruct v; simpl; unfold impl_postings; rewrite lookup_empty; reflexivity.
Qed.

Lemma postings_at_grown (indexs : list (InvertedIndex Key)) (n size : nat)
    (k : Key) (v : Value) :
  postings_at (if (length indexs <? n)%nat
               then resize n InvertedIndex.new indexs else indexs) size k v
  = postings_at indexs size k v.
Proof.
  destruct (Nat.ltb_spec (length indexs) n) as [Hlt | Hge]; [ | reflexivity ].
  unfold postings_at.
  destruct (decide (size < length indexs)%nat) as [Hin | Hout].
  - rewrite lookup_resize by lia. reflexivity.
  - rewrite (lookup_ge_None_2 indexs size) by lia.
    destruct (decide (size < n)%nat).
    + rewrite lookup_resize_new by lia. apply index_postings_new.
    + rewrite lookup_resize_old by lia. reflexivity.
Qed.

Lemma add_expression_elem (i j : Z) (size : nat) (ix : Indexer Key)
    (expr : Expression Key) (n : nat) (k : Key) (v : Value) (x : Entry) :
  x ∈ postings_at (indexs_ (Indexer.add_expression i j size ix expr)) n k v
  ↔ x ∈ postings_at (indexs_ ix) n k v
    ∨ (n = size ∧ key expr = k ∧ v ∈ value_list (values expr) ∧
       x = Entry.new i j (positive expr)).
Proof.
  unfold Indexer.add_expression. simpl.
  rewrite <- (postings_at_grown (indexs_ ix) (size + 1) n k v).
  set (grown := if (length (indexs_ ix) <? size + 1)%nat then _ else _).
  assert (size < length grown)%nat as Hlen.
  { subst grown. destruct (Nat.ltb_spec (length (indexs_ ix)) (size + 1));
      [ rewrite length_resize | ]; lia. }
  unfold postings_at. rewrite list_lookup_alter.
  destruct (decide (size = n)) as [<- | Hne].
  - destruct (lookup_lt_is_Some_2 grown size Hlen) as [index Hindex].
    rewrite Hindex. simpl. rewrite index_addEntry_elem.
    split.
    + intros [? | (Hk & Hv & Hx)]; [ left | right ]; auto.
    + intros [? | (_ & Hk & Hv & Hx)]; [ left | right ]; auto.
  - split; [ auto | intros [? | (? & _)]; [ assumption | congruence ] ].
Qed.

Lemma add_expression_z (i j : Z) (size : nat) (ix : Indexer Key)
    (expr : Expression Key) :
  z_ (Indexer.add_expression i j size ix expr) = z_ ix.
Proof. reflexivity. Qed.

Lemma add_expression_length (i j : Z) (size : nat) (ix : Indexer Key)
    (expr : Expression Key) :
  length (indexs_ (Indexer.add_expression i j size ix expr))
  = Nat.max (length (indexs_ ix)) (size + 1).
Proof.
  unfold Indexer.add_expression. simpl. rewrite length_alter.
  destruct (Nat.ltb_spec (length (indexs_ ix)) (size + 1));
    [ rewrite length_resize | ]; lia.
Qed.

Lemma fold_add_expression_elem (i j : Z) (size : nat) (l : list (Expression Key))
    (ix : Indexer Key) (n : nat) (k : Key) (v : Value) (x : Entry) :
  x ∈ postings_at (indexs_ (foldl (Indexer.add_expression i j size) ix l)) n k v
  ↔ x ∈ postings_at (indexs_ ix) n k v
    ∨ (n = size ∧ ∃ expr, expr ∈ l ∧ key expr = k ∧
         v ∈ value_list (values expr) ∧ x = Entry.new i j (positive expr)).
Proof.
  revert ix. induction l as [| e l IH]; intros ix; simpl.
  - split; [ auto | intros [? | (_ & expr & Hin & _)]; [ assumption | inversion Hin ] ].
  - rewrite IH, add_expression_elem. split.
    + intros [[? | (-> & ? & ? & ?)] | (-> & expr & Hin & ?)]; auto.
      * right. split; [ reflexivity | ]. exists e. split; [ left | auto ].
      * right. split; [ reflexivity | ]. exists expr. split; [ right; assumption | auto ].
    + intros [? | (-> & expr & Hin & Hk & Hv & Hx)]; auto.
      apply elem_of_cons in Hin as [-> | Hin].
      * left. right. auto.
      * right. split; [ reflexivity | ]. exists expr. auto.
Qed.

Lemma fold_add_expression_z (i j : Z) (size : nat) (l : list (Expression Key))
    (ix : Indexer Key) :
  z_ (foldl (Indexer.add_expression i j size) ix l) = z_ ix.
Proof. revert ix. induction l as [| e l IH]; intros ix; simpl; [ | rewrite IH ]; reflexivity. Qed.

Lemma fold_add_expression_length (i j : Z) (size : nat)
    (l : list (Expression Key)) (ix : Indexer Key) :
  length (indexs_ (foldl (Indexer.add_expression i j size) ix l))
  = match l with
    | [] => length (indexs_ ix)
    | _ :: _ => Nat.max (length (indexs_ ix)) (size + 1)
    end.
Proof.
  revert ix. induction l as [| e l IH]; intros ix; simpl; [ reflexivity | ].
  rewrite IH, add_expression_length. destruct l; lia.
Qed.

Lemma add_conjunction_elem (i j : Z) (ix : Indexer Key) (c : Conjunction Key)
    (n : nat) (k : Key) (v : Value) (x : Entry) :
  x ∈ postings_at (indexs_ (Indexer.add_conjunction i j ix c)) n k v
  ↔ x ∈ postings_at (indexs_ ix) n k v
    ∨ ∃ p, conj_stored c n k v p ∧ x = Entry.new i j p.
Proof.
  unfold Indexer.add_conjunction, conj_stored.
  destruct (getConjunctionSize c =? 0)%nat; simpl;
    rewrite fold_add_expression_elem.
  all: split; (intros [? | Hr]; [ left; assumption | right ]).
  all: try (destruct Hr as (-> & expr & Hin & Hk & Hv & Hx);
            exists (positive expr); split; [ split; [ reflexivity | ] | assumption ];
            exists expr; auto).
  all: destruct Hr as (p & (<- & expr & Hin & Hk & Hv & Hp) & Hx);
       split; [ reflexivity | ]; exists expr; subst p; auto.
Qed.

Lemma add_conjunction_z (i j : Z) (ix : Indexer Key) (c : Conjunction Key) :
  z_ (Indexer.add_conjunction i j ix c)
  = z_ ix ++ (if (getConjunctionSize c =? 0)%nat then [Entry.new i j true] else []).
Proof.
  unfold Indexer.add_conjunction.
  destruct (getConjunctionSize c =? 0)%nat; simpl;
    rewrite fold_add_expression_z; [ reflexivity | rewrite app_nil_r; reflexivity ].
Qed.

Lemma add_conjunction_length (i j : Z) (ix : Indexer Key) (c : Conjunction Key) :
  length (indexs_ (Indexer.add_conjunction i j ix c))
  = match expressions c with
    | [] => length (indexs_ ix)
    | _ :: _ => Nat.max (length (indexs_ ix)) (getConjunctionSize c + 1)
    end.
Proof.
  unfold Indexer.add_conjunction.
  destruct (getConjunctionSize c =? 0)%nat; simpl;
    apply fold_add_expression_length.
Qed.

Lemma add_conjunctions_elem (i : Z) (cs : list (Conjunction Key)) (j : Z)
    (ix : Indexer Key) (n : nat) (k : Key) (v : Value) (x : Entry) :
  x ∈ postings_at (indexs_ (Indexer.add_conjunctions i j ix cs)) n k v
  ↔ x ∈ postings_at (indexs_ ix) n k v
    ∨ ∃ (m : nat) c p, cs !! m = Some c ∧ conj_stored c n k v p ∧
                       x = Entry.new i (j + Z.of_nat m) p.
Proof.
  revert j ix. induction cs as [| c cs IH]; intros j ix; simpl.
  - split; [ auto | intros [? | (m & c & p & Hm & _)]; [ assumption | discriminate ] ].
  - rewrite IH, add_conjunction_elem. split.
    + intros [[? | (p & Hs & ->)] | (m & c' & p & Hm & Hs & ->)]; auto.
      * right. exists 0%nat, c, p. rewrite Z.add_0_r. auto.
      * right. exists (S m), c', p. split; [ exact Hm | ]. split; [ exact Hs | ].
        f_equal. lia.
    + intros [? | (m & c' & p & Hm & Hs & ->)]; auto.
      destruct m as [| m]; simpl in Hm.
      * injection Hm as ->. left. right. exists p. rewrite Z.add_0_r. auto.
      * right. exists m, c', p. split; [ exact Hm | ]. split; [ exact Hs | ].
        f_equal. lia.
Qed.

Lemma add_conjunctions_z (i : Z) (cs : list (Conjunction Key)) (j : Z)
    (ix : Indexer Key) (x : Entry) :
  x ∈ z_ (Indexer.add_conjunctions i j ix cs)
  ↔ x ∈ z_ ix
    ∨ ∃ (m : nat) c, cs !! m = Some c ∧ getConjunctionSize c = 0%nat ∧
                     x = Entry.new i (j + Z.of_nat m) true.
Proof.
  revert j ix. induction cs as [| c cs IH]; intros j ix; simpl.
  - split; [ auto | intros [? | (m & c & Hm & _)]; [ assumption | discriminate ] ].
  - rewrite IH, add_conjunction_z, elem_of_app. split.
    + intros [[? | Hx] | (m & c' & Hm & Hs & ->)]; auto.
      * destruct (Nat.eqb_spec (getConjunctionSize c) 0) as [Hz | Hz];
          [ | inversion Hx ].
        apply list_elem_of_singleton in Hx as ->.
        right. exists 0%nat, c. rewrite Z.add_0_r. auto.
      * right. exists (S m), c'. split; [ exact Hm | ]. split; [ exact Hs | ].
        f_equal. lia.
    + intros [? | (m & c' & Hm & Hs & ->)]; auto.
      destruct m as [| m]; simpl in Hm.
      * injection Hm as ->. left. right. rewrite Hs. simpl.
        rewrite Z.add_0_r. apply list_elem_of_here.
      * right. exists m, c'. split; [ exact Hm | ]. split; [ exact Hs | ].
        f_equal. lia.
Qed.

Lemma add_conjunctions_length_mono (i : Z) (cs : list (Conjunction Key)) (j : Z)
    (ix : Indexer Key) :
  (length (indexs_ ix) <= length (indexs_ (Indexer.add_conjunctions i j ix cs)))%nat.
Proof.
  revert j ix. induction cs as [| c cs IH]; intros j ix; simpl; [ lia | ].
  etransitivity; [ | apply IH ]. rewrite add_conjunction_length.
  destruct (expressions c); lia.
Qed.

Lemma add_conjunctions_length (i : Z) (cs : list (Conjunction Key)) (j : Z)
    (ix : Indexer Key) (m : nat) (c : Conjunction Key) :
  cs !! m = Some c → expressions c ≠ [] →
  (getConjunctionSize c < length (indexs_ (Indexer.add_conjunctions i j ix cs)))%nat.
Proof.
  revert j ix m. induction cs as [| c0 cs IH]; intros j ix m Hm Hne;
    [ discriminate | ].
  simpl. destruct m as [| m]; simpl in Hm.
  - injection Hm as ->.
    eapply Nat.lt_le_trans; [ | apply add_conjunctions_length_mono ].
    rewrite add_conjunction_length. destruct (expressions c); [ congruence | lia ].
  - eapply IH; eassumption.
Qed.

(** The [continue] for a document without conjunctions changes nothing:
    the loop over its conjunctions would not run either. *)
Lemma add_documents_step (i : Z) (ix : Indexer Key) (doc : Document Key) :
  match conjunctions doc with
  | [] => ix
  | _ :: _ => Indexer.add_conjunctions i 0 ix (conjunctions doc)
  end = Indexer.add_conjunctions i 0 ix (conjunctions doc).
Proof. destruct (conjunctions doc); reflexivity. Qed.

Lemma add_documents_elem (docs : list (Document Key)) (i : Z) (ix : Indexer Key)
    (n : nat) (k : Key) (v : Value) (x : Entry) :
  x ∈ postings_at (indexs_ (Indexer.add_documents i ix docs)) n k v
  ↔ x ∈ postings_at (indexs_ ix) n k v
    ∨ ∃ (a b : nat) doc c p,
        docs !! a = Some doc ∧ conjunctions doc !! b = Some c ∧
        conj_stored c n k v p ∧ x = Entry.new (i + Z.of_nat a) (Z.of_nat b) p.
Proof.
  revert i ix. induction docs as [| d docs IH]; intros i ix; simpl.
  - split; [ auto | intros [? | (a & b & doc & c & p & Ha & _)];
                    [ assumption | discriminate ] ].
  - rewrite IH, add_documents_step, add_conjunctions_elem. split.
    + intros [[? | (m & c & p & Hm & Hs & ->)]
             | (a & b & doc & c & p & Ha & Hb & Hs & ->)]; auto.
      * right. exists 0%nat, m, d, c, p. rewrite Z.add_0_r. auto.
      * right. exists (S a), b, doc, c, p.
        split; [ exact Ha | ]. split; [ exact Hb | ]. split; [ exact Hs | ].
        f_equal. lia.
    + intros [? | (a & b & doc & c & p & Ha & Hb & Hs & ->)]; auto.
      destruct a as [| a]; simpl in Ha.
      * injection Ha as ->. left. right. exists b, c, p.
        rewrite Z.add_0_r. auto.
      * right. exists a, b, doc, c, p.
        split; [ exact Ha | ]. split; [ exact Hb | ]. split; [ exact Hs | ].
        f_equal. lia.
Qed.

Lemma add_documents_z (docs : list (Document Key)) (i : Z) (ix : Indexer Key)
    (x : Entry) :
  x ∈ z_ (Indexer.add_documents i ix docs)
  ↔ x ∈ z_ ix
    ∨ ∃ (a b : nat) doc c,
        docs !! a = Some doc ∧ conjunctions doc !! b = Some c ∧
        getConjunctionSize c = 0%nat ∧
        x = Entry.new (i + Z.of_nat a) (Z.of_nat b) true.
Proof.
  revert i ix. induction docs as [| d docs IH]; intros i ix; simpl.
  - split; [ auto | intros [? | (a & b & doc & c & Ha & _)];
                    [ assumption | discriminate ] ].
  - rewrite IH, add_documents_step, add_conjunctions_z. split.
    + intros [[? | (m & c & Hm & Hs & ->)]
             | (a & b & doc & c & Ha & Hb & Hs & ->)]; auto.
      * right. exists 0%nat, m, d, c. rewrite Z.add_0_r. auto.
      * right. exists (S a), b, doc, c.
        split; [ exact Ha | ]. split; [ exact Hb | ]. split; [ exact Hs | ].
        f_equal. lia.
    + intros [? | (a & b & doc & c & Ha & Hb & Hs & ->)]; auto.
      destruct a as [| a]; simpl in Ha.
      * injection Ha as ->. left. right. exists b, c.
        rewrite Z.add_0_r. auto.
      * right. exists a, b, doc, c.
        split; [ exact Ha | ]. split; [ exact Hb | ]. split; [ exact Hs | ].
        f_equal. lia.
Qed.

Lemma add_documents_length_mono (docs : list (Document Key)) (i : Z)
    (ix : Indexer Key) :
  (length (indexs_ ix) <= length (indexs_ (Indexer.add_documents i ix docs)))%nat.
Proof.
  revert i ix. induction docs as [| d docs IH]; intros i ix; simpl; [ lia | ].
  etransitivity; [ | apply IH ]. rewrite add_documents_step.
  apply add_conjunctions_length_mono.
Qed.

Lemma add_documents_length (docs : list (Document Key)) (i : Z) (ix : Indexer Key)
    (a b : nat) (doc : Document Key) (c : Conjunction Key) :
  docs !! a = Some doc → conjunctions doc !! b = Some c → expressions c ≠ [] →
  (getConjunctionSize c < length (indexs_ (Indexer.add_documents i ix docs)))%nat.
Proof.
  revert i ix a. induction docs as [| d docs IH]; intros i ix a Ha Hb Hne;
    [ discriminate | ].
  simpl. destruct a as [| a]; simpl in Ha.
  - injection Ha as ->.
    eapply Nat.lt_le_trans; [ | apply add_documents_length_mono ].
    rewrite add_documents_step. eapply add_conjunctions_length; eassumption.
  - eapply IH; eassumption.
Qed.

Lemma Entry_le_trans : Transitive Entry.le.
Proof. intros a b c. unfold Entry.le. lia. Qed.

Lemma Entry_le_total : Total Entry.le.
Proof. intros a b. unfold Entry.le. lia. Qed.

Lemma sort_entries_sorted (l : list Entry) :
  StronglySorted Entry.le (sort_entries l).
Proof.
  apply (@StronglySorted_merge_sort _ Entry.le _ Entry_le_trans Entry_le_total).
Qed.

Lemma sort_entries_elem (l : list Entry) (x : Entry) :
  x ∈ sort_entries l ↔ x ∈ l.
Proof. unfold sort_entries. rewrite merge_sort_Permutation. reflexivity. Qed.

Lemma impl_build_postings {T : Type} `{Countable T} (m : InvertedIndexImpl Key T)
    (k : Key) (v : T) :
  impl_postings (InvertedIndexImpl.build m) k v
  = sort_entries (impl_postings m k v).
Proof.
  unfold impl_postings, InvertedIndexImpl.build. rewrite lookup_fmap.
  destruct (m !! k) as [t |]; simpl; [ | reflexivity ].
  rewrite lookup_fmap. destruct (t !! v); reflexivity.
Qed.

Lemma build_postings_at (indexs : list (InvertedIndex Key)) (n : nat)
    (k : Key) (v : Value) :
  postings_at (InvertedIndex.build <$> indexs) n k v
  = sort_entries (postings_at indexs n k v).
Proof.
  unfold postings_at. rewrite list_lookup_fmap.
  destruct (indexs !! n) as [index |]; simpl; [ | reflexivity ].
  destruct v; simpl; apply impl_build_postings.
Qed.

Lemma build_postings_elem (docs : list (Document Key)) (n : nat) (k : Key)
    (v : Value) (x : Entry) :
  x ∈ postings_at (indexs_ (Indexer.build docs)) n k v ↔ stored docs n k v x.
Proof.
  unfold Indexer.build. simpl.
  rewrite build_postings_at, sort_entries_elem, add_documents_elem.
  unfold postings_at, stored. simpl. split.
  - intros [Hin | (a & b & doc & c & p & Ha & Hb & Hs & ->)]; [ inversion Hin | ].
    exists a, b, doc, c, p. auto.
  - intros (a & b & doc & c & p & Ha & Hb & Hs & ->).
    right. exists a, b, doc, c, p. auto.
Qed.

Lemma build_postings_sorted (docs : list (Document Key)) (n : nat) (k : Key)
    (v : Value) :
  StronglySorted Entry.le (postings_at (indexs_ (Indexer.build docs)) n k v).
Proof.
  unfold Indexer.build. simpl. rewrite build_postings_at.
  apply sort_entries_sorted.
Qed.

Lemma build_z_elem (docs : list (Document Key)) (x : Entry) :
  x ∈ z_ (Indexer.build docs) ↔ stored_zero docs x.
Proof.
  unfold Indexer.build. simpl.
  rewrite sort_entries_elem, add_documents_z. unfold stored_zero. simpl. split.
  - intros [Hin | (a & b & doc & c & Ha & Hb & Hs & ->)]; [ inversion Hin | ].
    exists a, b, doc, c. auto.
  - intros (a & b & doc & c & Ha & Hb & Hs & ->).
    right. exists a, b, doc, c. auto.
Qed.

Lemma build_z_sorted (docs : list (Document Key)) :
  StronglySorted Entry.le (z_ (Indexer.build docs)).
Proof. apply sort_entries_sorted. Qed.

Lemma build_length (docs : list (Document Key)) (a b : nat)
    (doc : Document Key) (c : Conjunction Key) :
  docs !! a = Some doc → conjunctions doc !! b = Some c → expressions c ≠ [] →
  (getConjunctionSize c < length (indexs_ (Indexer.build docs)))%nat.
Proof.
  intros Ha Hb Hne. unfold Indexer.build. simpl. rewrite length_fmap.
  eapply add_documents_length; eassumption.
Qed.

End BuildFacts.

(** ** C2: nothing checks the bounds *)

Lemma Entry_new_alias (d i : EntryId) (p : bool) :
  0 <= d → 0 <= i →
  Entry.new d i p
  = Entry.new (Z.lor d (Z.shiftr i 16) mod 2 ^ 47) (i mod 2 ^ 16) p.
Proof.
  intros Hd Hi. unfold Entry.new, u64. f_equal. f_equal.
  apply Z.bits_inj'. intros n Hn.
  rewrite !Z.lor_spec.
  destruct (Z.lt_ge_cases n 64) as [Hlt | Hge].
  - rewrite !Z.mod_pow2_bits_low by lia.
    rewrite !Z.shiftl_spec by lia.
    destruct (Z.lt_ge_cases n 17) as [Hlt17 | Hge17].
    + rewrite !(Z.testbit_neg_r _ (n - 17)) by lia. simpl.
      destruct (Z.lt_ge_cases n 1) as [Hlt1 | Hge1].
      * rewrite !(Z.testbit_neg_r _ (n - 1)) by lia. reflexivity.
      * rewrite Z.mod_pow2_bits_low by lia. reflexivity.
    + rewrite Z.mod_pow2_bits_low by lia.
      rewrite (Z.mod_pow2_bits_high i 16 (n - 1)) by lia.
      rewrite Z.lor_spec, Z.shiftr_spec by lia.
      replace (n - 17 + 16) with (n - 1) by lia.
      rewrite orb_false_r. reflexivity.
  - rewrite !Z.mod_pow2_bits_high by lia. reflexivity.
Qed.

Lemma Entry_new_u64 (d i : EntryId) (p : bool) :
  0 <= d → 0 <= i → is_u64 (value_ (Entry.new d i p)).
Proof.
  intros Hd Hi. rewrite Entry_new_alias by assumption.
  pose proof (Z.mod_pos_bound (Z.lor d (Z.shiftr i 16)) (2 ^ 47) ltac:(lia)) as H1.
  pose proof (Z.mod_pos_bound i (2 ^ 16) ltac:(lia)) as H2.
  rewrite Entry_new_value by (split; assumption).
  unfold is_u64. destruct p; eval_pow2; lia.
Qed.

(** C2, as stated, fails: the constructor returns an Entry for fields
    outside the bounds, the Entry of other fields, and [build] files the
    65537th conjunction of document 0 under the Entry of document 1. *)
Lemma build_accepts_out_of_bounds :
  Entry.new (2 ^ 47) 0 true = Entry.new 0 0 true ∧
  Entry.new 0 (2 ^ 16) true = Entry.new 1 0 true ∧
  Entry.new 1 0 true
    ∈ z_ (Indexer.build
            [mkDocument (replicate (S (2 ^ 16)) (mkConjunction (@nil (Expression Z))))]).
Proof.
  split; [ reflexivity | ]. split; [ reflexivity | ].
  apply build_z_elem.
  exists 0%nat, (2 ^ 16)%nat,
    (mkDocument (replicate (S (2 ^ 16)) (mkConjunction [])) : Document Z),
    (mkConjunction []).
  split; [ reflexivity | ]. split; [ | split; [ reflexivity | ] ].
  - change (replicate (S (2 ^ 16)) (mkConjunction (@nil (Expression Z)))
              !! (2 ^ 16)%nat = Some (mkConjunction [])).
    apply lookup_replicate_2. apply Nat.lt_succ_diag_r.
  - rewrite Nat2Z.inj_pow. reflexivity.
Qed.

(** C2, amended: the constructor never fails and checks nothing; for any
    two unsigned arguments it returns a 64-bit word, the word of the
    in-bounds fields [(docId | (index >> 16)) mod 2^47] and
    [index mod 2^16].  [build] checks nothing either: the index of size [n]
    holds under [(k, v)] exactly the entries [Entry(i, j, p)] of the
    predicates at the positions [(i, j)], and [z_] exactly the entries
    [Entry(i, j, true)] of the conjunctions without positive predicate. *)
Theorem Entry_and_build_unchecked {Key : Type} `{Countable Key}
    (docs : list (Document Key)) (d i : EntryId) (p : bool) :
  0 <= d → 0 <= i →
  is_u64 (value_ (Entry.new d i p)) ∧
  Entry.new d i p
    = Entry.new (Z.lor d (Z.shiftr i 16) mod 2 ^ 47) (i mod 2 ^ 16) p ∧
  in_bounds (Z.lor d (Z.shiftr i 16) mod 2 ^ 47) (i mod 2 ^ 16) ∧
  (∀ n k v x,
     x ∈ postings_at (indexs_ (Indexer.build docs)) n k v ↔ stored docs n k v x) ∧
  (∀ x, x ∈ z_ (Indexer.build docs) ↔ stored_zero docs x).
Proof.
  intros Hd Hi.
  split; [ apply Entry_new_u64; assumption | ].
  split; [ apply Entry_new_alias; assumption | ].
  split; [ split; apply Z.mod_pos_bound; lia | ].
  split; [ intros n k v x; apply build_postings_elem | apply build_z_elem ].
Qed.

Lemma Entry_and_build_unchecked_witness :
  let docs := [mkDocument [mkConjunction [mkExpression 7 (IntValues [3]) false]]] in
  is_u64 (value_ (Entry.new (2 ^ 47) (2 ^ 16 + 3) true)) ∧
  Entry.new (2 ^ 47) (2 ^ 16 + 3) true
    = Entry.new (Z.lor (2 ^ 47) (Z.shiftr (2 ^ 16 + 3) 16) mod 2 ^ 47)
                ((2 ^ 16 + 3) mod 2 ^ 16) true ∧
  in_bounds (Z.lor (2 ^ 47) (Z.shiftr (2 ^ 16 + 3) 16) mod 2 ^ 47)
            ((2 ^ 16 + 3) mod 2 ^ 16) ∧
  (∀ n k v x,
     x ∈ postings_at (indexs_ (Indexer.build docs)) n k v ↔ stored docs n k v x) ∧
  (∀ x, x ∈ z_ (Indexer.build docs) ↔ stored_zero docs x).
Proof.
  intros docs.
  apply (Entry_and_build_unchecked docs (2 ^ 47) (2 ^ 16 + 3) true); lia.
Defined.

(** ** Groups over ascending posting lists *)

Lemma Entry_value_decomp (e : Entry) :
  value_ e = 2 * Entry.id e + (if Entry.isNegative e then 0 else 1).
Proof.
  unfold Entry.id, Entry.isNegative.
  rewrite Z.shiftr_div_pow2, Z.bit0_odd by lia. change (2 ^ 1) with 2.
  rewrite (Z.div_mod (value_ e) 2) at 1 by lia. rewrite Zmod_odd.
  destruct (Z.odd (value_ e)); simpl; lia.
Qed.

Lemma Entry_eq_of_id (a b : Entry) :
  Entry.id a = Entry.id b → Entry.isNegative a = Entry.isNegative b → a = b.
Proof.
  intros Hid Hneg. destruct a as [va], b as [vb]. f_equal.
  pose proof (Entry_value_decomp (mkEntry va)) as Ha.
  pose proof (Entry_value_decomp (mkEntry vb)) as Hb.
  rewrite Hid, Hneg in Ha. simpl in *. lia.
Qed.

Lemma Entry_le_same_id_positive (a b : Entry) :
  Entry.le a b → Entry.id a = Entry.id b →
  Entry.isNegative a = false → Entry.isNegative b = false.
Proof.
  unfold Entry.le. intros Hle Hid Hneg.
  rewrite (Entry_value_decomp a), (Entry_value_decomp b), Hid, Hneg in Hle.
  destruct (Entry.isNegative b); [ lia | reflexivity ].
Qed.

Lemma Entry_documentId_id (e : Entry) :
  Entry.documentId e = Z.shiftr (Entry.id e) 16.
Proof.
  unfold Entry.documentId, Entry.id. rewrite Z.shiftr_shiftr by lia. reflexivity.
Qed.

Lemma skip_loop_elem (target : EntryId) (rest : list Entry) (pos : nat) (x : Entry) :
  StronglySorted Entry.le rest →
  x ∈ rest_ (PostingList.skip_loop target pos rest)
  ↔ x ∈ rest ∧ target <= Entry.id x.
Proof.
  intros Hs. revert pos. induction Hs as [| e rest Hs IH Hall]; intros pos; simpl.
  - split; [ intros Hin; inversion Hin | intros [Hin _]; inversion Hin ].
  - destruct (Z.ltb_spec (Entry.id e) target) as [Hlt | Hge].
    + rewrite IH, elem_of_cons. split; [ tauto | ].
      intros [[-> | Hin] Hx]; [ lia | tauto ].
    + simpl. split; [ | tauto ].
      intros Hin. split; [ exact Hin | ].
      apply elem_of_cons in Hin as [-> | Hin]; [ exact Hge | ].
      rewrite Forall_forall in Hall. apply Hall, Entry_id_mono in Hin. lia.
Qed.

Lemma skip_loop_suffix (target : EntryId) (rest : list Entry) (pos : nat) :
  ∃ skipped, rest = skipped ++ rest_ (PostingList.skip_loop target pos rest).
Proof.
  destruct (skip_loop_spec target rest pos) as (sk & Heq & _). eauto.
Qed.

Lemma good_group_skipTo (target : EntryId) (g : PostingListGroup) :
  good_group g → good_group (PostingListGroup.skipTo target g).
Proof.
  intros (Hinv & Hsorted & Hnomax).
  split; [ apply group_inv_skipTo; exact Hinv | ].
  unfold PostingListGroup.skipTo.
  destruct (Entry.eqb (current_ g) Entry.max); [ split; assumption | ].
  rewrite skip_members_spec. simpl. split; apply Forall_fmap.
  - eapply Forall_impl; [ exact Hsorted | ]. intros p Hp. simpl in *.
    destruct (skip_loop_suffix target (rest_ p) (pos_ p)) as (sk & Heq).
    rewrite Heq in Hp. apply StronglySorted_app_1_r in Hp. exact Hp.
  - eapply Forall_impl; [ exact Hnomax | ]. intros p Hp. simpl in *.
    destruct (skip_loop_suffix target (rest_ p) (pos_ p)) as (sk & Heq).
    rewrite Heq in Hp. apply Forall_app in Hp as [_ Hp]. exact Hp.
Qed.

Lemma group_entries_elem (g : PostingListGroup) (x : Entry) :
  x ∈ group_entries g ↔ ∃ p, p ∈ plists_ g ∧ x ∈ rest_ p.
Proof.
  unfold group_entries. rewrite list_elem_of_join. split.
  - intros (l & Hx & Hl). apply list_elem_of_fmap in Hl as (p & -> & Hp). eauto.
  - intros (p & Hp & Hx). exists (rest_ p). split; [ exact Hx | ].
    apply list_elem_of_fmap. eauto.
Qed.

Lemma good_group_entry_facts (g : PostingListGroup) (x : Entry) :
  good_group g → x ∈ group_entries g →
  is_u64 (value_ x) ∧ x ≠ Entry.max ∧ Entry.le (PostingListGroup.current g) x.
Proof.
  intros ((Hv & Hlow & _) & Hsorted & Hnomax) Hx.
  apply group_entries_elem in Hx as (p & Hp & Hx).
  rewrite Forall_forall in Hv, Hsorted, Hnomax.
  specialize (Hv p Hp). specialize (Hsorted p Hp). specialize (Hnomax p Hp).
  unfold valid_plist in Hv. rewrite Forall_forall in Hv, Hnomax.
  split; [ apply Hv; exact Hx | ]. split; [ apply Hnomax; exact Hx | ].
  destruct p as [pos [| h l]]; [ inversion Hx | ].
  specialize (Hlow _ h Hp eq_refl). simpl in *.
  apply elem_of_cons in Hx as [-> | Hx]; [ exact Hlow | ].
  apply StronglySorted_cons in Hsorted as [Hall _].
  rewrite Forall_forall in Hall. specialize (Hall x Hx).
  unfold Entry.le, PostingListGroup.current in *. lia.
Qed.

Lemma good_group_empty (g : PostingListGroup) (x : Entry) :
  good_group g → PostingListGroup.empty g = true → x ∉ group_entries g.
Proof.
  intros Hg He Hx.
  destruct (good_group_entry_facts g x Hg Hx) as (Hv & Hne & Hle).
  apply Entry_eqb_eq in He. unfold PostingListGroup.current in Hle.
  rewrite He in Hle. apply Hne. apply Entry_le_antisym; [ | exact Hle ].
  unfold Entry.le, is_u64, Entry.max in *. simpl. lia.
Qed.

Lemma good_group_current_in (g : PostingListGroup) :
  good_group g → PostingListGroup.empty g = false →
  PostingListGroup.current g ∈ group_entries g.
Proof.
  intros ((_ & _ & Hatt) & _) He.
  destruct Hatt as [Hmax | (p & Hp & Hcur)].
  - unfold PostingListGroup.empty in He. rewrite Hmax in He. discriminate.
  - apply group_entries_elem. exists p. split; [ exact Hp | ].
    destruct p as [pos [| h l]]; [ discriminate | ].
    injection Hcur as ->. left.
Qed.

Lemma good_group_entries_skipTo (target : EntryId) (g : PostingListGroup) (x : Entry) :
  good_group g →
  x ∈ group_entries (PostingListGroup.skipTo target g)
  ↔ x ∈ group_entries g ∧ target <= Entry.id x.
Proof.
  intros Hg. unfold PostingListGroup.skipTo.
  destruct (Entry.eqb (current_ g) Entry.max) eqn:He.
  - pose proof (good_group_empty g x Hg He). tauto.
  - rewrite skip_members_spec. rewrite !group_entries_elem. simpl.
    destruct Hg as (_ & Hsorted & _). rewrite Forall_forall in Hsorted.
    split.
    + intros (p' & Hp' & Hx). apply list_elem_of_fmap in Hp' as (p & -> & Hp).
      apply skip_loop_elem in Hx as [Hx Hle]; [ | apply Hsorted; exact Hp ].
      split; [ exists p; auto | exact Hle ].
    + intros [(p & Hp & Hx) Hle]. exists (PostingList.skipTo target p).
      split; [ apply list_elem_of_fmap; eauto | ].
      apply skip_loop_elem; [ apply Hsorted; exact Hp | auto ].
Qed.

(** ** The state of the inner loop *)

Lemma advance_fst (b : nat) (n : EntryId) (st : LoopState) :
  (advance b n st).*1 = st.*1.
Proof.
  unfold advance. rewrite fmap_app, <- list_fmap_compose.
  rewrite <- (take_drop b st) at 3. rewrite fmap_app. reflexivity.
Qed.

Lemma advance_snd (b : nat) (n : EntryId) (st : LoopState) :
  (advance b n st).*2
  = (PostingListGroup.skipTo n <$> take b st.*2) ++ drop b st.*2.
Proof.
  unfold advance. rewrite fmap_app, <- fmap_take, <- fmap_drop.
  rewrite <- !list_fmap_compose. reflexivity.
Qed.

Lemma advance_elem (b : nat) (n : EntryId) (st : LoopState)
    (o : list Entry) (g' : PostingListGroup) :
  (o, g') ∈ advance b n st
  ↔ (∃ i g, st !! i = Some (o, g) ∧ (i < b)%nat ∧ g' = PostingListGroup.skipTo n g)
    ∨ (∃ i, st !! i = Some (o, g') ∧ (b <= i)%nat).
Proof.
  unfold advance. rewrite elem_of_app, list_elem_of_fmap. split.
  - intros [([o1 g1] & Heq & Hin) | Hin].
    + apply elem_of_take in Hin as (i & Hi & Hlt). simpl in Heq.
      injection Heq as -> ->. left. eauto.
    + apply list_elem_of_lookup in Hin as (i & Hi). rewrite lookup_drop in Hi.
      right. exists (b + i)%nat. split; [ exact Hi | lia ].
  - intros [(i & g & Hi & Hlt & ->) | (i & Hi & Hle)].
    + left. exists (o, g). split; [ reflexivity | ].
      apply elem_of_take. eauto.
    + right. apply list_elem_of_lookup. exists (i - b)%nat.
      rewrite lookup_drop. replace (b + (i - b))%nat with i by lia. exact Hi.
Qed.

Lemma state_ok_lookup (st : LoopState) (i : nat) (o : list Entry)
    (g : PostingListGroup) :
  state_ok st → st !! i = Some (o, g) →
  good_group g ∧ ∀ e, e ∈ group_entries g → e ∈ o.
Proof. intros Hok Hi. apply (Forall_lookup_1 _ _ _ _ Hok Hi). Qed.

Lemma state_ok_advance (b : nat) (n : EntryId) (st : LoopState) :
  state_ok st → state_ok (advance b n st).
Proof.
  intros Hok. apply Forall_forall. intros [o g'] Hin.
  apply advance_elem in Hin as [(i & g & Hi & _ & ->) | (i & Hi & _)].
  - destruct (state_ok_lookup st i o g Hok Hi) as [Hg Hsub]. simpl. split.
    + apply good_group_skipTo. exact Hg.
    + intros e He. apply good_group_entries_skipTo in He as [He _]; auto.
  - apply (state_ok_lookup st i o g' Hok Hi).
Qed.

Lemma remains_advance (b : nat) (n : EntryId) (st : LoopState) (X : EntryId) :
  state_ok st → remains (advance b n st) X →
  remains st X ∧
  (n <= X ∨ ∃ i o g e, st !! i = Some (o, g) ∧ (b <= i)%nat ∧
                       e ∈ group_entries g ∧ Entry.id e = X).
Proof.
  intros Hok (o & g' & e & Hin & He & Hid).
  apply advance_elem in Hin as [(i & g & Hi & _ & ->) | (i & Hi & Hle)].
  - destruct (state_ok_lookup st i o g Hok Hi) as [Hg _].
    apply good_group_entries_skipTo in He as [He Hn]; [ | exact Hg ].
    split; [ | left; lia ].
    exists o, g, e. split; [ eapply list_elem_of_lookup_2; exact Hi | auto ].
  - split; [ | right; exists i, o, g', e; auto ].
    exists o, g', e. split; [ eapply list_elem_of_lookup_2; exact Hi | auto ].
Qed.

Lemma consumed_advance (b : nat) (n : EntryId) (st : LoopState) (X : EntryId) :
  state_ok st → consumed (advance b n st) X →
  consumed st X
  ∨ (X < n ∧ ∃ i o g e, st !! i = Some (o, g) ∧ (i < b)%nat ∧
                        e ∈ group_entries g ∧ Entry.id e = X).
Proof.
  intros Hok (o & g' & e & Hin & Heo & Hid & Hne).
  apply advance_elem in Hin as [(i & g & Hi & Hlt & ->) | (i & Hi & Hle)].
  - destruct (state_ok_lookup st i o g Hok Hi) as [Hg _].
    rewrite good_group_entries_skipTo in Hne by exact Hg.
    destruct (decide (e ∈ group_entries g)) as [He | He].
    + right. split; [ | exists i, o, g, e; auto ].
      destruct (Z.lt_ge_cases X n); [ assumption | ].
      exfalso. apply Hne. split; [ exact He | lia ].
    + left. exists o, g, e.
      split; [ eapply list_elem_of_lookup_2; exact Hi | auto ].
  - left. exists o, g', e.
    split; [ eapply list_elem_of_lookup_2; exact Hi | auto ].
Qed.

(** In a sorted state the entries ahead in a group are not below the
    current entry of any group before it. *)
Lemma sorted_entries_ge (st : LoopState) (i j : nat) (o o' : list Entry)
    (g g' : PostingListGroup) (e : Entry) :
  state_ok st → StronglySorted group_le st.*2 → (i <= j)%nat →
  st !! i = Some (o, g) → st !! j = Some (o', g') →
  e ∈ group_entries g' →
  Entry.le (PostingListGroup.current g) e.
Proof.
  intros Hok Hs Hij Hi Hj He.
  destruct (state_ok_lookup st j o' g' Hok Hj) as [Hg' _].
  destruct (good_group_entry_facts g' e Hg' He) as (_ & _ & Hle).
  assert (group_le g g') as Hgg.
  { apply (sorted_groups_le st.*2 i j); [ assumption | assumption | | ];
      rewrite list_lookup_fmap; [ rewrite Hi | rewrite Hj ]; reflexivity. }
  unfold group_le, Entry.le in *. lia.
Qed.

Lemma count_pigeonhole {A : Type} (P : A → Prop) `{∀ x, Decision (P x)}
    (l : list A) (k j : nat) :
  (k <= length (filter P l))%nat → (j < k)%nat →
  ∃ i x, l !! i = Some x ∧ (j <= i)%nat ∧ P x.
Proof.
  intros Hk Hj. rewrite <- (take_drop j l), filter_app, length_app in Hk.
  pose proof (length_filter P (take j l)) as H1.
  pose proof (length_take l j) as H2.
  destruct (filter P (drop j l)) as [| x rest] eqn:Hf; [ simpl in Hk; lia | ].
  assert (x ∈ filter P (drop j l)) as Hx by (rewrite Hf; left).
  apply list_elem_of_filter in Hx as [HP Hx].
  apply list_elem_of_lookup in Hx as (i & Hi). rewrite lookup_drop in Hi.
  exists (j + i)%nat, x. split; [ exact Hi | ]. split; [ lia | exact HP ].
Qed.

Lemma count_prefix {A : Type} (P : A → Prop) `{∀ x, Decision (P x)}
    (l : list A) (k : nat) :
  (k <= length l)%nat → Forall P (take k l) → (k <= length (filter P l))%nat.
Proof.
  intros Hk Hall. rewrite <- (take_drop k l), filter_app, length_app.
  assert (filter P (take k l) = take k l) as ->.
  { clear Hk. induction (take k l) as [| x t IH]; [ reflexivity | ].
    apply Forall_cons in Hall as [Hx Hall]. rewrite filter_cons.
    destruct (decide (P x)); [ f_equal; apply IH; exact Hall | contradiction ]. }
  rewrite length_take. lia.
Qed.

Lemma true_match_pigeonhole (k : nat) (origs : list (list Entry))
    (st : LoopState) (X : EntryId) (j : nat) :
  st.*1 ≡ₚ origs → true_match k origs X → (j < k)%nat →
  ∃ i o g, st !! i = Some (o, g) ∧ (j <= i)%nat ∧ has_pos X o.
Proof.
  intros Hperm [Hcount _] Hj. rewrite <- Hperm in Hcount.
  destruct (count_pigeonhole (has_pos X) st.*1 k j Hcount Hj) as (i & o & Hi & Hle & HP).
  rewrite list_lookup_fmap in Hi.
  destruct (st !! i) as [[o' g] |] eqn:Hst; [ | discriminate ].
  injection Hi as ->. exists i, o, g. auto.
Qed.

Lemma true_match_no_neg (k : nat) (origs : list (list Entry))
    (st : LoopState) (X : EntryId) (o : list Entry) (g : PostingListGroup) :
  st.*1 ≡ₚ origs → true_match k origs X → (o, g) ∈ st → ¬ has_neg X o.
Proof.
  intros Hperm [_ Hall] Hin. rewrite <- Hperm in Hall.
  rewrite Forall_forall in Hall. apply Hall.
  apply list_elem_of_fmap. exists (o, g). auto.
Qed.

Lemma true_match_intro (k : nat) (origs : list (list Entry))
    (st : LoopState) (X : EntryId) :
  st.*1 ≡ₚ origs → (k <= length st)%nat →
  (∀ i o g, st !! i = Some (o, g) → (i < k)%nat → has_pos X o) →
  (∀ o g, (o, g) ∈ st → ¬ has_neg X o) →
  true_match k origs X.
Proof.
  intros Hperm Hk Hpos Hneg. unfold true_match. rewrite <- Hperm. split.
  - apply count_prefix; [ rewrite length_fmap; exact Hk | ].
    apply Forall_forall. intros o Ho.
    apply elem_of_take in Ho as (i & Hi & Hlt).
    rewrite list_lookup_fmap in Hi.
    destruct (st !! i) as [[o' g] |] eqn:Hst; [ | discriminate ].
    injection Hi as ->. eapply Hpos; eassumption.
  - apply Forall_forall. intros o Ho.
    apply list_elem_of_fmap in Ho as ([o' g] & -> & Hin). eapply Hneg. exact Hin.
Qed.

Lemma sorted_state_le (st : LoopState) (i j : nat) (o o' : list Entry)
    (g g' : PostingListGroup) :
  StronglySorted group_le st.*2 → (i <= j)%nat →
  st !! i = Some (o, g) → st !! j = Some (o', g') →
  Entry.le (PostingListGroup.current g) (PostingListGroup.current g').
Proof.
  intros Hs Hij Hi Hj.
  apply (sorted_groups_le st.*2 i j); [ assumption | assumption | | ];
    rewrite list_lookup_fmap; [ rewrite Hi | rewrite Hj ]; reflexivity.
Qed.

Lemma not_empty_le (g g' : PostingListGroup) :
  is_u64 (value_ (PostingListGroup.current g')) →
  Entry.le (PostingListGroup.current g) (PostingListGroup.current g') →
  PostingListGroup.empty g' = false → PostingListGroup.empty g = false.
Proof.
  unfold PostingListGroup.empty, Entry.eqb, Entry.le, is_u64, Entry.max,
    PostingListGroup.current.
  simpl. intros Hv Hle Hne. apply Z.eqb_neq in Hne. apply Z.eqb_neq.
  eval_pow2. lia.
Qed.

Lemma has_pos_intro (X : EntryId) (o : list Entry) (e : Entry) :
  e ∈ o → Entry.id e = X → Entry.isNegative e = false → has_pos X o.
Proof. intros. apply Exists_exists. exists e. auto. Qed.

Lemma has_neg_intro (X : EntryId) (o : list Entry) (e : Entry) :
  e ∈ o → Entry.id e = X → Entry.isNegative e = true → has_neg X o.
Proof. intros. apply Exists_exists. exists e. auto. Qed.

(** The three ways round the loop keep the invariant. *)
Lemma loop_inv_differ (k : nat) (origs : list (list Entry)) (r0 r : ResultSet)
    (st : LoopState) (ok : list Entry) (gk : PostingListGroup) :
  loop_inv k origs r0 st r → StronglySorted group_le st.*2 → (1 <= k)%nat →
  st !! (k - 1)%nat = Some (ok, gk) →
  loop_inv k origs r0
    (advance k (Entry.id (PostingListGroup.current gk)) st) r.
Proof.
  intros (Hperm & Hok & HA & HB & HC) Hs Hk1 Hgk.
  set (N := Entry.id (PostingListGroup.current gk)).
  assert (∀ i o g e, st !! i = Some (o, g) → (k - 1 <= i)%nat →
            e ∈ group_entries g → N <= Entry.id e) as Htail.
  { intros i o g e Hi Hle He. apply Entry_id_mono.
    apply (sorted_entries_ge st (k - 1) i ok o gk g e); assumption. }
  assert (∀ X, remains (advance k N st) X → N <= X) as HremN.
  { intros X Hrem.
    destruct (remains_advance k N st X Hok Hrem)
      as [_ [Hn | (i & o & g & e & Hi & Hle & He & <-)]]; [ exact Hn | ].
    apply (Htail i o g e Hi); [ lia | exact He ]. }
  split; [ rewrite advance_fst; exact Hperm | ].
  split; [ apply state_ok_advance; exact Hok | ].
  split; [ | split; [ exact HB | ] ].
  - intros X HTM Hcon.
    destruct (consumed_advance k N st X Hok Hcon) as [Hc | (Hlt & _)];
      [ apply HA; assumption | ].
    destruct (true_match_pigeonhole k origs st X (k - 1) Hperm HTM ltac:(lia))
      as (i & o & g & Hi & Hle & Hpos).
    apply Exists_exists in Hpos as (e & Heo & Hid & _).
    apply HA; [ exact HTM | ]. exists o, g, e.
    split; [ eapply list_elem_of_lookup_2; exact Hi | ].
    split; [ exact Heo | ]. split; [ exact Hid | ].
    intros He. pose proof (Htail i o g e Hi Hle He). lia.
  - intros X Hcon Hrem. pose proof (HremN X Hrem) as HN.
    destruct (remains_advance k N st X Hok Hrem) as [Hrem0 _].
    destruct (consumed_advance k N st X Hok Hcon) as [Hc | (Hlt & _)]; [ | lia ].
    apply HC; assumption.
Qed.

Lemma loop_inv_equal_facts (k : nat) (st : LoopState) (o0 ok : list Entry)
    (g0 gk : PostingListGroup) :
  state_ok st → StronglySorted group_le st.*2 → (1 <= k)%nat →
  st !! 0%nat = Some (o0, g0) → st !! (k - 1)%nat = Some (ok, gk) →
  PostingListGroup.empty gk = false →
  Entry.id (PostingListGroup.current g0) = Entry.id (PostingListGroup.current gk) →
  PostingListGroup.current g0 ∈ o0 ∧
  PostingListGroup.current g0 ∈ group_entries g0 ∧
  (∀ X, remains st X → Entry.id (PostingListGroup.current gk) <= X) ∧
  (∀ i o g, st !! i = Some (o, g) → (i < k)%nat →
     PostingListGroup.current g ∈ o ∧
     Entry.id (PostingListGroup.current g) = Entry.id (PostingListGroup.current gk) ∧
     Entry.le (PostingListGroup.current g0) (PostingListGroup.current g)).
Proof.
  intros Hok Hs Hk1 H0 Hgk Hne Hid.
  destruct (state_ok_lookup st _ _ _ Hok H0) as [Hg0 Hsub0].
  destruct (state_ok_lookup st _ _ _ Hok Hgk) as [Hgood_k _].
  pose proof (group_inv_current_valid gk (proj1 Hgood_k)) as Hvk.
  assert (∀ i o g, st !! i = Some (o, g) → (i < k)%nat →
            PostingListGroup.current g ∈ group_entries g ∧
            Entry.le (PostingListGroup.current g0) (PostingListGroup.current g) ∧
            Entry.le (PostingListGroup.current g) (PostingListGroup.current gk))
    as Hfirst.
  { intros i o g Hi Hlt.
    pose proof (sorted_state_le st 0 i _ _ _ _ Hs ltac:(lia) H0 Hi) as Hle0.
    pose proof (sorted_state_le st i (k - 1) _ _ _ _ Hs ltac:(lia) Hi Hgk) as Hlek.
    destruct (state_ok_lookup st _ _ _ Hok Hi) as [Hg _].
    split; [ | split; assumption ].
    apply good_group_current_in; [ exact Hg | ].
    eapply not_empty_le; eassumption. }
  destruct (Hfirst 0%nat o0 g0 H0 ltac:(lia)) as (Hin0 & _ & _).
  split; [ apply Hsub0; exact Hin0 | ]. split; [ exact Hin0 | ]. split.
  - intros X (o & g & e & Hin & He & <-).
    apply list_elem_of_lookup in Hin as (i & Hi). rewrite <- Hid.
    apply Entry_id_mono.
    apply (sorted_entries_ge st 0 i o0 o g0 g e); [ assumption | assumption | lia | assumption | assumption | assumption ].
  - intros i o g Hi Hlt.
    destruct (Hfirst i o g Hi Hlt) as (Hin & Hle0 & Hlek).
    destruct (state_ok_lookup st _ _ _ Hok Hi) as [_ Hsub].
    split; [ apply Hsub; exact Hin | ]. split; [ | exact Hle0 ].
    apply Entry_id_mono in Hle0, Hlek. lia.
Qed.

Lemma consumed_advance_equal (k b : nat) (st : LoopState) (o0 ok : list Entry)
    (g0 gk : PostingListGroup) (X : EntryId) :
  state_ok st → StronglySorted group_le st.*2 → (1 <= k)%nat →
  st !! 0%nat = Some (o0, g0) → st !! (k - 1)%nat = Some (ok, gk) →
  PostingListGroup.empty gk = false →
  Entry.id (PostingListGroup.current g0) = Entry.id (PostingListGroup.current gk) →
  consumed (advance b (Entry.id (PostingListGroup.current gk) + 1) st) X →
  consumed st X ∨ X = Entry.id (PostingListGroup.current gk).
Proof.
  intros Hok Hs Hk1 H0 Hgk Hne Hid Hcon.
  destruct (loop_inv_equal_facts k st o0 ok g0 gk Hok Hs Hk1 H0 Hgk Hne Hid)
    as (_ & _ & Hmin & _).
  destruct (consumed_advance _ _ st X Hok Hcon)
    as [Hc | (Hlt & i & o & g & e & Hi & _ & He & HX)]; [ left; exact Hc | ].
  right. assert (Entry.id (PostingListGroup.current gk) <= X); [ | lia ].
  apply Hmin. exists o, g, e.
  split; [ eapply list_elem_of_lookup_2; exact Hi | auto ].
Qed.

Lemma loop_inv_match (k : nat) (origs : list (list Entry)) (r0 r : ResultSet)
    (st : LoopState) (o0 ok : list Entry) (g0 gk : PostingListGroup) :
  loop_inv k origs r0 st r → StronglySorted group_le st.*2 →
  (1 <= k <= length st)%nat →
  st !! 0%nat = Some (o0, g0) → st !! (k - 1)%nat = Some (ok, gk) →
  PostingListGroup.empty gk = false →
  Entry.id (PostingListGroup.current g0) = Entry.id (PostingListGroup.current gk) →
  Entry.isNegative (PostingListGroup.current g0) = false →
  loop_inv k origs r0
    (advance k (Entry.id (PostingListGroup.current gk) + 1) st)
    (addDocumentId (Entry.documentId (PostingListGroup.current gk)) r).
Proof.
  intros (Hperm & Hok & HA & HB & HC) Hs Hk H0 Hgk Hne Hid Hpos.
  set (E := Entry.id (PostingListGroup.current gk)) in *.
  destruct (loop_inv_equal_facts k st o0 ok g0 gk Hok Hs ltac:(lia) H0 Hgk Hne Hid)
    as (Hc0 & Hc0' & Hmin & Hfirst).
  assert (true_match k origs E) as HTM.
  { apply (true_match_intro k origs st E Hperm); [ lia | | ].
    - intros i o g Hi Hlt. destruct (Hfirst i o g Hi Hlt) as (Hin & HidE & Hle).
      apply (has_pos_intro E o _ Hin HidE).
      apply (Entry_le_same_id_positive _ _ Hle); [ | exact Hpos ].
      rewrite Hid. symmetry. exact HidE.
    - intros o g Hin Hneg. apply Exists_exists in Hneg as (e & Heo & HeE & Hen).
      destruct (decide (e ∈ group_entries g)) as [He | He].
      + apply list_elem_of_lookup in Hin as (i & Hi).
        pose proof (sorted_entries_ge st 0 i o0 o g0 g e Hok Hs ltac:(lia) H0 Hi He)
          as Hle.
        unfold Entry.le in Hle.
        rewrite (Entry_value_decomp e), (Entry_value_decomp (PostingListGroup.current g0)),
          HeE, Hid, Hen, Hpos in Hle.
        fold E in Hle. lia.
      + assert (true_match k origs E) as HTM.
        { apply HC.
          - exists o, g, e. auto.
          - exists o0, g0, (PostingListGroup.current g0).
            split; [ eapply list_elem_of_lookup_2; exact H0 | auto ]. }
        apply (true_match_no_neg k origs st E o g Hperm HTM Hin).
        apply (has_neg_intro E o e); assumption. }
  unfold addDocumentId. rewrite Entry_documentId_id. fold E.
  split; [ rewrite advance_fst; exact Hperm | ].
  split; [ apply state_ok_advance; exact Hok | ].
  split; [ | split ].
  - intros X HX Hcon.
    destruct (consumed_advance_equal k k st o0 ok g0 gk X Hok Hs ltac:(lia)
                H0 Hgk Hne Hid Hcon) as [Hc | ->].
    + apply elem_of_union_r. apply HA; assumption.
    + apply elem_of_union_l, elem_of_singleton. reflexivity.
  - intros d Hd. apply elem_of_union in Hd as [Hd | Hd].
    + apply elem_of_singleton in Hd as ->. right. exists E. auto.
    + apply HB. exact Hd.
  - intros X Hcon Hrem.
    destruct (remains_advance _ _ st X Hok Hrem) as [Hrem0 _].
    destruct (consumed_advance_equal k k st o0 ok g0 gk X Hok Hs ltac:(lia)
                H0 Hgk Hne Hid Hcon) as [Hc | ->].
    + apply HC; assumption.
    + exact HTM.
Qed.

Lemma loop_inv_veto (k b : nat) (origs : list (list Entry)) (r0 r : ResultSet)
    (st : LoopState) (o0 ok : list Entry) (g0 gk : PostingListGroup) :
  loop_inv k origs r0 st r → StronglySorted group_le st.*2 →
  (1 <= k)%nat → (k <= b)%nat →
  st !! 0%nat = Some (o0, g0) → st !! (k - 1)%nat = Some (ok, gk) →
  PostingListGroup.empty gk = false →
  Entry.id (PostingListGroup.current g0) = Entry.id (PostingListGroup.current gk) →
  Entry.isNegative (PostingListGroup.current g0) = true →
  (∀ g, st.*2 !! b = Some g →
     Entry.id (PostingListGroup.current g)
     ≠ Entry.id (PostingListGroup.current gk)) →
  loop_inv k origs r0
    (advance b (Entry.id (PostingListGroup.current gk) + 1) st) r.
Proof.
  intros (Hperm & Hok & HA & HB & HC) Hs Hk Hb H0 Hgk Hne Hid Hneg Hnext.
  set (E := Entry.id (PostingListGroup.current gk)) in *.
  destruct (loop_inv_equal_facts k st o0 ok g0 gk Hok Hs ltac:(lia) H0 Hgk Hne Hid)
    as (Hc0 & Hc0' & Hmin & Hfirst).
  assert (¬ true_match k origs E) as HnTM.
  { intros HTM.
    apply (true_match_no_neg k origs st E o0 g0 Hperm HTM).
    - eapply list_elem_of_lookup_2. exact H0.
    - apply (has_neg_intro E o0 _ Hc0 Hid Hneg). }
  assert (¬ remains (advance b (E + 1) st) E) as Hnorem.
  { intros Hrem.
    destruct (remains_advance _ _ st E Hok Hrem)
      as [_ [Hn | (i & o & g & e & Hi & Hle & He & HeE)]]; [ lia | ].
    destruct (lookup_lt_is_Some_2 st b) as [[ob gb] Hgb].
    { apply lookup_lt_Some in Hi. lia. }
    assert (Entry.id (PostingListGroup.current gb) ≠ E) as Hneq.
    { apply Hnext. rewrite list_lookup_fmap, Hgb. reflexivity. }
    pose proof (sorted_state_le st (k - 1) b _ _ _ _ Hs ltac:(lia) Hgk Hgb) as H1.
    pose proof (sorted_entries_ge st b i ob o gb g e Hok Hs Hle Hgb Hi He) as H2.
    apply Entry_id_mono in H1, H2. fold E in H1. lia. }
  split; [ rewrite advance_fst; exact Hperm | ].
  split; [ apply state_ok_advance; exact Hok | ].
  split; [ | split; [ exact HB | ] ].
  - intros X HX Hcon.
    destruct (consumed_advance_equal k b st o0 ok g0 gk X Hok Hs ltac:(lia)
                H0 Hgk Hne Hid Hcon) as [Hc | ->].
    + apply HA; assumption.
    + contradiction.
  - intros X Hcon Hrem.
    destruct (consumed_advance_equal k b st o0 ok g0 gk X Hok Hs ltac:(lia)
                H0 Hgk Hne Hid Hcon) as [Hc | ->].
    + destruct (remains_advance _ _ st X Hok Hrem) as [Hrem0 _].
      apply HC; assumption.
    + contradiction.
Qed.

(** ** The inner loop finds the ids that match *)

Lemma consumed_Permutation (st st' : LoopState) (X : EntryId) :
  st ≡ₚ st' → consumed st X → consumed st' X.
Proof.
  intros Hp (o & g & e & Hin & H'). exists o, g, e.
  split; [ rewrite <- Hp; exact Hin | exact H' ].
Qed.

Lemma remains_Permutation (st st' : LoopState) (X : EntryId) :
  st ≡ₚ st' → remains st X → remains st' X.
Proof.
  intros Hp (o & g & e & Hin & H'). exists o, g, e.
  split; [ rewrite <- Hp; exact Hin | exact H' ].
Qed.

Lemma loop_inv_Permutation (k : nat) (origs : list (list Entry))
    (r0 r : ResultSet) (st st' : LoopState) :
  st ≡ₚ st' → loop_inv k origs r0 st r → loop_inv k origs r0 st' r.
Proof.
  intros Hp (Hperm & Hok & HA & HB & HC).
  split; [ rewrite <- Hp; exact Hperm | ].
  split; [ unfold state_ok; rewrite <- Hp; exact Hok | ].
  split; [ | split; [ exact HB | ] ].
  - intros X HX Hcon. apply HA; [ exact HX | ].
    apply (consumed_Permutation st' st); [ symmetry; exact Hp | exact Hcon ].
  - intros X Hcon Hrem. apply HC.
    + apply (consumed_Permutation st' st); [ symmetry; exact Hp | exact Hcon ].
    + apply (remains_Permutation st' st); [ symmetry; exact Hp | exact Hrem ].
Qed.

Section Matching.
Context `{StdSort}.

Lemma sort_state (st : LoopState) :
  ∃ sst : LoopState, sst.*2 = sort_groups st.*2 ∧ st ≡ₚ sst.
Proof.
  pose proof (sort_groups_perm st.*2) as Hp.
  destruct (Permutation_map_inv snd st Hp) as (sst & Heq & Hperm).
  exists sst. split; [ symmetry; exact Heq | exact Hperm ].
Qed.

Lemma merge_step_inv (k : nat) (origs : list (list Entry)) (r0 r r' : ResultSet)
    (gs gs' : list PostingListGroup) :
  groups_inv k origs r0 gs r →
  Indexer.merge_step k gs r = Some (Continue gs' r') →
  groups_inv k origs r0 gs' r'.
Proof.
  intros (Hk & st & <- & Hinv) Hstep. unfold Indexer.merge_step in Hstep.
  destruct (sort_state st) as (sst & Hsst & Hperm).
  pose proof (sort_groups_sorted st.*2) as Hs.
  rewrite <- Hsst in Hstep, Hs.
  apply (loop_inv_Permutation _ _ _ _ _ _ Hperm) in Hinv.
  assert (length sst = length st.*2) as Hlen.
  { rewrite length_fmap. symmetry. apply Permutation_length. exact Hperm. }
  rewrite <- Hlen in Hk. clear Hlen Hperm Hsst.
  destruct (lookup_lt_is_Some_2 sst 0 ltac:(lia)) as [[o0 g0] H0].
  destruct (lookup_lt_is_Some_2 sst (k - 1) ltac:(lia)) as [[ok gk] Hgk].
  assert (sst.*2 !! 0%nat = Some g0) as H0' by (rewrite list_lookup_fmap, H0; reflexivity).
  assert (sst.*2 !! (k - 1)%nat = Some gk) as Hgk'
    by (rewrite list_lookup_fmap, Hgk; reflexivity).
  pose proof Hinv as (_ & Hok & _).
  destruct (state_ok_lookup sst _ _ _ Hok H0) as [[Hi0 _] _].
  destruct (state_ok_lookup sst _ _ _ Hok Hgk) as [[Hik _] _].
  destruct (merge_body_continue k sst.*2 gs' r r' g0 gk H0' Hgk' ltac:(lia)
              (group_inv_current_valid _ Hi0) (group_inv_current_valid _ Hik) Hstep)
    as (Hne & n & b & Hb & -> & Hcase).
  rewrite length_fmap in Hb.
  split.
  { rewrite length_app, length_fmap, length_take, length_drop, length_fmap. lia. }
  exists (advance b n sst). split; [ apply advance_snd | ].
  destruct Hcase as [(Hid & -> & -> & ->)
                    | [(Hid & Hneg & -> & -> & ->) | (Hid & Hneg & -> & -> & _ & Hnext)]].
  - eapply loop_inv_differ; [ exact Hinv | exact Hs | lia | exact Hgk ].
  - eapply loop_inv_match; [ exact Hinv | exact Hs | lia | exact H0 | exact Hgk
                           | exact Hne | exact Hid | exact Hneg ].
  - eapply loop_inv_veto; [ exact Hinv | exact Hs | lia | lia | exact H0 | exact Hgk
                          | exact Hne | exact Hid | exact Hneg | exact Hnext ].
Qed.

Lemma merge_step_break (k : nat) (origs : list (list Entry)) (r0 r : ResultSet)
    (gs : list PostingListGroup) (X : EntryId) :
  groups_inv k origs r0 gs r →
  Indexer.merge_step k gs r = Some Break →
  true_match k origs X → Z.shiftr X 16 ∈ r.
Proof.
  intros (Hk & st & <- & Hinv) Hstep HTM. unfold Indexer.merge_step in Hstep.
  destruct (sort_state st) as (sst & Hsst & Hperm).
  pose proof (sort_groups_sorted st.*2) as Hs.
  rewrite <- Hsst in Hstep, Hs.
  apply (loop_inv_Permutation _ _ _ _ _ _ Hperm) in Hinv.
  assert (length sst = length st.*2) as Hlen.
  { rewrite length_fmap. symmetry. apply Permutation_length. exact Hperm. }
  rewrite <- Hlen in Hk. clear Hlen Hperm Hsst.
  destruct (lookup_lt_is_Some_2 sst 0 ltac:(lia)) as [[o0 g0] H0].
  destruct (lookup_lt_is_Some_2 sst (k - 1) ltac:(lia)) as [[ok gk] Hgk].
  destruct Hinv as (Hperm & Hok & HA & _ & _).
  assert (PostingListGroup.empty gk = true) as Hempty.
  { unfold Indexer.merge_body in Hstep.
    rewrite !list_lookup_fmap, H0, Hgk in Hstep. simpl in Hstep.
    destruct (PostingListGroup.empty gk); [ reflexivity | ].
    destruct (_ =? _); [ destruct (Entry.isNegative _);
                         [ destruct (_ !! _) | ] | ]; discriminate. }
  destruct (true_match_pigeonhole k origs sst X (k - 1) Hperm HTM ltac:(lia))
    as (i & o & g & Hi & Hle & Hpos).
  apply Exists_exists in Hpos as (e & Heo & Hid & _).
  apply HA; [ exact HTM | ]. exists o, g, e.
  split; [ eapply list_elem_of_lookup_2; exact Hi | ].
  split; [ exact Heo | ]. split; [ exact Hid | ].
  destruct (state_ok_lookup sst _ _ _ Hok Hi) as [Hg _].
  apply good_group_empty; [ exact Hg | ].
  pose proof (sorted_state_le sst (k - 1) i _ _ _ _ Hs Hle Hgk Hi) as Hle'.
  pose proof (group_inv_current_valid g (proj1 Hg)) as Hv.
  apply Entry_eqb_eq in Hempty. apply Entry_eqb_eq.
  apply Entry_le_antisym.
  - unfold Entry.le, is_u64, Entry.max, PostingListGroup.current in *.
    simpl. eval_pow2. lia.
  - unfold PostingListGroup.current in Hle'. rewrite Hempty in Hle'. exact Hle'.
Qed.

Lemma groups_inv_init (k : nat) (gs : list PostingListGroup) (r : ResultSet) :
  Forall good_group gs → (1 <= k <= length gs)%nat →
  groups_inv k (group_entries <$> gs) r gs r.
Proof.
  intros Hgood Hk. split; [ exact Hk | ].
  exists ((λ g, (group_entries g, g)) <$> gs).
  assert (∀ X, ¬ consumed ((λ g, (group_entries g, g)) <$> gs) X) as Hnone.
  { intros X (o & g & e & Hin & Heo & _ & Hne).
    apply list_elem_of_fmap in Hin as (g' & [= -> ->] & _). contradiction. }
  split; [ rewrite <- list_fmap_compose; apply list_fmap_id | ].
  split; [ rewrite <- list_fmap_compose; reflexivity | ].
  split; [ | split; [ | split ] ].
  - apply Forall_fmap. eapply Forall_impl; [ exact Hgood | ].
    intros g Hg. simpl. auto.
  - intros X _ Hc. destruct (Hnone X Hc).
  - intros d Hd. left. exact Hd.
  - intros X Hc. destruct (Hnone X Hc).
Qed.

(** The inner loop for [k] required groups ends, and adds to the result
    the documents of the ids that at least [k] of the groups hold
    positively and none holds negatively. *)
Lemma merge_loop_correct (k : nat) (gs : list PostingListGroup) (r : ResultSet) :
  Forall good_group gs → (1 <= k <= length gs)%nat →
  ∃ r', Indexer.merge_loop (S (Indexer.remaining gs)) k gs r = Some r' ∧
        ∀ d, d ∈ r' ↔ d ∈ r ∨ ∃ X, true_match k (group_entries <$> gs) X ∧
                                   d = Z.shiftr X 16.
Proof.
  intros Hgood Hk.
  assert (Forall group_inv gs) as Hinv.
  { eapply Forall_impl; [ exact Hgood | ]. intros g Hg. apply Hg. }
  destruct (merge_loop_total k (S (Indexer.remaining gs)) gs r Hinv Hk ltac:(lia))
    as [r' Hloop].
  exists r'. split; [ exact Hloop | ].
  destruct (merge_loop_invariant (groups_inv k (group_entries <$> gs) r) k
              (λ gs0 r1 gs1 r2, merge_step_inv k (group_entries <$> gs) r r1 r2 gs0 gs1)
              _ gs r r' (groups_inv_init k gs r Hgood Hk) Hloop)
    as (gs' & Hfinal & Hbreak).
  intros d. split.
  - destruct Hfinal as (_ & st & _ & (_ & _ & _ & HB & _)). apply HB.
  - intros [Hd | (X & HX & ->)].
    + rewrite merge_loop_result in Hloop.
      destruct (Indexer.merge_loop _ k gs ∅) as [d0 |]; [ | discriminate ].
      injection Hloop as <-. apply elem_of_union_r. exact Hd.
    + eapply merge_step_break; eassumption.
Qed.

End Matching.

(** ** The groups that [getPostingLists] collects *)

Lemma good_group_new : good_group PostingListGroup.new.
Proof. split; [ apply group_inv_new | split; constructor ]. Qed.

Lemma good_group_add (l : list Entry) (g : PostingListGroup) :
  good_list l → good_group g →
  good_group (PostingListGroup.add (PostingList.new l) g).
Proof.
  intros (Hs & Hv & Hm) (Hinv & Hsorted & Hnomax).
  split; [ apply group_inv_add; assumption | ].
  unfold PostingListGroup.add.
  destruct (PostingList.current (PostingList.new l)); [ | split; assumption ].
  simpl. split; apply Forall_app; split; try assumption;
    repeat constructor; assumption.
Qed.

Lemma group_entries_add (l : list Entry) (g : PostingListGroup) :
  group_entries (PostingListGroup.add (PostingList.new l) g)
  = group_entries g ++ l.
Proof.
  unfold PostingListGroup.add, group_entries.
  destruct l as [| e l]; simpl; [ rewrite app_nil_r; reflexivity | ].
  rewrite fmap_app, join_app. simpl. rewrite app_nil_r. reflexivity.
Qed.

Section AddFold.
Context {V : Type} (post : V → list Entry).

Lemma fold_add_inv (vs : list V) (g : PostingListGroup) :
  (∀ v, v ∈ vs → Forall (λ e, is_u64 (value_ e)) (post v)) →
  group_inv g →
  group_inv (foldl (λ g v, PostingListGroup.add (PostingList.new (post v)) g) g vs).
Proof.
  revert g. induction vs as [| v vs IH]; intros g Hall Hg; simpl; [ exact Hg | ].
  apply IH.
  - intros w Hw. apply Hall. right. exact Hw.
  - apply group_inv_add; [ | exact Hg ]. apply Hall. left.
Qed.

Lemma fold_add_good (vs : list V) (g : PostingListGroup) :
  (∀ v, v ∈ vs → good_list (post v)) → good_group g →
  good_group (foldl (λ g v, PostingListGroup.add (PostingList.new (post v)) g) g vs).
Proof.
  revert g. induction vs as [| v vs IH]; intros g Hall Hg; simpl; [ exact Hg | ].
  apply IH.
  - intros w Hw. apply Hall. right. exact Hw.
  - apply good_group_add; [ | exact Hg ]. apply Hall. left.
Qed.

Lemma fold_add_entries (vs : list V) (g : PostingListGroup) (x : Entry) :
  x ∈ group_entries
        (foldl (λ g v, PostingListGroup.add (PostingList.new (post v)) g) g vs)
  ↔ x ∈ group_entries g ∨ ∃ v, v ∈ vs ∧ x ∈ post v.
Proof.
  revert g. induction vs as [| v vs IH]; intros g; simpl.
  - split; [ auto | intros [? | (v & Hv & _)]; [ assumption | inversion Hv ] ].
  - rewrite IH, group_entries_add, elem_of_app. split.
    + intros [[? | ?] | (w & Hw & ?)]; auto.
      * right. exists v. split; [ left | assumption ].
      * right. exists w. split; [ right; assumption | assumption ].
    + intros [? | (w & Hw & ?)]; auto.
      apply elem_of_cons in Hw as [-> | Hw]; auto.
      right. exists w. auto.
Qed.

End AddFold.

Section Groups.
Context {Key : Type} `{Countable Key}.

Lemma impl_trigger_fold {T : Type} `{Countable T} (g : PostingListGroup)
    (k : Key) (vals : list T) (m : InvertedIndexImpl Key T) :
  InvertedIndexImpl.trigger g k vals m
  = foldl (λ g v, PostingListGroup.add (PostingList.new (impl_postings m k v)) g)
          g vals.
Proof.
  unfold InvertedIndexImpl.trigger, impl_postings.
  destruct (m !! k) as [t |].
  - revert g. induction vals as [| v vals IH]; intros g; simpl; [ reflexivity | ].
    rewrite <- IH. destruct (t !! v); reflexivity.
  - revert g. induction vals as [| v vals IH]; intros g; simpl; [ reflexivity | ].
    rewrite <- IH. reflexivity.
Qed.

Lemma index_trigger_fold (g : PostingListGroup) (k : Key) (vals : Values)
    (index : InvertedIndex Key) :
  InvertedIndex.trigger g k vals index
  = foldl (λ g v, PostingListGroup.add (PostingList.new (index_postings index k v)) g)
          g (value_list vals).
Proof.
  destruct vals as [l | l]; simpl; rewrite foldl_fmap; apply impl_trigger_fold.
Qed.

Lemma call_group_inv (index : InvertedIndex Key) (call : Key * Values) :
  (∀ k v, Forall (λ e, is_u64 (value_ e)) (index_postings index k v)) →
  group_inv (call_group index call).
Proof.
  intros Hall. unfold call_group. rewrite index_trigger_fold.
  apply fold_add_inv; [ | apply group_inv_new ]. intros v _. apply Hall.
Qed.

Lemma call_group_good (index : InvertedIndex Key) (call : Key * Values) :
  (∀ k v, good_list (index_postings index k v)) →
  good_group (call_group index call).
Proof.
  intros Hall. unfold call_group. rewrite index_trigger_fold.
  apply fold_add_good; [ | apply good_group_new ]. intros v _. apply Hall.
Qed.

Lemma call_group_entries (index : InvertedIndex Key) (call : Key * Values)
    (x : Entry) :
  x ∈ group_entries (call_group index call)
  ↔ ∃ v, v ∈ value_list call.2 ∧ x ∈ index_postings index call.1 v.
Proof.
  unfold call_group. rewrite index_trigger_fold, fold_add_entries.
  split; [ intros [Hin | ?]; [ inversion Hin | assumption ] | auto ].
Qed.

Lemma collect_groups_spec (index : InvertedIndex Key) (calls : list (Key * Values)) :
  Indexer.collect_groups index calls
  = filter (λ g, PostingListGroup.empty g = false) (call_group index <$> calls).
Proof.
  unfold Indexer.collect_groups.
  assert (∀ acc,
            foldl (λ result call,
                     let group := InvertedIndex.trigger PostingListGroup.new
                                    call.1 call.2 index in
                     if PostingListGroup.empty group then result
                     else result ++ [group]) acc calls
            = acc ++ filter (λ g, PostingListGroup.empty g = false)
                            (call_group index <$> calls)) as Hgen.
  { induction calls as [| call calls IH]; intros acc; csimpl.
    - rewrite app_nil_r. reflexivity.
    - rewrite IH, filter_cons. fold (call_group index call).
      destruct (PostingListGroup.empty (call_group index call)) eqn:He.
      + rewrite decide_False by discriminate. reflexivity.
      + rewrite decide_True by reflexivity. rewrite <- app_assoc. reflexivity. }
  apply (Hgen []).
Qed.

End Groups.

(** ** [retrieve] returns, and only adds to the result *)

Section RetrieveFacts.
Context {Key : Type} `{Countable Key} `{StdSort}.

Lemma retrieve_size_result (ix : Indexer Key) (s : Assignment Key) (i : nat)
    (r : ResultSet) :
  Indexer.retrieve_size ix s i r
  = (λ d, d ∪ r) <$> Indexer.retrieve_size ix s i ∅.
Proof.
  unfold Indexer.retrieve_size.
  destruct (_ <? _)%nat.
  - simpl. rewrite (left_id_L ∅ (∪)). reflexivity.
  - apply merge_loop_result.
Qed.

Lemma retrieve_sizes_result (ix : Indexer Key) (s : Assignment Key) (count : nat)
    (r : ResultSet) :
  Indexer.retrieve_sizes ix s count r
  = (λ d, d ∪ r) <$> Indexer.retrieve_sizes ix s count ∅.
Proof.
  revert r. induction count as [| i IH]; intros r; simpl.
  - rewrite (left_id_L ∅ (∪)). reflexivity.
  - rewrite (retrieve_size_result ix s i r).
    destruct (Indexer.retrieve_size ix s i ∅) as [d |]; simpl; [ | reflexivity ].
    rewrite (IH (d ∪ r)), (IH d).
    destruct (Indexer.retrieve_sizes ix s i ∅) as [x |]; simpl; [ | reflexivity ].
    rewrite (assoc_L (∪)). reflexivity.
Qed.

Lemma retrieve_result (ix : Indexer Key) (s : Assignment Key) (r : ResultSet) :
  Indexer.retrieve r s ix = (λ d, d ∪ r) <$> Indexer.retrieve ∅ s ix.
Proof.
  unfold Indexer.retrieve. destruct (_ <? 0).
  - simpl. rewrite (left_id_L ∅ (∪)). reflexivity.
  - apply retrieve_sizes_result.
Qed.

Lemma getPostingLists_spec (ix : Indexer Key) (i : nat) (s : Assignment Key)
    (index : InvertedIndex Key) :
  indexs_ ix !! i = Some index →
  Indexer.getPostingLists ix i s
  = filter (λ g, PostingListGroup.empty g = false)
           (call_group index <$> asg_calls s)
    ++ (if (i =? 0)%nat && negb (bool_decide (z_ ix = []))
        then [PostingListGroup.add (PostingList.new (z_ ix)) PostingListGroup.new]
        else []).
Proof.
  intros Hi. unfold Indexer.getPostingLists. rewrite Hi, collect_groups_spec.
  destruct (_ && _); [ reflexivity | rewrite app_nil_r; reflexivity ].
Qed.

Lemma getPostingLists_none (ix : Indexer Key) (i : nat) (s : Assignment Key) :
  indexs_ ix !! i = None →
  Indexer.getPostingLists ix i s
  = (if (i =? 0)%nat && negb (bool_decide (z_ ix = []))
     then [PostingListGroup.add (PostingList.new (z_ ix)) PostingListGroup.new]
     else []).
Proof.
  intros Hi. unfold Indexer.getPostingLists. rewrite Hi.
  destruct (_ && _); reflexivity.
Qed.

(** Every entry of a built index is a 64-bit word. *)
Lemma build_postings_u64 (docs : list (Document Key)) (n : nat) (k : Key)
    (v : Value) :
  Forall (λ e, is_u64 (value_ e)) (postings_at (indexs_ (Indexer.build docs)) n k v).
Proof.
  apply Forall_forall. intros x Hx.
  apply build_postings_elem in Hx as (a & b & doc & c & p & _ & _ & _ & ->).
  apply Entry_new_u64; lia.
Qed.

Lemma build_z_u64 (docs : list (Document Key)) :
  Forall (λ e, is_u64 (value_ e)) (z_ (Indexer.build docs)).
Proof.
  apply Forall_forall. intros x Hx.
  apply build_z_elem in Hx as (a & b & doc & c & _ & _ & _ & ->).
  apply Entry_new_u64; lia.
Qed.

Lemma postings_at_lookup (indexs : list (InvertedIndex Key)) (i : nat)
    (index : InvertedIndex Key) (k : Key) (v : Value) :
  indexs !! i = Some index → index_postings index k v = postings_at indexs i k v.
Proof. intros Hi. unfold postings_at. rewrite Hi. reflexivity. Qed.

Lemma build_groups_inv (docs : list (Document Key)) (i : nat) (s : Assignment Key) :
  Forall group_inv (Indexer.getPostingLists (Indexer.build docs) i s).
Proof.
  assert (Forall group_inv
            (if (i =? 0)%nat && negb (bool_decide (z_ (Indexer.build docs) = []))
             then [PostingListGroup.add (PostingList.new (z_ (Indexer.build docs)))
                     PostingListGroup.new]
             else [])) as Hz.
  { destruct (_ && _); [ | apply Forall_nil_2 ].
    apply Forall_cons_2; [ | apply Forall_nil_2 ].
    apply group_inv_add; [ apply build_z_u64 | apply group_inv_new ]. }
  destruct (indexs_ (Indexer.build docs) !! i) as [index |] eqn:Hi.
  - rewrite (getPostingLists_spec _ _ _ _ Hi). apply Forall_app. split; [ | exact Hz ].
    apply Forall_forall. intros g Hg.
    apply list_elem_of_filter in Hg as [_ Hg].
    apply list_elem_of_fmap in Hg as (call & -> & _).
    apply call_group_inv. intros k v.
    rewrite (postings_at_lookup _ _ _ k v Hi). apply build_postings_u64.
  - rewrite (getPostingLists_none _ _ _ Hi). exact Hz.
Qed.

Lemma build_retrieve_size_total (docs : list (Document Key)) (s : Assignment Key)
    (i : nat) (r : ResultSet) :
  is_Some (Indexer.retrieve_size (Indexer.build docs) s i r).
Proof.
  unfold Indexer.retrieve_size.
  destruct (Nat.ltb_spec (length (Indexer.getPostingLists (Indexer.build docs) i s))
                         (if (i =? 0)%nat then 1%nat else i)) as [Hlt | Hge].
  - eexists; reflexivity.
  - apply merge_loop_total; [ apply build_groups_inv | | lia ].
    split; [ destruct (Nat.eqb_spec i 0); lia | exact Hge ].
Qed.

Lemma build_retrieve_sizes_total (docs : list (Document Key)) (s : Assignment Key)
    (count : nat) (r : ResultSet) :
  is_Some (Indexer.retrieve_sizes (Indexer.build docs) s count r).
Proof.
  revert r. induction count as [| i IH]; intros r; simpl; [ eexists; reflexivity | ].
  destruct (build_retrieve_size_total docs s i r) as [r' ->]. apply IH.
Qed.

Lemma build_retrieve_total (docs : list (Document Key)) (s : Assignment Key)
    (r : ResultSet) :
  is_Some (Indexer.retrieve r s (Indexer.build docs)).
Proof.
  unfold Indexer.retrieve. destruct (_ <? 0); [ eexists; reflexivity | ].
  apply build_retrieve_sizes_total.
Qed.

(** C9: on a built index [retrieve] returns for every assignment; two
    calls with the same assignment, each into an empty result set, give
    the same set, and a further call into the first result leaves it as it
    is. *)
Theorem retrieve_idempotent (docs : list (Document Key)) (s : Assignment Key) :
  ∃ r : ResultSet,
    Indexer.retrieve ∅ s (Indexer.create docs) = Some r ∧
    (∀ r2, Indexer.retrieve ∅ s (Indexer.create docs) = Some r2 → r2 = r) ∧
    Indexer.retrieve r s (Indexer.create docs) = Some r.
Proof.
  unfold Indexer.create.
  destruct (build_retrieve_total docs s ∅) as [r Hr].
  exists r. split; [ exact Hr | ]. split.
  - intros r2 Hr2. congruence.
  - rewrite retrieve_result, Hr. simpl. f_equal. apply (idemp_L (∪)).
Qed.

End RetrieveFacts.

(** ** [retrieve] by sizes *)

Section RetrieveSizes.
Context {Key : Type} `{Countable Key} `{StdSort}.

Lemma true_match_length (k : nat) (origs : list (list Entry)) (X : EntryId) :
  true_match k origs X → (k <= length origs)%nat.
Proof.
  intros [Hc _]. pose proof (length_filter (has_pos X) origs). lia.
Qed.

Lemma retrieve_size_correct (ix : Indexer Key) (s : Assignment Key) (i : nat)
    (r : ResultSet) :
  Forall good_group (Indexer.getPostingLists ix i s) →
  ∃ r', Indexer.retrieve_size ix s i r = Some r' ∧
        ∀ d, d ∈ r' ↔
             d ∈ r ∨ ∃ X, true_match (required i)
                            (group_entries <$> Indexer.getPostingLists ix i s) X ∧
                          d = Z.shiftr X 16.
Proof.
  intros Hgood. unfold Indexer.retrieve_size. fold (required i).
  destruct (Nat.ltb_spec (length (Indexer.getPostingLists ix i s)) (required i))
    as [Hlt | Hge].
  - exists r. split; [ reflexivity | ]. intros d. split; [ auto | ].
    intros [Hd | (X & HX & _)]; [ exact Hd | ].
    apply true_match_length in HX. rewrite length_fmap in HX. lia.
  - apply merge_loop_correct; [ exact Hgood | ].
    split; [ unfold required; destruct (Nat.eqb_spec i 0); lia | exact Hge ].
Qed.

Lemma retrieve_sizes_correct (ix : Indexer Key) (s : Assignment Key) (count : nat)
    (r : ResultSet) :
  (∀ i, (i < count)%nat → Forall good_group (Indexer.getPostingLists ix i s)) →
  ∃ r', Indexer.retrieve_sizes ix s count r = Some r' ∧
        ∀ d, d ∈ r' ↔
             d ∈ r ∨ ∃ i X, (i < count)%nat ∧
                            true_match (required i)
                              (group_entries <$> Indexer.getPostingLists ix i s) X ∧
                            d = Z.shiftr X 16.
Proof.
  revert r. induction count as [| i IH]; intros r Hgood; simpl.
  - exists r. split; [ reflexivity | ]. intros d. split; [ auto | ].
    intros [Hd | (i & X & Hi & _)]; [ exact Hd | lia ].
  - destruct (retrieve_size_correct ix s i r (Hgood i ltac:(lia))) as (r1 & -> & Hr1).
    destruct (IH r1 (λ j Hj, Hgood j ltac:(lia))) as (r' & -> & Hr').
    exists r'. split; [ reflexivity | ]. intros d. rewrite Hr', Hr1. split.
    + intros [[Hd | (X & HX & ->)] | (j & X & Hj & HX & ->)]; auto.
      * right. exists i, X. split; [ lia | auto ].
      * right. exists j, X. split; [ lia | auto ].
    + intros [Hd | (j & X & Hj & HX & ->)]; auto.
      destruct (decide (j = i)) as [-> | Hne].
      * left. right. exists X. auto.
      * right. exists j, X. split; [ lia | auto ].
Qed.

End RetrieveSizes.

(** ** Built indices over inputs inside the bounds *)

Section Indexable.
Context {Key : Type} `{Countable Key}.

Lemma indexable_conjunction (docs : list (Document Key)) (a b : nat)
    (doc : Document Key) (c : Conjunction Key) :
  indexable docs → docs !! a = Some doc → conjunctions doc !! b = Some c →
  in_bounds (Z.of_nat a) (Z.of_nat b) ∧ Z.of_nat a < 2 ^ 47 - 1 ∧
  NoDup (positive_keys c) ∧ Z.of_nat (getConjunctionSize c) < 2 ^ 31.
Proof.
  intros (Hlen & Hall & _) Ha Hb.
  pose proof (lookup_lt_Some _ _ _ Ha) as Hla.
  pose proof (lookup_lt_Some _ _ _ Hb) as Hlb.
  destruct (Forall_lookup_1 _ _ _ _ Hall Ha) as [Hc Hcs].
  destruct (Forall_lookup_1 _ _ _ _ Hcs Hb) as [Hnd Hsz].
  unfold in_bounds. repeat split; try assumption; lia.
Qed.

Lemma Entry_new_id (a b : EntryId) (p : bool) :
  in_bounds a b → Entry.id (Entry.new a b p) = a * 2 ^ 16 + b.
Proof.
  intros Hb. unfold Entry.id. rewrite Entry_new_value by exact Hb.
  rewrite Z.shiftr_div_pow2 by lia.
  apply div_known with (r := if p then 1 else 0); destruct p; eval_pow2; lia.
Qed.

Lemma Entry_new_isNegative (a b : EntryId) (p : bool) :
  in_bounds a b → Entry.isNegative (Entry.new a b p) = negb p.
Proof.
  intros Hb. unfold Entry.isNegative. rewrite Entry_new_value by exact Hb.
  rewrite Z.bit0_odd.
  replace (a * 2 ^ 17 + b * 2 + (if p then 1 else 0))
    with ((if p then 1 else 0) + 2 * (a * 2 ^ 16 + b)) by (eval_pow2; lia).
  rewrite Z.odd_add_mul_2. destruct p; reflexivity.
Qed.

Lemma Entry_new_not_max (a b : EntryId) (p : bool) :
  in_bounds a b → a < 2 ^ 47 - 1 → Entry.new a b p ≠ Entry.max.
Proof.
  intros Hb Ha Heq. apply (f_equal value_) in Heq.
  rewrite Entry_new_value in Heq by exact Hb.
  destruct Hb as [? ?]. unfold Entry.max in Heq. simpl in Heq.
  destruct p; eval_pow2; lia.
Qed.

Lemma id_position_inj (a b a' b' : Z) :
  in_bounds a b → in_bounds a' b' →
  a * 2 ^ 16 + b = a' * 2 ^ 16 + b' → a = a' ∧ b = b'.
Proof. unfold in_bounds. eval_pow2. lia. Qed.

Lemma build_postings_good (docs : list (Document Key)) (n : nat) (k : Key)
    (v : Value) :
  indexable docs → good_list (postings_at (indexs_ (Indexer.build docs)) n k v).
Proof.
  intros Hix. split; [ apply build_postings_sorted | ].
  split; [ apply build_postings_u64 | ].
  apply Forall_forall. intros x Hx.
  apply build_postings_elem in Hx as (a & b & doc & c & p & Ha & Hb & _ & ->).
  destruct (indexable_conjunction docs a b doc c Hix Ha Hb) as (Hin & Hlt & _).
  apply Entry_new_not_max; assumption.
Qed.

Lemma build_z_good (docs : list (Document Key)) :
  indexable docs → good_list (z_ (Indexer.build docs)).
Proof.
  intros Hix. split; [ apply build_z_sorted | ].
  split; [ apply build_z_u64 | ].
  apply Forall_forall. intros x Hx.
  apply build_z_elem in Hx as (a & b & doc & c & Ha & Hb & _ & ->).
  destruct (indexable_conjunction docs a b doc c Hix Ha Hb) as (Hin & Hlt & _).
  apply Entry_new_not_max; assumption.
Qed.

Lemma build_groups_good (docs : list (Document Key)) (i : nat) (s : Assignment Key) :
  indexable docs →
  Forall good_group (Indexer.getPostingLists (Indexer.build docs) i s).
Proof.
  intros Hix.
  assert (Forall good_group
            (if (i =? 0)%nat && negb (bool_decide (z_ (Indexer.build docs) = []))
             then [PostingListGroup.add (PostingList.new (z_ (Indexer.build docs)))
                     PostingListGroup.new]
             else [])) as Hz.
  { destruct (_ && _); [ | apply Forall_nil_2 ].
    apply Forall_cons_2; [ | apply Forall_nil_2 ].
    apply good_group_add; [ apply build_z_good; exact Hix | apply good_group_new ]. }
  destruct (indexs_ (Indexer.build docs) !! i) as [index |] eqn:Hi.
  - rewrite (getPostingLists_spec _ _ _ _ Hi). apply Forall_app. split; [ | exact Hz ].
    apply Forall_forall. intros g Hg.
    apply list_elem_of_filter in Hg as [_ Hg].
    apply list_elem_of_fmap in Hg as (call & -> & _).
    apply call_group_good. intros k v.
    rewrite (postings_at_lookup _ _ _ k v Hi). apply build_postings_good. exact Hix.
  - rewrite (getPostingLists_none _ _ _ Hi). exact Hz.
Qed.

(** The vector of indices is not longer than the sizes ask for. *)
Lemma add_conjunctions_length_le (m : nat) (i : Z) (cs : list (Conjunction Key))
    (j : Z) (ix : Indexer Key) :
  (length (indexs_ ix) <= m)%nat →
  Forall (λ c, getConjunctionSize c < m)%nat cs →
  (length (indexs_ (Indexer.add_conjunctions i j ix cs)) <= m)%nat.
Proof.
  revert j ix. induction cs as [| c cs IH]; intros j ix Hlen Hall; simpl;
    [ exact Hlen | ].
  apply Forall_cons in Hall as [Hc Hall].
  apply IH; [ | exact Hall ].
  rewrite add_conjunction_length. destruct (expressions c); lia.
Qed.

Lemma add_documents_length_le (m : nat) (docs : list (Document Key)) (i : Z)
    (ix : Indexer Key) :
  (length (indexs_ ix) <= m)%nat →
  Forall (λ doc, Forall (λ c, getConjunctionSize c < m)%nat (conjunctions doc)) docs →
  (length (indexs_ (Indexer.add_documents i ix docs)) <= m)%nat.
Proof.
  revert i ix. induction docs as [| d docs IH]; intros i ix Hlen Hall; simpl;
    [ exact Hlen | ].
  apply Forall_cons in Hall as [Hd Hall].
  apply IH; [ | exact Hall ].
  rewrite add_documents_step. apply add_conjunctions_length_le; assumption.
Qed.

Lemma build_length_int (docs : list (Document Key)) :
  indexable docs → Z.of_nat (length (indexs_ (Indexer.build docs))) <= 2 ^ 31.
Proof.
  intros (_ & Hall & _). unfold Indexer.build. simpl. rewrite length_fmap.
  assert (length (indexs_ (Indexer.add_documents 0 (mkIndexer [] []) docs))
          <= Z.to_nat (2 ^ 31))%nat as Hle; [ | lia ].
  apply add_documents_length_le; [ simpl; lia | ].
  eapply Forall_impl; [ exact Hall | ]. intros doc [_ Hcs]. simpl.
  eapply Forall_impl; [ exact Hcs | ]. intros c [_ Hsz]. simpl in *. lia.
Qed.

Lemma first_size_value (docs : list (Document Key)) (s : Assignment Key) :
  indexable docs → well_formed_assignment s →
  Indexer.first_size (Indexer.build docs) s
  = Z.min (Z.of_nat (length (indexs_ (Indexer.build docs))) - 1) (asg_size s).
Proof.
  intros Hix (_ & Hsz). pose proof (build_length_int docs Hix) as Hlen.
  unfold Indexer.first_size. f_equal.
  - unfold to_int, u64.
    destruct (length (indexs_ (Indexer.build docs))) as [| n]; [ reflexivity | ].
    rewrite (Z.mod_small (Z.of_nat (S n) - 1)) by (eval_pow2; lia).
    rewrite Z.mod_small by (eval_pow2; lia). lia.
  - unfold to_int. rewrite Z.mod_small by (eval_pow2; lia). lia.
Qed.

End Indexable.

(** ** From the groups to the meaning of the conjunctions *)

Lemma length_filter_fmap {A B : Type} (P : B → Prop) (f : A → B)
    (dec1 : ∀ y, Decision (P y)) (dec2 : ∀ x, Decision (P (f x))) (l : list A) :
  length (@filter _ _ _ P dec1 (f <$> l))
  = length (@filter _ _ _ (λ x, P (f x)) dec2 l).
Proof.
  induction l as [| x l IH]; [ reflexivity | ].
  rewrite fmap_cons, !filter_cons.
  destruct (decide (P (f x))) as [HP | HP];
    destruct (decide (P (f x))) as [HP' | HP']; simpl;
    try contradiction; rewrite IH; reflexivity.
Qed.

Lemma length_filter_filter_implied {A : Type} (P Q : A → Prop)
    (dP dP' : ∀ x, Decision (P x)) (dQ : ∀ x, Decision (Q x)) (l : list A) :
  (∀ x, x ∈ l → P x → Q x) →
  length (@filter _ _ _ P dP (@filter _ _ _ Q dQ l))
  = length (@filter _ _ _ P dP' l).
Proof.
  induction l as [| x l IH]; intros Himp; [ reflexivity | ].
  assert (∀ y, y ∈ l → P y → Q y) as Himp' by (intros y Hy; apply Himp; right; exact Hy).
  rewrite (filter_cons Q), (filter_cons P).
  destruct (decide (Q x)) as [HQ | HQ].
  - rewrite filter_cons.
    destruct (decide (P x)) as [HP | HP];
      destruct (decide (P x)) as [HP' | HP']; simpl;
      try contradiction; rewrite IH; auto.
  - destruct (decide (P x)) as [HP | HP]; [ | apply IH; exact Himp' ].
    exfalso. apply HQ. apply Himp; [ left | exact HP ].
Qed.

Lemma NoDup_fmap_eq {A B : Type} (f : A → B) (l : list A) (x y : A) :
  NoDup (f <$> l) → x ∈ l → y ∈ l → f x = f y → x = y.
Proof.
  induction l as [| z l IH]; intros Hnd Hx Hy Heq; [ inversion Hx | ].
  rewrite fmap_cons in Hnd. apply NoDup_cons in Hnd as [Hz Hnd].
  apply elem_of_cons in Hx as [-> | Hx]; apply elem_of_cons in Hy as [-> | Hy].
  - reflexivity.
  - exfalso. apply Hz. rewrite Heq. apply list_elem_of_fmap_2. exact Hy.
  - exfalso. apply Hz. rewrite <- Heq. apply list_elem_of_fmap_2. exact Hx.
  - apply IH; assumption.
Qed.

Section Semantics.
Context {Key : Type} `{Countable Key}.

Lemma asg_values_elem (s : Assignment Key) (k : Key) (v : Value) :
  v ∈ asg_values s k ↔ ∃ vals, (k, vals) ∈ asg_calls s ∧ v ∈ value_list vals.
Proof.
  unfold asg_values. rewrite list_elem_of_join. split.
  - intros (l & Hv & Hl). apply list_elem_of_fmap in Hl as ([k' vals] & -> & Hin).
    simpl in Hv. destruct (decide (k' = k)) as [-> | ?]; [ eauto | inversion Hv ].
  - intros (vals & Hin & Hv). exists (value_list vals). split; [ exact Hv | ].
    apply list_elem_of_fmap. exists (k, vals). simpl.
    rewrite decide_True by reflexivity. auto.
Qed.

Lemma positive_keys_length (c : Conjunction Key) :
  length (positive_keys c) = getConjunctionSize c.
Proof. unfold positive_keys, getConjunctionSize. apply length_fmap. Qed.

Lemma conj_stored_positive (c : Conjunction Key) (n : nat) (k : Key) (v : Value) :
  conj_stored c n k v true → k ∈ positive_keys c.
Proof.
  intros (_ & expr & Hin & <- & _ & Hp). unfold positive_keys.
  apply list_elem_of_fmap_2. apply list_elem_of_filter. auto.
Qed.

Lemma size_zero_negative (c : Conjunction Key) (expr : Expression Key) :
  getConjunctionSize c = 0%nat → expr ∈ expressions c → positive expr = false.
Proof.
  unfold getConjunctionSize. intros Hz Hin.
  destruct (positive expr) eqn:Hp; [ | reflexivity ].
  assert (expr ∈ filter (λ e, positive e = true) (expressions c)) as Hf
    by (apply list_elem_of_filter; auto).
  destruct (filter _ (expressions c)); [ inversion Hf | discriminate ].
Qed.

Lemma stored_decode (docs : list (Document Key)) (n : nat) (k : Key) (v : Value)
    (x : Entry) :
  indexable docs → stored docs n k v x →
  ∃ (a b : nat) doc c p,
    docs !! a = Some doc ∧ conjunctions doc !! b = Some c ∧
    conj_stored c n k v p ∧
    Entry.id x = Z.of_nat a * 2 ^ 16 + Z.of_nat b ∧
    Entry.isNegative x = negb p.
Proof.
  intros Hix (a & b & doc & c & p & Ha & Hb & Hs & ->).
  destruct (indexable_conjunction docs a b doc c Hix Ha Hb) as (Hin & _).
  exists a, b, doc, c, p.
  split; [ exact Ha | ]. split; [ exact Hb | ]. split; [ exact Hs | ].
  split; [ apply Entry_new_id | apply Entry_new_isNegative ]; exact Hin.
Qed.

Lemma same_position (docs : list (Document Key)) (a b a' b' : nat)
    (doc doc' : Document Key) (c c' : Conjunction Key) :
  indexable docs →
  docs !! a = Some doc → conjunctions doc !! b = Some c →
  docs !! a' = Some doc' → conjunctions doc' !! b' = Some c' →
  Z.of_nat a * 2 ^ 16 + Z.of_nat b = Z.of_nat a' * 2 ^ 16 + Z.of_nat b' →
  a = a' ∧ b = b' ∧ doc = doc' ∧ c = c'.
Proof.
  intros Hix Ha Hb Ha' Hb' Heq.
  destruct (indexable_conjunction docs a b doc c Hix Ha Hb) as (Hin & _).
  destruct (indexable_conjunction docs a' b' doc' c' Hix Ha' Hb') as (Hin' & _).
  destruct (id_position_inj _ _ _ _ Hin Hin' Heq) as [Haa Hbb].
  apply Nat2Z.inj in Haa, Hbb. subst a' b'.
  rewrite Ha in Ha'. injection Ha' as <-.
  rewrite Hb in Hb'. injection Hb' as <-. auto.
Qed.

End Semantics.

Section SizeSemantics.
Context {Key : Type} `{Countable Key}.
Variables (docs : list (Document Key)) (s : Assignment Key) (i : nat)
  (index : InvertedIndex Key).
Hypothesis Hix : indexable docs.
Hypothesis Hindex : indexs_ (Indexer.build docs) !! i = Some index.

Lemma cg_entries (call : Key * Values) (x : Entry) :
  x ∈ group_entries (call_group index call)
  ↔ ∃ v, v ∈ value_list call.2 ∧ stored docs i call.1 v x.
Proof.
  rewrite call_group_entries. split; intros (v & Hv & Hx); exists v; split; auto.
  - apply build_postings_elem. rewrite <- (postings_at_lookup _ _ _ _ _ Hindex). exact Hx.
  - rewrite (postings_at_lookup _ _ _ _ _ Hindex). apply build_postings_elem. exact Hx.
Qed.

Lemma cg_good (call : Key * Values) : good_group (call_group index call).
Proof.
  apply call_group_good. intros k v.
  rewrite (postings_at_lookup _ _ _ k v Hindex). apply build_postings_good. exact Hix.
Qed.

Lemma cg_nonempty (call : Key * Values) (x : Entry) :
  x ∈ group_entries (call_group index call) →
  PostingListGroup.empty (call_group index call) = false.
Proof.
  intros Hx. destruct (PostingListGroup.empty (call_group index call)) eqn:He;
    [ | reflexivity ].
  destruct (good_group_empty _ x (cg_good call) He Hx).
Qed.

Lemma z_group_entries (z : list Entry) :
  group_entries (PostingListGroup.add (PostingList.new z) PostingListGroup.new) = z.
Proof. rewrite group_entries_add. reflexivity. Qed.

Lemma origs_call (call : Key * Values) (x : Entry) :
  call ∈ asg_calls s → x ∈ group_entries (call_group index call) →
  group_entries (call_group index call)
    ∈ group_entries <$> Indexer.getPostingLists (Indexer.build docs) i s.
Proof.
  intros Hcall Hx. rewrite (getPostingLists_spec _ _ _ _ Hindex).
  apply list_elem_of_fmap_2. apply elem_of_app. left.
  apply list_elem_of_filter. split; [ eapply cg_nonempty; exact Hx | ].
  apply list_elem_of_fmap_2. exact Hcall.
Qed.

Lemma origs_z (x : Entry) :
  i = 0%nat → x ∈ z_ (Indexer.build docs) →
  z_ (Indexer.build docs)
    ∈ group_entries <$> Indexer.getPostingLists (Indexer.build docs) i s.
Proof.
  intros -> Hx. rewrite (getPostingLists_spec _ _ _ _ Hindex).
  rewrite fmap_app. apply elem_of_app. right.
  rewrite bool_decide_eq_false_2 by (intros Hnil; rewrite Hnil in Hx; inversion Hx).
  simpl. rewrite z_group_entries. left.
Qed.

Lemma origs_inv (o : list Entry) :
  o ∈ group_entries <$> Indexer.getPostingLists (Indexer.build docs) i s →
  (∃ call, call ∈ asg_calls s ∧ o = group_entries (call_group index call))
  ∨ (i = 0%nat ∧ o = z_ (Indexer.build docs)).
Proof.
  rewrite (getPostingLists_spec _ _ _ _ Hindex), fmap_app, elem_of_app.
  intros [Ho | Ho].
  - apply list_elem_of_fmap in Ho as (g & -> & Hg).
    apply list_elem_of_filter in Hg as [_ Hg].
    apply list_elem_of_fmap in Hg as (call & -> & Hcall). left. eauto.
  - destruct (Nat.eqb_spec i 0) as [-> | Hne]; [ | inversion Ho ].
    destruct (negb _); [ | inversion Ho ]. simpl in Ho.
    apply list_elem_of_singleton in Ho as ->. rewrite z_group_entries. auto.
Qed.

Lemma count_origs (X : EntryId) :
  length (filter (has_pos X)
            (group_entries <$> Indexer.getPostingLists (Indexer.build docs) i s))
  = (length (filter (λ call, has_pos X (group_entries (call_group index call)))
               (asg_calls s))
     + length (filter (has_pos X)
                 (group_entries
                    <$> (if (i =? 0)%nat
                            && negb (bool_decide (z_ (Indexer.build docs) = []))
                         then [PostingListGroup.add
                                 (PostingList.new (z_ (Indexer.build docs)))
                                 PostingListGroup.new]
                         else []))))%nat.
Proof.
  rewrite (getPostingLists_spec _ _ _ _ Hindex), fmap_app, filter_app, length_app.
  f_equal.
  erewrite (length_filter_fmap (has_pos X) group_entries).
  erewrite (length_filter_filter_implied
              (λ g, has_pos X (group_entries g))
              (λ g, PostingListGroup.empty g = false)).
  - apply (length_filter_fmap (λ g, has_pos X (group_entries g)) (call_group index)).
  - intros g Hg Hpos. apply list_elem_of_fmap in Hg as (call & -> & _).
    apply Exists_exists in Hpos as (e & He & _). eapply cg_nonempty. exact He.
Qed.

Lemma pos_call_decode (X : EntryId) (call : Key * Values) :
  has_pos X (group_entries (call_group index call)) →
  ∃ v (a b : nat) doc c,
    v ∈ value_list call.2 ∧ docs !! a = Some doc ∧
    conjunctions doc !! b = Some c ∧ conj_stored c i call.1 v true ∧
    X = Z.of_nat a * 2 ^ 16 + Z.of_nat b.
Proof.
  intros Hpos. apply Exists_exists in Hpos as (e & He & HX & Hneg).
  apply cg_entries in He as (v & Hv & Hst).
  destruct (stored_decode docs i _ v e Hix Hst)
    as (a & b & doc & c & p & Ha & Hb & Hcs & Hid & Hn).
  rewrite Hneg in Hn. destruct p; [ | discriminate ].
  exists v, a, b, doc, c. rewrite <- HX. auto.
Qed.

Lemma neg_call_decode (X : EntryId) (call : Key * Values) :
  has_neg X (group_entries (call_group index call)) →
  ∃ v (a b : nat) doc c,
    v ∈ value_list call.2 ∧ docs !! a = Some doc ∧
    conjunctions doc !! b = Some c ∧ conj_stored c i call.1 v false ∧
    X = Z.of_nat a * 2 ^ 16 + Z.of_nat b.
Proof.
  intros Hpos. apply Exists_exists in Hpos as (e & He & HX & Hneg).
  apply cg_entries in He as (v & Hv & Hst).
  destruct (stored_decode docs i _ v e Hix Hst)
    as (a & b & doc & c & p & Ha & Hb & Hcs & Hid & Hn).
  rewrite Hneg in Hn. destruct p; [ discriminate | ].
  exists v, a, b, doc, c. rewrite <- HX. auto.
Qed.

(** An entry of the conjunction at [(a, b)] lies in the group of every
    call that hits one of its predicates. *)
Lemma call_holds_entry (a b : nat) (doc : Document Key) (c : Conjunction Key)
    (expr : Expression Key) (vals : Values) (v : Value) :
  docs !! a = Some doc → conjunctions doc !! b = Some c →
  getConjunctionSize c = i → expr ∈ expressions c →
  v ∈ value_list vals → v ∈ value_list (values expr) →
  Entry.new (Z.of_nat a) (Z.of_nat b) (positive expr)
    ∈ group_entries (call_group index (key expr, vals)).
Proof.
  intros Ha Hb Hsz Hexpr Hv Hv'. apply cg_entries. exists v. simpl.
  split; [ exact Hv | ].
  exists a, b, doc, c, (positive expr).
  split; [ exact Ha | ]. split; [ exact Hb | ]. split; [ | reflexivity ].
  split; [ exact Hsz | ]. exists expr. auto.
Qed.

End SizeSemantics.

Section SizeMatching.
Context {Key : Type} `{Countable Key}.
Variables (docs : list (Document Key)) (s : Assignment Key) (i : nat)
  (index : InvertedIndex Key).
Hypothesis Hix : indexable docs.
Hypothesis Hs : well_formed_assignment s.
Hypothesis Hindex : indexs_ (Indexer.build docs) !! i = Some index.

Lemma hit_calls_NoDup (X : EntryId) : NoDup (hit_calls index s X).*1.
Proof.
  unfold hit_calls.
  destruct Hs as [Hnd _]. eapply sublist_NoDup; [ exact Hnd | ].
  apply fmap_sublist. apply sublist_filter.
Qed.

Lemma hit_calls_length (X : EntryId) :
  (length (hit_calls index s X) <= length (asg_calls s))%nat.
Proof. unfold hit_calls. apply length_filter. Qed.

(** A negative predicate of the conjunction at [(a, b)] that the
    assignment hits puts a negative entry into a group. *)
Lemma negative_hit_has_neg (a b : nat) (doc : Document Key) (c : Conjunction Key)
    (expr : Expression Key) :
  docs !! a = Some doc → conjunctions doc !! b = Some c →
  getConjunctionSize c = i → expr ∈ expressions c → positive expr = false →
  predicate_hit s expr →
  ∃ o, o ∈ (size_origs docs s i) ∧ has_neg (Z.of_nat a * 2 ^ 16 + Z.of_nat b) o.
Proof.
  intros Ha Hb Hsz Hexpr Hp Hhit.
  apply Exists_exists in Hhit as (v & Hv & Hv').
  apply asg_values_elem in Hv as (vals & Hcall & Hv).
  pose proof (call_holds_entry docs i index Hindex a b doc c expr vals v
                Ha Hb Hsz Hexpr Hv Hv') as He.
  destruct (indexable_conjunction docs a b doc c Hix Ha Hb) as (Hin & _).
  exists (group_entries (call_group index (key expr, vals))). split.
  - eapply origs_call; eassumption.
  - eapply has_neg_intro; [ exact He | apply Entry_new_id; exact Hin | ].
    rewrite Entry_new_isNegative by exact Hin. rewrite Hp. reflexivity.
Qed.

Lemma negatives_hold (X : EntryId) (a b : nat) (doc : Document Key)
    (c : Conjunction Key) (expr : Expression Key) :
  Forall (λ o, ¬ has_neg X o) (size_origs docs s i) →
  docs !! a = Some doc → conjunctions doc !! b = Some c →
  getConjunctionSize c = i → X = Z.of_nat a * 2 ^ 16 + Z.of_nat b →
  expr ∈ expressions c → positive expr = false → expression_holds s expr.
Proof.
  intros Hall Ha Hb Hsz -> Hexpr Hp. unfold expression_holds. rewrite Hp.
  intros Hhit.
  destruct (negative_hit_has_neg a b doc c expr Ha Hb Hsz Hexpr Hp Hhit)
    as (o & Ho & Hneg).
  rewrite Forall_forall in Hall. exact (Hall o Ho Hneg).
Qed.

(** Soundness: an id that the groups of the size [i] agree on is the id
    of a conjunction of that size which holds. *)
Lemma true_match_sound (X : EntryId) :
  true_match (required i) (size_origs docs s i) X →
  ∃ (a b : nat) doc c,
    docs !! a = Some doc ∧ conjunctions doc !! b = Some c ∧
    conjunction_holds s c ∧ X = Z.of_nat a * 2 ^ 16 + Z.of_nat b.
Proof.
  intros [Hcount Hnoneg].
  unfold size_origs in Hcount.
  destruct (Nat.eqb_spec i 0) as [Hi0 | Hi0].
  - (* size 0: the positive entry comes from [z_] *)
    assert (∃ o, o ∈ size_origs docs s i ∧ has_pos X o) as (o & Ho & Hpos).
    { unfold size_origs. unfold required in Hcount. rewrite Hi0 in Hcount at 1.
      simpl in Hcount.
      destruct (filter (has_pos X) _) as [| o rest] eqn:Hf; [ simpl in Hcount; lia | ].
      assert (o ∈ o :: rest) as Hin by left. rewrite <- Hf in Hin.
      apply list_elem_of_filter in Hin as [Hpos Hin]. eauto. }
    apply (origs_inv docs s i index Hindex) in Ho as [(call & _ & ->) | (_ & ->)].
    + exfalso.
      destruct (pos_call_decode docs i index Hix Hindex X call Hpos)
        as (v & a & b & doc & c & _ & _ & _ & (Hsz & expr & Hexpr & _ & _ & Hp) & _).
      rewrite Hi0 in Hsz. rewrite (size_zero_negative c expr Hsz Hexpr) in Hp.
      discriminate.
    + apply Exists_exists in Hpos as (e & He & HX & _).
      apply build_z_elem in He as (a & b & doc & c & Ha & Hb & Hsz & ->).
      destruct (indexable_conjunction docs a b doc c Hix Ha Hb) as (Hin & _).
      rewrite Entry_new_id in HX by exact Hin.
      exists a, b, doc, c.
      split; [ exact Ha | ]. split; [ exact Hb | ]. split; [ | auto ].
      apply Forall_forall. intros expr Hexpr.
      apply (negatives_hold X a b doc c expr Hnoneg Ha Hb); auto; [ congruence | ].
      apply (size_zero_negative c expr Hsz Hexpr).
  - (* size i ≥ 1: i calls with different keys hit positive predicates *)
    assert (required i = i) as Hreq by (unfold required; destruct (Nat.eqb_spec i 0); lia).
    rewrite Hreq in Hcount.
    rewrite (count_origs docs s i index Hix Hindex X) in Hcount.
    destruct (Nat.eqb_spec i 0) as [? | _]; [ lia | ]. simpl in Hcount.
    rewrite Nat.add_0_r in Hcount. fold (hit_calls index s X) in Hcount.
    assert (∀ call, call ∈ hit_calls index s X →
              ∃ v (a b : nat) doc c,
                v ∈ value_list call.2 ∧ docs !! a = Some doc ∧
                conjunctions doc !! b = Some c ∧ conj_stored c i call.1 v true ∧
                X = Z.of_nat a * 2 ^ 16 + Z.of_nat b) as Hdecode.
    { intros call Hcall. apply list_elem_of_filter in Hcall as [Hpos _].
      apply (pos_call_decode docs i index Hix Hindex X call Hpos). }
    destruct (hit_calls index s X) as [| call0 rest] eqn:Hhc; [ simpl in Hcount; lia | ].
    destruct (Hdecode call0 ltac:(left)) as (v0 & a & b & doc & c & _ & Ha & Hb & Hcs0 & HX).
    pose proof (proj1 Hcs0) as Hsz. clear Hcs0.
    rewrite <- Hhc in *. clear Hhc call0 rest v0.
    destruct (indexable_conjunction docs a b doc c Hix Ha Hb) as (Hin & _ & Hnd & _).
    assert (∀ call, call ∈ hit_calls index s X →
              ∃ v expr, v ∈ value_list call.2 ∧ expr ∈ expressions c ∧
                        key expr = call.1 ∧ v ∈ value_list (values expr) ∧
                        positive expr = true) as Hhit.
    { intros call Hcall.
      destruct (Hdecode call Hcall) as (v & a' & b' & doc' & c' & Hv & Ha' & Hb' & Hcs & HX').
      destruct (same_position docs a b a' b' doc doc' c c' Hix Ha Hb Ha' Hb'
                  ltac:(congruence)) as (_ & _ & _ & <-).
      destruct Hcs as (_ & expr & Hexpr & Hk & Hv' & Hp). exists v, expr. auto. }
    assert ((hit_calls index s X).*1 ≡ₚ positive_keys c) as Hperm.
    { apply submseteq_length_Permutation.
      - apply NoDup_submseteq; [ apply hit_calls_NoDup | ].
        intros k Hk. apply list_elem_of_fmap in Hk as (call & -> & Hcall).
        destruct (Hhit call Hcall) as (v & expr & _ & Hexpr & <- & _ & Hp).
        unfold positive_keys. apply list_elem_of_fmap_2.
        apply list_elem_of_filter. auto.
      - rewrite positive_keys_length, length_fmap, Hsz. exact Hcount. }
    exists a, b, doc, c.
    split; [ exact Ha | ]. split; [ exact Hb | ]. split; [ | exact HX ].
    apply Forall_forall. intros expr Hexpr.
    destruct (positive expr) eqn:Hp.
    + unfold expression_holds. rewrite Hp.
      assert (key expr ∈ (hit_calls index s X).*1) as Hk.
      { rewrite Hperm. unfold positive_keys. apply list_elem_of_fmap_2.
        apply list_elem_of_filter. auto. }
      apply list_elem_of_fmap in Hk as (call & Hkey & Hcall).
      destruct (Hhit call Hcall) as (v & expr' & Hv & Hexpr' & Hk' & Hv' & Hp').
      assert (expr' = expr) as ->.
      { apply (NoDup_fmap_eq key (filter (λ e, positive e = true) (expressions c)));
          [ exact Hnd | | | congruence ];
          apply list_elem_of_filter; auto. }
      apply Exists_exists. exists v. split; [ | exact Hv' ].
      apply asg_values_elem. exists call.2.
      split; [ | exact Hv ].
      apply list_elem_of_filter in Hcall as [_ Hcall].
      rewrite Hkey. destruct call. exact Hcall.
    + apply (negatives_hold X a b doc c expr Hnoneg Ha Hb Hsz HX Hexpr Hp).
Qed.

Lemma filter_length_pos {A : Type} (P : A → Prop) `{∀ x, Decision (P x)}
    (l : list A) (x : A) :
  x ∈ l → P x → (1 <= length (filter P l))%nat.
Proof.
  intros Hin HP.
  assert (x ∈ filter P l) as Hf by (apply list_elem_of_filter; auto).
  destruct (filter P l); [ inversion Hf | simpl; lia ].
Qed.

(** Completeness: the id of a conjunction of the size [i] that holds is
    one the groups of that size agree on; and the assignment has at least
    [i] calls. *)
Lemma true_match_complete (a b : nat) (doc : Document Key) (c : Conjunction Key) :
  docs !! a = Some doc → conjunctions doc !! b = Some c →
  getConjunctionSize c = i → conjunction_holds s c →
  true_match (required i) (size_origs docs s i) (Z.of_nat a * 2 ^ 16 + Z.of_nat b) ∧
  (i <= length (asg_calls s))%nat.
Proof.
  intros Ha Hb Hsz Hholds.
  set (X := Z.of_nat a * 2 ^ 16 + Z.of_nat b).
  destruct (indexable_conjunction docs a b doc c Hix Ha Hb) as (Hin & _ & Hnd & _).
  unfold conjunction_holds in Hholds. rewrite Forall_forall in Hholds.
  assert (Forall (λ o, ¬ has_neg X o) (size_origs docs s i)) as Hnoneg.
  { apply Forall_forall. intros o Ho Hneg.
    apply (origs_inv docs s i index Hindex) in Ho as [(call & Hcall & ->) | (_ & ->)].
    - destruct (neg_call_decode docs i index Hix Hindex X call Hneg)
        as (v & a' & b' & doc' & c' & Hv & Ha' & Hb' & Hcs & HX').
      destruct (same_position docs a b a' b' doc doc' c c' Hix Ha Hb Ha' Hb' HX')
        as (_ & _ & _ & <-).
      destruct Hcs as (_ & expr & Hexpr & Hk & Hv' & Hp).
      pose proof (Hholds expr Hexpr) as Hh. unfold expression_holds in Hh.
      rewrite Hp in Hh. apply Hh.
      apply Exists_exists. exists v. split; [ | exact Hv' ].
      apply asg_values_elem. exists call.2. split; [ | exact Hv ].
      rewrite Hk. destruct call. exact Hcall.
    - apply Exists_exists in Hneg as (e & He & _ & Hn).
      apply build_z_elem in He as (a' & b' & doc' & c' & Ha' & Hb' & _ & ->).
      destruct (indexable_conjunction docs a' b' doc' c' Hix Ha' Hb') as (Hin' & _).
      rewrite Entry_new_isNegative in Hn by exact Hin'. discriminate. }
  destruct (Nat.eqb_spec i 0) as [Hi0 | Hi0].
  - split; [ | lia ]. split; [ | exact Hnoneg ].
    replace (required i) with 1%nat by (rewrite Hi0; reflexivity).
    assert (Entry.new (Z.of_nat a) (Z.of_nat b) true ∈ z_ (Indexer.build docs)) as Hz.
    { apply build_z_elem. exists a, b, doc, c. rewrite <- Hi0. auto. }
    apply (filter_length_pos _ _ (z_ (Indexer.build docs))).
    + unfold size_origs. eapply (origs_z docs s i index Hindex); [ exact Hi0 | exact Hz ].
    + eapply has_pos_intro; [ exact Hz | apply Entry_new_id; exact Hin | ].
      rewrite Entry_new_isNegative by exact Hin. reflexivity.
  - assert (required i = i) as Hreq by (unfold required; destruct (Nat.eqb_spec i 0); lia).
    assert (i <= length (hit_calls index s X))%nat as Hle.
    { rewrite <- Hsz, <- positive_keys_length, <- (length_fmap fst (hit_calls index s X)).
      apply submseteq_length. apply NoDup_submseteq; [ exact Hnd | ].
      intros k Hk. unfold positive_keys in Hk.
      apply list_elem_of_fmap in Hk as (expr & -> & Hexpr).
      apply list_elem_of_filter in Hexpr as [Hp Hexpr].
      pose proof (Hholds expr Hexpr) as Hh. unfold expression_holds in Hh.
      rewrite Hp in Hh. apply Exists_exists in Hh as (v & Hv & Hv').
      apply asg_values_elem in Hv as (vals & Hcall & Hv).
      apply list_elem_of_fmap. exists (key expr, vals). split; [ reflexivity | ].
      apply list_elem_of_filter. split; [ | exact Hcall ].
      pose proof (call_holds_entry docs i index Hindex a b doc c expr vals v
                    Ha Hb Hsz Hexpr Hv Hv') as He.
      rewrite Hp in He.
      eapply has_pos_intro; [ exact He | apply Entry_new_id; exact Hin | ].
      rewrite Entry_new_isNegative by exact Hin. reflexivity. }
    split; [ | pose proof (hit_calls_length X); lia ].
    split; [ | exact Hnoneg ].
    rewrite Hreq. unfold size_origs.
    rewrite (count_origs docs s i index Hix Hindex X). fold (hit_calls index s X). lia.
Qed.

End SizeMatching.

(** ** C1: what [retrieve] returns on a built index *)

Section RetrieveMatches.
Context {Key : Type} `{Countable Key} `{StdSort}.

Lemma shiftr_position (a b : Z) :
  in_bounds a b → Z.shiftr (a * 2 ^ 16 + b) 16 = a.
Proof.
  intros [Ha Hb]. rewrite Z.shiftr_div_pow2 by lia.
  apply div_known with (r := b); eval_pow2; lia.
Qed.

Lemma build_index_nonempty (docs : list (Document Key)) (a b : nat)
    (doc : Document Key) (c : Conjunction Key) :
  indexable docs → docs !! a = Some doc → conjunctions doc !! b = Some c →
  (0 < length (indexs_ (Indexer.build docs)))%nat.
Proof.
  intros Hix Ha Hb.
  assert (∀ a' b' doc' c', docs !! a' = Some doc' →
            conjunctions doc' !! b' = Some c' → expressions c' ≠ [] →
            (0 < length (indexs_ (Indexer.build docs)))%nat) as Hne.
  { intros a' b' doc' c' Ha' Hb' Hc'.
    pose proof (build_length docs a' b' doc' c' Ha' Hb' Hc'). lia. }
  destruct (decide (expressions c = [])) as [Hempty | Hfull];
    [ | eapply Hne; eassumption ].
  destruct Hix as (_ & _ & Hslip).
  assert (Exists (λ doc, Exists (λ c, expressions c = []) (conjunctions doc)) docs)
    as Hex.
  { apply Exists_exists. exists doc.
    split; [ eapply list_elem_of_lookup_2; exact Ha | ].
    apply Exists_exists. exists c.
    split; [ eapply list_elem_of_lookup_2; exact Hb | exact Hempty ]. }
  apply Hslip in Hex. apply Exists_exists in Hex as (doc' & Hdoc' & Hex).
  apply Exists_exists in Hex as (c' & Hc' & Hfull).
  apply list_elem_of_lookup in Hdoc' as (a' & Ha').
  apply list_elem_of_lookup in Hc' as (b' & Hb').
  eapply Hne; eassumption.
Qed.

(** The bound of the outer loop on such inputs, and what the loop adds. *)
Lemma retrieve_built_sizes (docs : list (Document Key)) (s : Assignment Key)
    (r : ResultSet) :
  indexable docs → well_formed_assignment s →
  ∃ r', Indexer.retrieve r s (Indexer.build docs) = Some r' ∧
        ∀ d, d ∈ r' ↔
             d ∈ r ∨ ∃ (i : nat) X,
                 (i < length (indexs_ (Indexer.build docs)))%nat ∧
                 Z.of_nat i <= asg_size s ∧
                 true_match (required i) (size_origs docs s i) X ∧
                 d = Z.shiftr X 16.
Proof.
  intros Hix Hs. pose proof Hs as (_ & Hsize).
  pose proof (build_length_int docs Hix) as Hlen.
  unfold Indexer.retrieve. rewrite (first_size_value docs s Hix Hs).
  set (len := length (indexs_ (Indexer.build docs))) in *.
  destruct (Z.ltb_spec (Z.min (Z.of_nat len - 1) (asg_size s)) 0) as [Hneg | Hpos].
  - exists r. split; [ reflexivity | ]. intros d. split; [ auto | ].
    intros [Hd | (i & X & Hi & _)]; [ exact Hd | lia ].
  - set (start := Z.min (Z.of_nat len - 1) (asg_size s)) in *.
    destruct (retrieve_sizes_correct (Indexer.build docs) s (S (Z.to_nat start)) r
                (λ i _, build_groups_good docs i s Hix)) as (r' & Hr' & Hchar).
    exists r'. split; [ exact Hr' | ]. intros d. rewrite Hchar.
    unfold size_origs. split.
    + intros [Hd | (i & X & Hi & HX & ->)]; [ auto | ]. right.
      exists i, X. split; [ lia | ]. split; [ lia | auto ].
    + intros [Hd | (i & X & Hi & Hi' & HX & ->)]; [ auto | ]. right.
      exists i, X. split; [ lia | auto ].
Qed.

(** Soundness: what the loop adds is the id of a document that matches. *)
Lemma found_document_matches (docs : list (Document Key)) (s : Assignment Key)
    (i : nat) (X : EntryId) :
  indexable docs → well_formed_assignment s →
  (i < length (indexs_ (Indexer.build docs)))%nat →
  true_match (required i) (size_origs docs s i) X →
  ∃ (a : nat) doc, docs !! a = Some doc ∧ Z.shiftr X 16 = Z.of_nat a ∧
                   document_matches s doc.
Proof.
  intros Hix Hs Hi HX.
  destruct (lookup_lt_is_Some_2 (indexs_ (Indexer.build docs)) i Hi) as [index Hindex].
  destruct (true_match_sound docs s i index Hix Hs Hindex X HX)
    as (a & b & doc & c & Ha & Hb & Hholds & ->).
  destruct (indexable_conjunction docs a b doc c Hix Ha Hb) as (Hin & _).
  exists a, doc. split; [ exact Ha | ].
  split; [ apply shiftr_position; exact Hin | ].
  apply Exists_exists. exists c.
  split; [ eapply list_elem_of_lookup_2; exact Hb | exact Hholds ].
Qed.

(** Completeness: a conjunction that holds is found at its size. *)
Lemma holding_conjunction_found (docs : list (Document Key)) (s : Assignment Key)
    (a b : nat) (doc : Document Key) (c : Conjunction Key) :
  indexable docs → well_formed_assignment s →
  docs !! a = Some doc → conjunctions doc !! b = Some c →
  conjunction_holds s c →
  ∃ (i : nat) X,
    (i < length (indexs_ (Indexer.build docs)))%nat ∧
    Z.of_nat i <= asg_size s ∧
    true_match (required i) (size_origs docs s i) X ∧
    Z.of_nat a = Z.shiftr X 16.
Proof.
  intros Hix Hs Ha Hb Hholds. pose proof Hs as (_ & Hsize).
  destruct (indexable_conjunction docs a b doc c Hix Ha Hb) as (Hin & _).
  pose proof (build_index_nonempty docs a b doc c Hix Ha Hb) as Hlen.
  assert (getConjunctionSize c < length (indexs_ (Indexer.build docs)))%nat as Hsz.
  { destruct (decide (expressions c = [])) as [Hempty | Hfull].
    - unfold getConjunctionSize. rewrite Hempty. simpl. exact Hlen.
    - apply (build_length docs a b doc c Ha Hb Hfull). }
  destruct (lookup_lt_is_Some_2 (indexs_ (Indexer.build docs))
              (getConjunctionSize c) Hsz) as [index Hindex].
  destruct (true_match_complete docs s (getConjunctionSize c) index Hix Hindex
              a b doc c Ha Hb eq_refl Hholds) as [HTM Hcalls].
  exists (getConjunctionSize c), (Z.of_nat a * 2 ^ 16 + Z.of_nat b).
  split; [ exact Hsz | ]. split; [ lia | ]. split; [ exact HTM | ].
  symmetry. apply shiftr_position. exact Hin.
Qed.

(** C1, amended: for fewer than [2^47] documents of at most [2^16]
    conjunctions each, whose conjunctions have positive predicates on
    different keys (fewer than [2^31] of them), and an assignment whose
    [trigger] calls the callback once per key and whose [size()] is not
    below the number of its keys, [retrieve] on the built index returns
    and adds to the result set exactly the ids of the documents that have
    a conjunction all of whose predicates hold.  The input whose
    conjunctions have no predicate at all is left out: a conjunction
    without predicates is only covered when some conjunction of the list
    has a predicate. *)
Theorem retrieve_matches (docs : list (Document Key)) (s : Assignment Key)
    (r : ResultSet) :
  indexable docs → well_formed_assignment s →
  ∃ r', Indexer.retrieve r s (Indexer.create docs) = Some r' ∧
        ∀ d, d ∈ r' ↔
             d ∈ r ∨ ∃ (a : nat) doc, docs !! a = Some doc ∧ d = Z.of_nat a ∧
                                      document_matches s doc.
Proof.
  intros Hix Hs. unfold Indexer.create.
  destruct (retrieve_built_sizes docs s r Hix Hs) as (r' & Hr' & Hchar).
  exists r'. split; [ exact Hr' | ]. intros d. rewrite Hchar. split.
  - intros [Hd | (i & X & Hi & _ & HX & ->)]; [ left; exact Hd | right ].
    destruct (found_document_matches docs s i X Hix Hs Hi HX)
      as (a & doc & Ha & Hd & Hm).
    exists a, doc. auto.
  - intros [Hd | (a & doc & Ha & -> & Hm)]; [ left; exact Hd | right ].
    apply Exists_exists in Hm as (c & Hc & Hholds).
    apply list_elem_of_lookup in Hc as (b & Hb).
    apply (holding_conjunction_found docs s a b doc c Hix Hs Ha Hb Hholds).
Qed.

(** The other path of C3: as soon as some conjunction of the list has a
    predicate, a document with a conjunction without predicates is added
    for every assignment. *)
Lemma retrieve_finds_empty_conjunction (docs : list (Document Key))
    (s : Assignment Key) (r : ResultSet) (a : nat) (doc : Document Key) :
  indexable docs → well_formed_assignment s →
  docs !! a = Some doc → mkConjunction [] ∈ conjunctions doc →
  ∃ r', Indexer.retrieve r s (Indexer.create docs) = Some r' ∧ Z.of_nat a ∈ r'.
Proof.
  intros Hix Hs Ha Hc. unfold Indexer.create.
  destruct (retrieve_built_sizes docs s r Hix Hs) as (r' & Hr' & Hchar).
  exists r'. split; [ exact Hr' | ]. apply Hchar. right.
  apply list_elem_of_lookup in Hc as (b & Hb).
  apply (holding_conjunction_found docs s a b doc _ Hix Hs Ha Hb).
  apply Forall_nil_2.
Qed.

End RetrieveMatches.

(** C1, as stated, fails: a conjunction with two positive predicates on the
    same key has size 2 but can only be met by the one group of that key.
    Document 0 holds under the assignment [a ∈ {1, 2}], and [retrieve]
    returns the empty set. *)
Lemma retrieve_misses_repeated_key :
  let doc := mkDocument [mkConjunction [mkExpression "a" (IntValues [1]) true;
                                        mkExpression "a" (IntValues [2]) true]] in
  let s := mkAssignment 1 [("a", IntValues [1; 2])] in
  document_matches s doc ∧
  Indexer.retrieve ∅ s (Indexer.create [doc]) = Some ∅ ∧
  ¬ (∃ r, Indexer.retrieve ∅ s (Indexer.create [doc]) = Some r ∧ 0 ∈ r).
Proof.
  intros doc s.
  assert (Indexer.retrieve ∅ s (Indexer.create [doc]) = Some ∅) as Hr
    by (vm_compute; reflexivity).
  split; [ | split; [ exact Hr | ] ].
  - apply (bool_decide_unpack _). vm_compute. exact I.
  - intros (r & Hr' & Hin). rewrite Hr in Hr'. injection Hr' as <-.
    apply not_elem_of_empty in Hin. exact Hin.
Qed.

Lemma retrieve_matches_witness :
  let docs := [mkDocument [mkConjunction [mkExpression "a" (IntValues [3]) true;
                                          mkExpression "b" (StringValues ["y"]) false]]] in
  let s := mkAssignment 2 [("a", IntValues [3]); ("b", StringValues ["x"; "z"])] in
  ∃ r', Indexer.retrieve ∅ s (Indexer.create docs) = Some r' ∧
        ∀ d, d ∈ r' ↔
             d ∈ (∅ : ResultSet)
             ∨ ∃ (a : nat) doc, docs !! a = Some doc ∧ d = Z.of_nat a ∧
                                document_matches s doc.
Proof.
  intros docs s. apply (retrieve_matches docs s ∅).
  - apply (bool_decide_unpack _). vm_compute. exact I.
  - apply (bool_decide_unpack _). vm_compute. exact I.
Defined.

(** ** Why the conditions of C1 are there *)

(** A second call of the callback for the same key counts as a second
    group: the conjunction [a ∈ {1} ∧ b ∈ {2}] is reported although the
    assignment binds no [b]. *)
Lemma retrieve_repeated_call_adds_unmatched :
  let doc := mkDocument [mkConjunction [mkExpression "a" (IntValues [1]) true;
                                        mkExpression "b" (IntValues [2]) true]] in
  let s := mkAssignment 2 [("a", IntValues [1]); ("a", IntValues [1])] in
  ¬ document_matches s doc ∧
  Indexer.retrieve ∅ s (Indexer.create [doc]) = Some {[ 0 ]}.
Proof.
  intros doc s. split.
  - apply (bool_decide_unpack _). vm_compute. exact I.
  - vm_compute. reflexivity.
Qed.

(** A [size()] below the number of keys hides the larger conjunctions. *)
Lemma retrieve_small_size_misses :
  let doc := mkDocument [mkConjunction [mkExpression "a" (IntValues [1]) true;
                                        mkExpression "b" (IntValues [2]) true]] in
  let s := mkAssignment 1 [("a", IntValues [1]); ("b", IntValues [2])] in
  document_matches s doc ∧
  Indexer.retrieve ∅ s (Indexer.create [doc]) = Some ∅.
Proof.
  intros doc s. split.
  - apply (bool_decide_unpack _). vm_compute. exact I.
  - vm_compute. reflexivity.
Qed.

(** The 65537th conjunction of the only document is filed as conjunction
    0 of a document 1, and that id is what [retrieve] returns. *)
Lemma retrieve_aliased_document :
  let doc := mkDocument
               (replicate (2 ^ 16) (mkConjunction [mkExpression "a" (IntValues []) true])
                ++ [mkConjunction [mkExpression "a" (IntValues [1]) true]]) in
  let s := mkAssignment 1 [("a", IntValues [1])] in
  Indexer.retrieve ∅ s (Indexer.create [doc]) = Some {[ 1 ]}.
Proof. vm_compute. reflexivity. Qed.

(** * Further properties of the code *)

(** ** Entry *)

Lemma Entry_fields_in_bounds (e : Entry) :
  is_u64 (value_ e) → in_bounds (Entry.documentId e) (Entry.conjunctionIndex e).
Proof.
  unfold is_u64, in_bounds, Entry.documentId, Entry.conjunctionIndex. intros Hv.
  rewrite !Z.shiftr_div_pow2 by lia.
  change 65535 with (Z.ones 16). rewrite Z.land_ones by lia.
  split; [ | apply Z.mod_pos_bound; lia ].
  split; [ apply Z.div_pos; lia | apply Z.div_lt_upper_bound; eval_pow2; lia ].
Qed.

Lemma Entry_id_fields (e : Entry) :
  Entry.id e = Entry.documentId e * 2 ^ 16 + Entry.conjunctionIndex e.
Proof.
  unfold Entry.id, Entry.documentId, Entry.conjunctionIndex.
  change 65535 with (Z.ones 16). rewrite Z.land_ones by lia.
  replace (Z.shiftr (value_ e) 17) with (Z.shiftr (Z.shiftr (value_ e) 1) 16)
    by (rewrite Z.shiftr_shiftr by lia; reflexivity).
  rewrite (Z.shiftr_div_pow2 _ 16) by lia.
  pose proof (Z.div_mod (Z.shiftr (value_ e) 1) (2 ^ 16) ltac:(lia)). lia.
Qed.

(** X1: decoding a 64-bit Entry with the accessors and building an Entry
    from what they return gives the Entry back; the fields read are inside
    the bounds, and [id] is the document id and the conjunction index side
    by side. *)
Theorem Entry_decode_encode (e : Entry) :
  is_u64 (value_ e) →
  in_bounds (Entry.documentId e) (Entry.conjunctionIndex e) ∧
  Entry.new (Entry.documentId e) (Entry.conjunctionIndex e)
            (negb (Entry.isNegative e)) = e ∧
  Entry.id e = Entry.documentId e * 2 ^ 16 + Entry.conjunctionIndex e.
Proof.
  intros Hv. pose proof (Entry_fields_in_bounds e Hv) as Hb.
  split; [ exact Hb | ]. split; [ | apply Entry_id_fields ].
  pose proof (Entry_new_value _ _ (negb (Entry.isNegative e)) Hb) as Hval.
  pose proof (Entry_value_decomp e) as Hd.
  pose proof (Entry_id_fields e) as Hi.
  assert (value_ (Entry.new (Entry.documentId e) (Entry.conjunctionIndex e)
                            (negb (Entry.isNegative e))) = value_ e) as Heq.
  { rewrite Hval, Hd, Hi.
    destruct (Entry.isNegative e); simpl; eval_pow2; lia. }
  destruct (Entry.new _ _ _) as [w], e as [v]. simpl in Heq. congruence.
Qed.

Lemma Entry_decode_encode_witness :
  in_bounds (Entry.documentId (mkEntry 987654321))
            (Entry.conjunctionIndex (mkEntry 987654321)) ∧
  Entry.new (Entry.documentId (mkEntry 987654321))
            (Entry.conjunctionIndex (mkEntry 987654321))
            (negb (Entry.isNegative (mkEntry 987654321))) = mkEntry 987654321 ∧
  Entry.id (mkEntry 987654321)
  = Entry.documentId (mkEntry 987654321) * 2 ^ 16
    + Entry.conjunctionIndex (mkEntry 987654321).
Proof.
  apply (Entry_decode_encode (mkEntry 987654321)).
  unfold is_u64. simpl. eval_pow2. lia.
Defined.

(** X2: inside the bounds two Entries are equal under [operator==] exactly
    when they were built from the same document id, conjunction index and
    polarity. *)
Theorem Entry_new_injective (d1 i1 : EntryId) (p1 : bool)
    (d2 i2 : EntryId) (p2 : bool) :
  in_bounds d1 i1 → in_bounds d2 i2 →
  (Entry.eqb (Entry.new d1 i1 p1) (Entry.new d2 i2 p2) = true
   ↔ d1 = d2 ∧ i1 = i2 ∧ p1 = p2).
Proof.
  intros H1 H2. unfold Entry.eqb. rewrite Z.eqb_eq.
  rewrite !Entry_new_value by assumption.
  destruct H1 as [Hd1 Hi1], H2 as [Hd2 Hi2]. eval_pow2. split.
  - intros Heq. destruct p1, p2; repeat split; lia.
  - intros (-> & -> & ->). reflexivity.
Qed.

Lemma Entry_new_injective_witness :
  Entry.eqb (Entry.new 4 9 true) (Entry.new 4 9 true) = true
  ↔ 4 = 4 ∧ 9 = 9 ∧ true = true.
Proof.
  apply (Entry_new_injective 4 9 true 4 9 true); unfold in_bounds; eval_pow2; lia.
Defined.

(** X3: [operator<] refines the order of the ids, for all Entries: a
    smaller Entry has no larger id, a smaller id makes the Entry smaller,
    and of two Entries with one id the smaller is the negative one. *)
Theorem Entry_lt_by_id (a b : Entry) :
  (Entry.ltb a b = true → Entry.id a <= Entry.id b) ∧
  (Entry.id a < Entry.id b → Entry.ltb a b = true) ∧
  (Entry.id a = Entry.id b →
   (Entry.ltb a b = true
    ↔ Entry.isNegative a = true ∧ Entry.isNegative b = false)).
Proof.
  unfold Entry.ltb.
  pose proof (Entry_value_decomp a) as Ha.
  pose proof (Entry_value_decomp b) as Hb.
  split; [ | split ].
  - rewrite Z.ltb_lt. intros Hlt.
    destruct (Entry.isNegative a), (Entry.isNegative b); lia.
  - intros Hlt. apply Z.ltb_lt.
    destruct (Entry.isNegative a), (Entry.isNegative b); lia.
  - intros Hid. rewrite Z.ltb_lt.
    destruct (Entry.isNegative a), (Entry.isNegative b);
      split; try lia; intros [? ?]; try discriminate; lia.
Qed.

(** X4: [operator<] of Entry is a strict total order that agrees with
    [operator==], and [operator<] of PostingListGroup is a strict weak
    order: irreflexive, transitive, and with a transitive equivalence of
    the groups neither of which is less than the other.  This is what
    [std::sort] asks of the comparison it is given. *)
Theorem operator_lt_strict_weak :
  (∀ a, Entry.ltb a a = false) ∧
  (∀ a b c, Entry.ltb a b = true → Entry.ltb b c = true → Entry.ltb a c = true) ∧
  (∀ a b, Entry.ltb a b = false → Entry.ltb b a = false → Entry.eqb a b = true) ∧
  (∀ g, PostingListGroup.ltb g g = false) ∧
  (∀ g1 g2 g3, PostingListGroup.ltb g1 g2 = true → PostingListGroup.ltb g2 g3 = true →
               PostingListGroup.ltb g1 g3 = true) ∧
  (∀ g1 g2 g3,
     PostingListGroup.ltb g1 g2 = false → PostingListGroup.ltb g2 g1 = false →
     PostingListGroup.ltb g2 g3 = false → PostingListGroup.ltb g3 g2 = false →
     PostingListGroup.ltb g1 g3 = false ∧ PostingListGroup.ltb g3 g1 = false).
Proof.
  unfold PostingListGroup.ltb, Entry.ltb, Entry.eqb.
  split; [ intros a; apply Z.ltb_irrefl | ].
  split; [ intros a b c; rewrite !Z.ltb_lt; lia | ].
  split; [ intros a b; rewrite !Z.ltb_ge, Z.eqb_eq; lia | ].
  split; [ intros g; apply Z.ltb_irrefl | ].
  split; [ intros g1 g2 g3; rewrite !Z.ltb_lt; lia | ].
  intros g1 g2 g3. rewrite !Z.ltb_ge. lia.
Qed.

(** ** PostingList *)

Lemma skip_loop_compose (t1 t2 : EntryId) (rest : list Entry) (pos : nat) :
  t1 <= t2 →
  PostingList.skipTo t2 (PostingList.skip_loop t1 pos rest)
  = PostingList.skip_loop t2 pos rest.
Proof.
  intros Hle. revert pos. induction rest as [| e rest IH]; intros pos; simpl.
  - reflexivity.
  - destruct (Z.ltb_spec (Entry.id e) t1) as [Hlt | Hge].
    + rewrite IH. destruct (Z.ltb_spec (Entry.id e) t2); [ reflexivity | lia ].
    + reflexivity.
Qed.

Lemma skipTo_compose (t1 t2 : EntryId) (p : PostingList) :
  t1 <= t2 →
  PostingList.skipTo t2 (PostingList.skipTo t1 p) = PostingList.skipTo t2 p.
Proof. intros Hle. apply skip_loop_compose. exact Hle. Qed.

Lemma skipTo_noop (target : EntryId) (p : PostingList) :
  (∀ e, PostingList.current p = Some e → target <= Entry.id e) →
  PostingList.skipTo target p = p.
Proof.
  destruct p as [pos [| e rest]]; unfold PostingList.skipTo; simpl;
    [ reflexivity | ].
  intros Hhead. specialize (Hhead e eq_refl).
  destruct (Z.ltb_spec (Entry.id e) target); [ lia | reflexivity ].
Qed.

Lemma skipTo_back (t1 t2 : EntryId) (p : PostingList) :
  t1 <= t2 →
  PostingList.skipTo t1 (PostingList.skipTo t2 p) = PostingList.skipTo t2 p.
Proof.
  intros Hle. apply skipTo_noop. intros e He.
  apply skip_loop_head in He. lia.
Qed.

(** X5: two moves of a posting list, in either order, are one move to the
    larger target, whatever the order of the entries; in particular
    [skipTo] is idempotent and a move to a smaller target afterwards does
    nothing. *)
Theorem PostingList_skipTo_compose (t1 t2 : EntryId) (p : PostingList) :
  PostingList.skipTo t1 (PostingList.skipTo t2 p)
  = PostingList.skipTo (Z.max t1 t2) p.
Proof.
  destruct (Z.le_ge_cases t2 t1) as [Hle | Hle].
  - rewrite Z.max_l by lia. apply skipTo_compose. exact Hle.
  - rewrite Z.max_r by lia. apply skipTo_back. exact Hle.
Qed.

(** X6: [skipTo] leaves a posting list as it is exactly when the list is
    exhausted or already stands on an entry whose id is not below the
    target; and it never moves the cursor past the end: the position of
    the cursor plus the number of entries ahead stays the same. *)
Theorem PostingList_skipTo_fixed (target : EntryId) (p : PostingList) :
  (PostingList.skipTo target p = p
   ↔ PostingList.empty p = true
     ∨ ∃ e, PostingList.current p = Some e ∧ target <= Entry.id e) ∧
  (pos_ (PostingList.skipTo target p)
   + length (rest_ (PostingList.skipTo target p))
   = pos_ p + length (rest_ p))%nat.
Proof.
  split.
  - destruct p as [pos [| e rest]]; unfold PostingList.skipTo; simpl.
    + split; [ auto | reflexivity ].
    + destruct (Z.ltb_spec (Entry.id e) target) as [Hlt | Hge].
      * split.
        -- intros Heq. apply (f_equal pos_) in Heq. simpl in Heq.
           destruct (skip_loop_spec target rest (S pos)) as (sk & _ & _ & Hpos).
           lia.
        -- intros [? | (x & [= <-] & ?)]; [ discriminate | lia ].
      * split; [ intros _; right; exists e; auto | reflexivity ].
  - unfold PostingList.skipTo.
    destruct (skip_loop_spec target (rest_ p) (pos_ p)) as (sk & Heq & _ & Hpos).
    rewrite Hpos. rewrite Heq at 2. rewrite length_app. lia.
Qed.

Lemma filter_all {A : Type} (P : A → Prop) `{∀ x, Decision (P x)} (l : list A) :
  Forall P l → filter P l = l.
Proof.
  induction 1 as [| x l Hx Hl IH]; [ reflexivity | ].
  rewrite filter_cons_True by exact Hx. rewrite IH. reflexivity.
Qed.

Lemma skip_loop_filter (target : EntryId) (rest : list Entry) (pos : nat) :
  StronglySorted Entry.le rest →
  rest_ (PostingList.skip_loop target pos rest)
  = filter (λ e, target <= Entry.id e) rest.
Proof.
  intros Hs. revert pos. induction Hs as [| e rest Hs IH Hall]; intros pos; simpl.
  - reflexivity.
  - destruct (Z.ltb_spec (Entry.id e) target) as [Hlt | Hge].
    + rewrite filter_cons_False by lia. apply IH.
    + rewrite filter_cons_True by lia. simpl. f_equal.
      symmetry. apply filter_all.
      eapply Forall_impl; [ exact Hall | ].
      intros x Hx. apply Entry_id_mono in Hx. lia.
Qed.

(** X7: over an ascending slice [skipTo] keeps exactly the entries whose
    id is not below the target, in their order; the list is exhausted
    afterwards exactly when every entry ahead had a smaller id. *)
Theorem PostingList_skipTo_sorted (target : EntryId) (p : PostingList) :
  StronglySorted Entry.le (rest_ p) →
  rest_ (PostingList.skipTo target p)
    = filter (λ e, target <= Entry.id e) (rest_ p) ∧
  (PostingList.empty (PostingList.skipTo target p) = true
   ↔ Forall (λ e, Entry.id e < target) (rest_ p)).
Proof.
  intros Hs.
  pose proof (skip_loop_filter target (rest_ p) (pos_ p) Hs) as Hf.
  split; [ exact Hf | ].
  unfold PostingList.empty, PostingList.skipTo. rewrite Hf.
  rewrite Forall_forall. split.
  - intros He x Hx. destruct (Z.lt_ge_cases (Entry.id x) target) as [? | Hge];
      [ assumption | ].
    assert (x ∈ filter (λ e, target <= Entry.id e) (rest_ p)) as Hin
      by (apply list_elem_of_filter; auto).
    destruct (filter _ (rest_ p)); [ inversion Hin | discriminate ].
  - intros Hall.
    destruct (filter _ (rest_ p)) as [| x l] eqn:Hfl; [ reflexivity | ].
    assert (x ∈ filter (λ e, target <= Entry.id e) (rest_ p)) as Hin
      by (rewrite Hfl; left).
    apply list_elem_of_filter in Hin as [Hge Hin]. specialize (Hall x Hin). lia.
Qed.

Lemma PostingList_skipTo_sorted_witness :
  let p := PostingList.new [Entry.new 0 0 true; Entry.new 1 0 false;
                            Entry.new 1 0 true; Entry.new 5 0 true] in
  rest_ (PostingList.skipTo 65536 p)
    = filter (λ e, 65536 <= Entry.id e) (rest_ p) ∧
  (PostingList.empty (PostingList.skipTo 65536 p) = true
   ↔ Forall (λ e, Entry.id e < 65536) (rest_ p)).
Proof.
  intros p. apply (PostingList_skipTo_sorted 65536 p).
  simpl. repeat (apply SSorted_cons; [ | repeat (apply Forall_cons_2; [ vm_compute; congruence | ]); apply Forall_nil_2 ]).
  apply SSorted_nil.
Defined.

(** ** PostingListGroup *)

Lemma add_fold_spec (ps : list PostingList) (g : PostingListGroup) :
  foldl (λ g p, PostingListGroup.add p g) g ps
  = mkGroup (min_over (current_ g) ps)
            (plists_ g ++ filter (λ p, PostingList.empty p = false) ps).
Proof.
  revert g. induction ps as [| p ps IH]; intros g; simpl.
  - rewrite app_nil_r. destruct g; reflexivity.
  - rewrite IH. unfold min_over, PostingListGroup.add, PostingList.empty,
      PostingList.current, Entry.min.
    destruct p as [pos [| e rest]]; simpl.
    + rewrite filter_cons_False by (simpl; congruence). reflexivity.
    + rewrite filter_cons_True by reflexivity.
      rewrite <- app_assoc. reflexivity.
Qed.

(** X8: a group built from the constructor by [add] holds the posting
    lists that were not exhausted, in the order they were added; an
    exhausted list is dropped; and [current()] is the least of the entries
    the lists stand on, or the sentinel when there is none. *)
Theorem PostingListGroup_add_all (ps : list PostingList) :
  let g := foldl (λ g p, PostingListGroup.add p g) PostingListGroup.new ps in
  plists_ g = filter (λ p, PostingList.empty p = false) ps ∧
  PostingListGroup.current g = min_over Entry.max ps ∧
  (∀ p e, p ∈ ps → PostingList.current p = Some e →
          Entry.le (PostingListGroup.current g) e) ∧
  (PostingListGroup.current g = Entry.max
   ∨ ∃ p, p ∈ ps ∧ PostingList.current p = Some (PostingListGroup.current g)).
Proof.
  intros g. subst g. rewrite add_fold_spec. simpl.
  split; [ reflexivity | ]. split; [ reflexivity | ].
  split; [ intros p e; apply min_over_lower | apply min_over_attained ].
Qed.

(** X9: for a group built by the constructor, [add] and [skipTo] over
    lists that do not hold the sentinel, [empty()] is true exactly when
    every member is exhausted. *)
Theorem PostingListGroup_empty_iff_exhausted (g : PostingListGroup) :
  reachable g →
  Forall (λ p, Forall (λ e, e ≠ Entry.max) (rest_ p)) (plists_ g) →
  (PostingListGroup.empty g = true ↔ exhausted (plists_ g)).
Proof.
  intros Hr Hnomax. pose proof (reachable_group_inv g Hr) as Hinv.
  split; [ | apply group_inv_exhausted; exact Hinv ].
  intros He. apply Entry_eqb_eq in He.
  destruct Hinv as (Hv & Hlow & _).
  apply Forall_forall. intros p Hp.
  destruct p as [pos [| e rest]]; [ reflexivity | exfalso ].
  rewrite Forall_forall in Hnomax, Hv.
  specialize (Hnomax _ Hp). specialize (Hv _ Hp). unfold valid_plist in Hv.
  simpl in Hnomax, Hv.
  apply Forall_inv in Hnomax. apply Forall_inv in Hv.
  apply Hnomax. apply Entry_le_antisym.
  - unfold Entry.le, is_u64, Entry.max in *. simpl. lia.
  - rewrite <- He. apply (Hlow _ e Hp). reflexivity.
Qed.

Lemma PostingListGroup_empty_iff_exhausted_witness :
  let g := PostingListGroup.skipTo 131072
             (PostingListGroup.add
                (PostingList.new [Entry.new 0 0 true; Entry.new 1 0 true])
                PostingListGroup.new) in
  PostingListGroup.empty g = true ↔ exhausted (plists_ g).
Proof.
  intros g. apply (PostingListGroup_empty_iff_exhausted g).
  - apply reachable_skipTo. apply reachable_add; [ | apply reachable_new ].
    solve_valid.
  - simpl. apply Forall_cons_2; [ apply Forall_nil_2 | apply Forall_nil_2 ].
Defined.

(** X10: [skipTo] on a group is idempotent: a second call with the same
    target changes neither the members nor [current()], for every group
    and every target. *)
Theorem PostingListGroup_skipTo_idempotent (target : EntryId)
    (g : PostingListGroup) :
  PostingListGroup.skipTo target (PostingListGroup.skipTo target g)
  = PostingListGroup.skipTo target g.
Proof.
  destruct (Entry.eqb (current_ g) Entry.max) eqn:He.
  - assert (PostingListGroup.skipTo target g = g) as ->
      by (unfold PostingListGroup.skipTo; rewrite He; reflexivity).
    unfold PostingListGroup.skipTo. rewrite He. reflexivity.
  - assert (PostingListGroup.skipTo target g
            = mkGroup (min_over Entry.max (PostingList.skipTo target <$> plists_ g))
                      (PostingList.skipTo target <$> plists_ g)) as ->
      by (unfold PostingListGroup.skipTo; rewrite He, skip_members_spec; reflexivity).
    clear He. unfold PostingListGroup.skipTo. simpl.
    destruct (Entry.eqb (min_over _ _) Entry.max); [ reflexivity | ].
    rewrite skip_members_spec.
    assert (PostingList.skipTo target <$> (PostingList.skipTo target <$> plists_ g)
            = PostingList.skipTo target <$> plists_ g) as ->; [ | reflexivity ].
    rewrite <- list_fmap_compose. apply list_fmap_ext.
    intros i p _. simpl. apply skipTo_compose. lia.
Qed.

(** X11: on a group over ascending posting lists without the sentinel,
    [skipTo] keeps exactly the entries whose id is not below the target;
    [current()] never moves backward, and afterwards the group is empty or
    stands on an entry whose id is not below the target. *)
Theorem PostingListGroup_skipTo_good (target : EntryId) (g : PostingListGroup) :
  good_group g →
  good_group (PostingListGroup.skipTo target g) ∧
  (∀ x, x ∈ group_entries (PostingListGroup.skipTo target g)
        ↔ x ∈ group_entries g ∧ target <= Entry.id x) ∧
  Entry.le (PostingListGroup.current g)
           (PostingListGroup.current (PostingListGroup.skipTo target g)) ∧
  (PostingListGroup.empty (PostingListGroup.skipTo target g) = true
   ∨ target <= Entry.id (PostingListGroup.current (PostingListGroup.skipTo target g))).
Proof.
  intros Hg. pose proof (good_group_skipTo target g Hg) as Hg'.
  pose proof (good_group_entries_skipTo target g) as Hent.
  split; [ exact Hg' | ]. split; [ intros x; apply Hent; exact Hg | ].
  destruct (PostingListGroup.empty (PostingListGroup.skipTo target g)) eqn:He.
  - split; [ | left; reflexivity ].
    apply Entry_eqb_eq in He. unfold PostingListGroup.current at 2. rewrite He.
    destruct Hg as (Hinv & _). apply group_inv_current_valid in Hinv.
    unfold Entry.le, is_u64, Entry.max in *. simpl. lia.
  - pose proof (good_group_current_in _ Hg' He) as Hin.
    apply Hent in Hin as [Hin Hle]; [ | exact Hg ].
    split; [ | right; exact Hle ].
    apply (good_group_entry_facts g _ Hg Hin).
Qed.

Lemma PostingListGroup_skipTo_good_witness :
  let g := PostingListGroup.add
             (PostingList.new [Entry.new 0 0 true; Entry.new 3 0 true])
             PostingListGroup.new in
  good_group (PostingListGroup.skipTo 65536 g) ∧
  (∀ x, x ∈ group_entries (PostingListGroup.skipTo 65536 g)
        ↔ x ∈ group_entries g ∧ 65536 <= Entry.id x) ∧
  Entry.le (PostingListGroup.current g)
           (PostingListGroup.current (PostingListGroup.skipTo 65536 g)) ∧
  (PostingListGroup.empty (PostingListGroup.skipTo 65536 g) = true
   ∨ 65536 <= Entry.id (PostingListGroup.current (PostingListGroup.skipTo 65536 g))).
Proof.
  intros g. apply (PostingListGroup_skipTo_good 65536 g).
  apply good_group_add; [ | apply good_group_new ].
  split; [ | split ].
  - apply SSorted_cons; [ apply SSorted_cons; [ apply SSorted_nil | apply Forall_nil_2 ] | ].
    apply Forall_cons_2; [ vm_compute; congruence | apply Forall_nil_2 ].
  - apply Forall_cons_2; [ vm_compute; split; congruence | ].
    apply Forall_cons_2; [ vm_compute; split; congruence | apply Forall_nil_2 ].
  - apply Forall_cons_2; [ vm_compute; congruence | ].
    apply Forall_cons_2; [ vm_compute; congruence | apply Forall_nil_2 ].
Defined.

(** X12: a move to a target that is not above the id the group stands on
    changes nothing, for every group built by the constructor, [add] and
    [skipTo]; so the turn of the inner loop that moves the first [k]
    groups to the id of group [k - 1] leaves group [k - 1] where it is. *)
Theorem PostingListGroup_skipTo_not_above (target : EntryId)
    (g : PostingListGroup) :
  reachable g → target <= Entry.id (PostingListGroup.current g) →
  PostingListGroup.skipTo target g = g.
Proof.
  intros Hr Hle. pose proof (reachable_group_inv g Hr) as Hinv.
  pose proof (group_inv_current_valid g Hinv) as Hvalid.
  destruct Hinv as (Hv & Hlow & Hatt).
  unfold PostingListGroup.skipTo.
  destruct (Entry.eqb (current_ g) Entry.max) eqn:He; [ reflexivity | ].
  rewrite skip_members_spec.
  assert (PostingList.skipTo target <$> plists_ g = plists_ g) as ->.
  { rewrite <- (list_fmap_id (plists_ g)) at 2. apply list_fmap_ext.
    intros i p Hp. apply list_elem_of_lookup_2 in Hp. simpl.
    apply skipTo_noop. intros e Hcur.
    pose proof (Entry_id_mono _ _ (Hlow p e Hp Hcur)) as Hid.
    unfold PostingListGroup.current in Hle. lia. }
  destruct g as [c ps]. simpl in *. f_equal.
  apply Entry_le_antisym.
  - destruct Hatt as [-> | (p & Hp & Hcur)].
    + unfold Entry.eqb in He. rewrite Z.eqb_refl in He. discriminate.
    + apply (min_over_lower ps Entry.max p c Hp Hcur).
  - destruct (min_over_attained ps Entry.max) as [Hmax | (p & Hp & Hcur)].
    + rewrite Hmax. unfold Entry.le, is_u64, Entry.max in *. simpl in *. lia.
    + apply (Hlow p _ Hp Hcur).
Qed.

Lemma PostingListGroup_skipTo_not_above_witness :
  let g := PostingListGroup.add
             (PostingList.new [Entry.new 1 0 true; Entry.new 3 0 true])
             (PostingListGroup.add (PostingList.new [Entry.new 2 0 false])
                PostingListGroup.new) in
  PostingListGroup.skipTo 65536 g = g.
Proof.
  intros g. apply (PostingListGroup_skipTo_not_above 65536 g).
  - apply reachable_add; [ solve_valid | ].
    apply reachable_add; [ solve_valid | apply reachable_new ].
  - vm_compute. congruence.
Defined.



(** ** InvertedIndexImpl and InvertedIndex *)

Lemma count_fmap_inj {A B : Type} `{EqDecision A} `{EqDecision B} (f : A → B)
    (l : list A) (x : A) :
  (∀ a b, f a = f b → a = b) →
  length (filter (λ w, w = f x) (f <$> l)) = length (filter (λ w, w = x) l).
Proof.
  intros Hinj. induction l as [| a l IH]; [ reflexivity | ].
  rewrite fmap_cons, !filter_cons.
  destruct (decide (f a = f x)) as [Heq | Hne]; destruct (decide (a = x)) as [Heq' | Hne'];
    simpl; rewrite IH; try reflexivity.
  - apply Hinj in Heq. contradiction.
  - subst a. contradiction.
Qed.

Lemma count_fmap_other {A B : Type} `{EqDecision B} (f : A → B) (l : list A) (y : B) :
  (∀ a, f a ≠ y) → filter (λ w, w = y) (f <$> l) = [].
Proof.
  intros Hne. induction l as [| a l IH]; [ reflexivity | ].
  rewrite fmap_cons, filter_cons_False by apply Hne. exact IH.
Qed.

Section IndexFacts.
Context {Key : Type} `{Countable Key}.

Lemma push_values_postings {T : Type} `{Countable T} (entry : Entry) (vals : list T)
    (t : gmap T (list Entry)) (v : T) :
  default [] (InvertedIndexImpl.push_values entry vals t !! v)
  = default [] (t !! v) ++ replicate (length (filter (λ w, w = v) vals)) entry.
Proof.
  unfold InvertedIndexImpl.push_values. revert t.
  induction vals as [| v0 vals IH]; intros t; simpl.
  - rewrite app_nil_r. reflexivity.
  - rewrite IH, filter_cons. destruct (decide (v0 = v)) as [-> | Hne].
    + rewrite lookup_insert_eq. simpl. rewrite <- app_assoc. reflexivity.
    + rewrite lookup_insert_ne by congruence. reflexivity.
Qed.

Lemma impl_addEntry_postings {T : Type} `{Countable T} (entry : Entry) (k : Key)
    (vals : list T) (m : InvertedIndexImpl Key T) (k' : Key) (v : T) :
  impl_postings (InvertedIndexImpl.addEntry entry k vals m) k' v
  = impl_postings m k' v
    ++ (if decide (k' = k)
        then replicate (length (filter (λ w, w = v) vals)) entry else []).
Proof.
  unfold impl_postings, InvertedIndexImpl.addEntry.
  destruct (decide (k' = k)) as [-> | Hne].
  - rewrite lookup_insert_eq, push_values_postings.
    destruct (m !! k) as [t |]; simpl; [ reflexivity | ].
    rewrite lookup_empty. reflexivity.
  - rewrite lookup_insert_ne by congruence. rewrite app_nil_r. reflexivity.
Qed.

(** X14: [addEntry] appends the entry to the posting list of every value
    of the range under the key, once for every time the value occurs in
    the range, and leaves every other posting list as it is; values of
    the other type are never touched, so an integer and a string never
    share a posting list. *)
Theorem InvertedIndex_addEntry_postings (entry : Entry) (k : Key) (vals : Values)
    (index : InvertedIndex Key) (k' : Key) (v : Value) :
  index_postings (InvertedIndex.addEntry entry k vals index) k' v
  = index_postings index k' v
    ++ (if decide (k' = k)
        then replicate (length (filter (λ w, w = v) (value_list vals))) entry
        else []).
Proof.
  destruct vals as [l | l], v as [z | s]; simpl.
  - rewrite (count_fmap_other StringValue l (IntValue z)) by discriminate.
    simpl. destruct (decide (k' = k)); rewrite app_nil_r; reflexivity.
  - rewrite impl_addEntry_postings.
    rewrite (count_fmap_inj StringValue l s) by congruence. reflexivity.
  - rewrite impl_addEntry_postings.
    rewrite (count_fmap_inj IntValue l z) by congruence. reflexivity.
  - rewrite (count_fmap_other IntValue l (StringValue s)) by discriminate.
    simpl. destruct (decide (k' = k)); rewrite app_nil_r; reflexivity.
Qed.

Lemma empty_lists_ignored {V : Type} (post : V → list Entry) (l : list V) :
  (∀ v, v ∈ l → post v = []) →
  ∀ m, min_over m ((λ v, PostingList.new (post v)) <$> l) = m
       ∧ filter (λ p, PostingList.empty p = false)
           ((λ v, PostingList.new (post v)) <$> l) = [].
Proof.
  induction l as [| v l IH]; intros Hnone m; [ split; reflexivity | ].
  rewrite fmap_cons. unfold min_over. simpl.
  rewrite (Hnone v) by left. simpl.
  rewrite filter_cons_False by (cbv; congruence).
  apply IH. intros w Hw. apply Hnone. right. exact Hw.
Qed.

(** X15: [trigger] adds to the group, in the order of the values, the
    posting lists stored under the key for the values of the range, and
    skips the values that have none; [current()] becomes the least of the
    old one and the first entries of those lists.  When the key is not in
    the index, or none of the values is, the group is left as it is. *)
Theorem InvertedIndex_trigger_group (g : PostingListGroup) (k : Key)
    (vals : Values) (index : InvertedIndex Key) :
  let lists := (λ v, PostingList.new (index_postings index k v))
                 <$> value_list vals in
  plists_ (InvertedIndex.trigger g k vals index)
    = plists_ g ++ filter (λ p, PostingList.empty p = false) lists ∧
  PostingListGroup.current (InvertedIndex.trigger g k vals index)
    = min_over (PostingListGroup.current g) lists ∧
  ((∀ v, v ∈ value_list vals → index_postings index k v = []) →
   InvertedIndex.trigger g k vals index = g).
Proof.
  intros lists.
  assert (InvertedIndex.trigger g k vals index
          = mkGroup (min_over (current_ g) lists)
              (plists_ g ++ filter (λ p, PostingList.empty p = false) lists)) as Heq.
  { rewrite index_trigger_fold. subst lists.
    rewrite <- add_fold_spec, foldl_fmap. reflexivity. }
  rewrite Heq. split; [ reflexivity | ]. split; [ reflexivity | ].
  intros Hnone. subst lists.
  destruct (empty_lists_ignored (index_postings index k) (value_list vals) Hnone
              (current_ g)) as [-> ->].
  rewrite app_nil_r. destruct g; reflexivity.
Qed.

Lemma Entry_le_antisymm : AntiSymm (=) Entry.le.
Proof. intros a b. apply Entry_le_antisym. Qed.

Lemma sort_entries_unique (l l' : list Entry) :
  l' ≡ₚ l → StronglySorted Entry.le l' → l' = sort_entries l.
Proof.
  intros Hp Hs. apply (@StronglySorted_unique _ Entry.le Entry_le_antisymm); [ exact Hs | | ].
  - apply sort_entries_sorted.
  - rewrite Hp. unfold sort_entries. symmetry. apply merge_sort_Permutation.
Qed.

Lemma sort_entries_idemp (l : list Entry) :
  sort_entries (sort_entries l) = sort_entries l.
Proof.
  symmetry. apply sort_entries_unique; [ reflexivity | apply sort_entries_sorted ].
Qed.

Lemma impl_build_idemp {T : Type} `{Countable T} (m : InvertedIndexImpl Key T) :
  InvertedIndexImpl.build (InvertedIndexImpl.build m) = InvertedIndexImpl.build m.
Proof.
  unfold InvertedIndexImpl.build. rewrite <- map_fmap_compose.
  apply map_fmap_ext. intros k t _. simpl.
  rewrite <- map_fmap_compose. apply map_fmap_ext. intros v l _. simpl.
  apply sort_entries_idemp.
Qed.

Lemma index_build_postings (index : InvertedIndex Key) (k : Key) (v : Value) :
  index_postings (InvertedIndex.build index) k v
  = sort_entries (index_postings index k v).
Proof. destruct v; simpl; apply impl_build_postings. Qed.

(** X16: [build] leaves under every key and value the entries that were
    there, in ascending order; the arrangement is the only ascending one,
    so it does not depend on the sorting algorithm, and a second [build]
    changes nothing. *)
Theorem InvertedIndex_build_sorts (index : InvertedIndex Key) (k : Key) (v : Value) :
  index_postings (InvertedIndex.build index) k v ≡ₚ index_postings index k v ∧
  StronglySorted Entry.le (index_postings (InvertedIndex.build index) k v) ∧
  (∀ l, l ≡ₚ index_postings index k v → StronglySorted Entry.le l →
        l = index_postings (InvertedIndex.build index) k v) ∧
  InvertedIndex.build (InvertedIndex.build index) = InvertedIndex.build index.
Proof.
  rewrite index_build_postings.
  split; [ apply merge_sort_Permutation | ].
  split; [ apply sort_entries_sorted | ].
  split; [ intros l; apply sort_entries_unique | ].
  unfold InvertedIndex.build. simpl. rewrite !impl_build_idemp. reflexivity.
Qed.

End IndexFacts.

(** ** Indexer::build *)

Lemma max_list_with_app {A : Type} (f : A → nat) (l1 l2 : list A) :
  max_list_with f (l1 ++ l2) = Nat.max (max_list_with f l1) (max_list_with f l2).
Proof. induction l1 as [| x l1 IH]; simpl; [ reflexivity | rewrite IH; lia ]. Qed.

Lemma Entry_new_positive (d i : EntryId) :
  Entry.isNegative (Entry.new d i true) = false.
Proof.
  unfold Entry.isNegative, Entry.new. cbn [value_].
  rewrite Z.lor_spec. change (Z.testbit 1 0) with true.
  rewrite orb_true_r. reflexivity.
Qed.

Section BuildShape.
Context {Key : Type} `{Countable Key}.

Lemma add_conjunctions_slots (i : Z) (cs : list (Conjunction Key)) (j : Z)
    (ix : Indexer Key) :
  length (indexs_ (Indexer.add_conjunctions i j ix cs))
  = Nat.max (length (indexs_ ix)) (max_list_with index_slots cs).
Proof.
  revert j ix. induction cs as [| c cs IH]; intros j ix; simpl; [ lia | ].
  rewrite IH, add_conjunction_length. unfold index_slots.
  destruct (expressions c); lia.
Qed.

Lemma add_documents_slots (docs : list (Document Key)) (i : Z) (ix : Indexer Key) :
  length (indexs_ (Indexer.add_documents i ix docs))
  = Nat.max (length (indexs_ ix)) (max_list_with index_slots (all_conjunctions docs)).
Proof.
  revert i ix. induction docs as [| d docs IH]; intros i ix; simpl; [ lia | ].
  rewrite IH, add_documents_step, add_conjunctions_slots.
  assert (all_conjunctions (d :: docs) = conjunctions d ++ all_conjunctions docs)
    as -> by reflexivity.
  rewrite max_list_with_app. lia.
Qed.

Lemma add_conjunctions_z_length (i : Z) (cs : list (Conjunction Key)) (j : Z)
    (ix : Indexer Key) :
  length (z_ (Indexer.add_conjunctions i j ix cs))
  = (length (z_ ix)
     + length (filter (λ c, getConjunctionSize c = 0%nat) cs))%nat.
Proof.
  revert j ix. induction cs as [| c cs IH]; intros j ix; simpl; [ lia | ].
  rewrite IH, add_conjunction_z, length_app, filter_cons.
  destruct (Nat.eqb_spec (getConjunctionSize c) 0) as [Hz | Hz].
  - rewrite decide_True by exact Hz. simpl. lia.
  - rewrite decide_False by exact Hz. simpl. lia.
Qed.

Lemma add_documents_z_length (docs : list (Document Key)) (i : Z) (ix : Indexer Key) :
  length (z_ (Indexer.add_documents i ix docs))
  = (length (z_ ix)
     + length (filter (λ c, getConjunctionSize c = 0%nat) (all_conjunctions docs)))%nat.
Proof.
  revert i ix. induction docs as [| d docs IH]; intros i ix; simpl; [ lia | ].
  rewrite IH, add_documents_step, add_conjunctions_z_length.
  assert (all_conjunctions (d :: docs) = conjunctions d ++ all_conjunctions docs)
    as -> by reflexivity.
  rewrite filter_app, length_app. lia.
Qed.

Lemma build_indexs_length (docs : list (Document Key)) :
  length (indexs_ (Indexer.build docs))
  = max_list_with index_slots (all_conjunctions docs).
Proof.
  unfold Indexer.build. simpl. rewrite length_fmap, add_documents_slots.
  simpl. reflexivity.
Qed.

Lemma build_z_length (docs : list (Document Key)) :
  length (z_ (Indexer.build docs))
  = length (filter (λ c, getConjunctionSize c = 0%nat) (all_conjunctions docs)).
Proof.
  unfold Indexer.build, sort_entries. simpl.
  rewrite (Permutation_length (merge_sort_Permutation _ _)).
  rewrite add_documents_z_length. reflexivity.
Qed.

(** X17: [build] makes one index per size up to the largest size of a
    conjunction that has a predicate, and none when no conjunction has a
    predicate; [z_] gets one entry for every conjunction without positive
    predicate. *)
Theorem build_shape (docs : list (Document Key)) :
  length (indexs_ (Indexer.build docs))
    = max_list_with index_slots (all_conjunctions docs) ∧
  length (z_ (Indexer.build docs))
    = length (filter (λ c, getConjunctionSize c = 0%nat) (all_conjunctions docs)).
Proof. split; [ apply build_indexs_length | apply build_z_length ]. Qed.

(** X18: in a built index every posting list and [z_] are ascending and
    hold 64-bit words, for every list of documents, and every entry of
    [z_] is a positive one. *)
Theorem build_sorted (docs : list (Document Key)) (n : nat) (k : Key) (v : Value) :
  StronglySorted Entry.le (postings_at (indexs_ (Indexer.build docs)) n k v) ∧
  Forall (λ e, is_u64 (value_ e)) (postings_at (indexs_ (Indexer.build docs)) n k v) ∧
  StronglySorted Entry.le (z_ (Indexer.build docs)) ∧
  Forall (λ e, is_u64 (value_ e) ∧ Entry.isNegative e = false)
         (z_ (Indexer.build docs)).
Proof.
  split; [ apply build_postings_sorted | ].
  split; [ apply build_postings_u64 | ].
  split; [ apply build_z_sorted | ].
  apply Forall_forall. intros x Hx.
  apply build_z_elem in Hx as (a & b & doc & c & _ & _ & _ & ->).
  split; [ apply Entry_new_u64; lia | apply Entry_new_positive ].
Qed.

Lemma add_documents_app (l1 l2 : list (Document Key)) (i : Z) (ix : Indexer Key) :
  Indexer.add_documents i ix (l1 ++ l2)
  = Indexer.add_documents (i + Z.of_nat (length l1))
      (Indexer.add_documents i ix l1) l2.
Proof.
  revert i ix. induction l1 as [| d l1 IH]; intros i ix; simpl.
  - rewrite Z.add_0_r. reflexivity.
  - rewrite IH. f_equal. lia.
Qed.

Lemma add_documents_no_conjunctions (docs : list (Document Key)) (i : Z)
    (ix : Indexer Key) :
  Forall (λ doc, conjunctions doc = []) docs →
  Indexer.add_documents i ix docs = ix.
Proof.
  intros Hall. revert i. induction Hall as [| d docs Hd Hall IH]; intros i; simpl.
  - reflexivity.
  - rewrite Hd. apply IH.
Qed.

(** X19: documents without conjunctions at the end of the list leave no
    trace in the index; in particular the index of an empty list, or of
    documents none of which has a conjunction, is the empty index. *)
Theorem build_trailing_empty_documents (docs tail : list (Document Key)) :
  Forall (λ doc, conjunctions doc = []) tail →
  Indexer.build (docs ++ tail) = Indexer.build docs ∧
  Indexer.build tail = mkIndexer [] [].
Proof.
  intros Hall. unfold Indexer.build. split.
  - rewrite add_documents_app, add_documents_no_conjunctions by exact Hall.
    reflexivity.
  - rewrite add_documents_no_conjunctions by exact Hall. reflexivity.
Qed.

End BuildShape.

Lemma build_trailing_empty_documents_witness :
  let docs := [mkDocument [mkConjunction [mkExpression 1 (IntValues [3]) true]]] in
  let tail := [mkDocument (@nil (Conjunction Z)); mkDocument []] in
  Indexer.build (docs ++ tail) = Indexer.build docs ∧
  Indexer.build tail = mkIndexer [] [].
Proof.
  intros docs tail. apply (build_trailing_empty_documents docs tail).
  repeat (apply Forall_cons_2; [ reflexivity | ]). apply Forall_nil_2.
Defined.

Section NoPredicate.
Context {Key : Type} `{Countable Key} `{StdSort}.

(** X20: when no conjunction of the documents has a predicate, [build]
    files every conjunction in [z_] and makes no index, and [retrieve]
    then adds nothing, for every assignment. *)
Theorem retrieve_nothing_without_predicates (docs : list (Document Key))
    (s : Assignment Key) (r : ResultSet) :
  Forall (λ c, expressions c = []) (all_conjunctions docs) →
  indexs_ (Indexer.create docs) = [] ∧
  length (z_ (Indexer.create docs)) = length (all_conjunctions docs) ∧
  Indexer.retrieve r s (Indexer.create docs) = Some r.
Proof.
  intros Hall. unfold Indexer.create.
  assert (indexs_ (Indexer.build docs) = []) as Hnil.
  { apply length_zero_iff_nil. rewrite build_indexs_length.
    induction Hall as [| c cs Hc Hall IH]; simpl; [ reflexivity | ].
    rewrite IH. unfold index_slots. rewrite Hc. reflexivity. }
  split; [ exact Hnil | ]. split; [ | apply retrieve_no_index; exact Hnil ].
  rewrite build_z_length. f_equal.
  induction Hall as [| c cs Hc Hall IH]; [ reflexivity | ].
  rewrite filter_cons_True, IH; [ reflexivity | ].
  unfold getConjunctionSize. rewrite Hc. reflexivity.
Qed.

End NoPredicate.

Lemma retrieve_nothing_without_predicates_witness :
  let docs := [mkDocument [mkConjunction (@nil (Expression string)); mkConjunction []];
               mkDocument [mkConjunction []]] in
  let s := mkAssignment 1 [("a", IntValues [1])] in
  indexs_ (Indexer.create docs) = [] ∧
  length (z_ (Indexer.create docs)) = length (all_conjunctions docs) ∧
  Indexer.retrieve ∅ s (Indexer.create docs) = Some ∅.
Proof.
  intros docs s. apply (retrieve_nothing_without_predicates docs s ∅).
  unfold all_conjunctions. simpl.
  repeat (apply Forall_cons_2; [ reflexivity | ]). apply Forall_nil_2.
Defined.

(** ** Indexer::getPostingLists *)

Section PostingLists.
Context {Key : Type} `{Countable Key}.


End PostingLists.


(** ** Indexer::retrieve *)

Section RetrieveMore.
Context {Key : Type} `{Countable Key} `{StdSort}.

Lemma retrieve_as_sizes (ix : Indexer Key) (s : Assignment Key) (r : ResultSet) :
  Indexer.retrieve r s ix = Indexer.retrieve_sizes ix s (retrieve_count ix s) r.
Proof.
  unfold Indexer.retrieve, retrieve_count.
  destruct (Indexer.first_size ix s <? 0); reflexivity.
Qed.

(** X22: when [size()], converted to [int], is negative, as for a
    [size_t] of [2^31] and more, [retrieve] does not enter its loop and
    leaves the result set as it is, whatever the index holds. *)
Theorem retrieve_negative_size (ix : Indexer Key) (s : Assignment Key)
    (r : ResultSet) :
  2 ^ 31 <= asg_size s mod 2 ^ 32 →
  to_int (asg_size s) < 0 ∧ Indexer.retrieve r s ix = Some r.
Proof.
  intros Hsize.
  assert (to_int (asg_size s) < 0) as Hneg.
  { unfold to_int.
    pose proof (Z.mod_pos_bound (asg_size s) (2 ^ 32) ltac:(lia)) as Hb.
    replace (asg_size s + 2 ^ 31)
      with (asg_size s - 2 ^ 31 + 1 * 2 ^ 32) by (eval_pow2; lia).
    rewrite Z.mod_add by (eval_pow2; lia).
    rewrite <- Zminus_mod_idemp_l.
    rewrite (Z.mod_small (asg_size s mod 2 ^ 32 - 2 ^ 31)) by (eval_pow2; lia).
    eval_pow2. lia. }
  split; [ exact Hneg | ].
  unfold Indexer.retrieve, Indexer.first_size.
  destruct (Z.ltb_spec (Z.min (to_int (u64 (Z.of_nat (length (indexs_ ix)) - 1)))
                              (to_int (asg_size s))) 0); [ reflexivity | lia ].
Qed.

(** X23: [retrieve] only adds to the result set, and what it adds does
    not depend on what the set held: the call returns the union of the
    set it was given and of what it returns on the empty set. *)
Theorem retrieve_accumulates (ix : Indexer Key) (s : Assignment Key)
    (r r' : ResultSet) :
  Indexer.retrieve r s ix = Some r' →
  ∃ added, Indexer.retrieve ∅ s ix = Some added ∧ r' = added ∪ r ∧ r ⊆ r'.
Proof.
  rewrite retrieve_result.
  destruct (Indexer.retrieve ∅ s ix) as [added |]; [ | discriminate ].
  simpl. intros [= <-]. exists added.
  split; [ reflexivity | ]. split; [ reflexivity | ].
  apply union_subseteq_r.
Qed.

Lemma getPostingLists_calls (ix : Indexer Key) (i : nat) (s1 s2 : Assignment Key) :
  asg_calls s1 = asg_calls s2 →
  Indexer.getPostingLists ix i s1 = Indexer.getPostingLists ix i s2.
Proof. intros Hc. unfold Indexer.getPostingLists. rewrite Hc. reflexivity. Qed.

Lemma retrieve_sizes_calls (ix : Indexer Key) (s1 s2 : Assignment Key)
    (count : nat) (r : ResultSet) :
  asg_calls s1 = asg_calls s2 →
  Indexer.retrieve_sizes ix s1 count r = Indexer.retrieve_sizes ix s2 count r.
Proof.
  intros Hc. revert r. induction count as [| i IH]; intros r; simpl; [ reflexivity | ].
  unfold Indexer.retrieve_size. rewrite (getPostingLists_calls ix i s1 s2 Hc).
  destruct (_ <? _)%nat; [ apply IH | ].
  destruct (Indexer.merge_loop _ _ _ _); [ apply IH | reflexivity ].
Qed.

Lemma retrieve_sizes_more (ix : Indexer Key) (s : Assignment Key)
    (c1 c2 : nat) (r1 r2 : ResultSet) :
  (c1 <= c2)%nat →
  Indexer.retrieve_sizes ix s c1 ∅ = Some r1 →
  Indexer.retrieve_sizes ix s c2 ∅ = Some r2 →
  r1 ⊆ r2.
Proof.
  intros Hle H1. revert r2. induction Hle as [| c Hle IH]; intros r2 H2.
  - rewrite H1 in H2. injection H2 as <-. reflexivity.
  - simpl in H2.
    destruct (Indexer.retrieve_size ix s c ∅) as [rm |]; [ | discriminate ].
    rewrite retrieve_sizes_result in H2.
    destruct (Indexer.retrieve_sizes ix s c ∅) as [r' |]; [ | discriminate ].
    simpl in H2. injection H2 as <-.
    etransitivity; [ apply IH; reflexivity | apply union_subseteq_l ].
Qed.

Lemma retrieve_count_mono (ix : Indexer Key) (s1 s2 : Assignment Key) :
  to_int (asg_size s1) <= to_int (asg_size s2) →
  (retrieve_count ix s1 <= retrieve_count ix s2)%nat.
Proof.
  intros Hle. unfold retrieve_count, Indexer.first_size.
  set (a := to_int (u64 (Z.of_nat (length (indexs_ ix)) - 1))).
  destruct (Z.ltb_spec (Z.min a (to_int (asg_size s1))) 0);
    destruct (Z.ltb_spec (Z.min a (to_int (asg_size s2))) 0); lia.
Qed.

(** X24: on a built index a larger [size()] never loses a document: with
    the same calls of [trigger], what [retrieve] returns for the smaller
    [size()] is part of what it returns for the larger one; and the two
    results are the same once the smaller [size()] is no less than
    [indexs_.size() - 1]. *)
Theorem retrieve_size_monotone (docs : list (Document Key))
    (calls : list (Key * Values)) (n1 n2 : Z) :
  to_int n1 <= to_int n2 →
  ∃ r1 r2,
    Indexer.retrieve ∅ (mkAssignment n1 calls) (Indexer.create docs) = Some r1 ∧
    Indexer.retrieve ∅ (mkAssignment n2 calls) (Indexer.create docs) = Some r2 ∧
    r1 ⊆ r2 ∧
    (to_int (u64 (Z.of_nat (length (indexs_ (Indexer.create docs))) - 1))
       <= to_int n1 → r1 = r2).
Proof.
  intros Hle. unfold Indexer.create.
  destruct (build_retrieve_total docs (mkAssignment n1 calls) ∅) as [r1 Hr1].
  destruct (build_retrieve_total docs (mkAssignment n2 calls) ∅) as [r2 Hr2].
  exists r1, r2. split; [ exact Hr1 | ]. split; [ exact Hr2 | ].
  rewrite retrieve_as_sizes in Hr1, Hr2.
  rewrite (retrieve_sizes_calls _ (mkAssignment n1 calls) (mkAssignment n2 calls))
    in Hr1 by reflexivity.
  split.
  - eapply retrieve_sizes_more; [ | exact Hr1 | exact Hr2 ].
    apply retrieve_count_mono. exact Hle.
  - intros Hbig.
    assert (retrieve_count (Indexer.build docs) (mkAssignment n1 calls)
            = retrieve_count (Indexer.build docs) (mkAssignment n2 calls)) as Hc.
    { unfold retrieve_count, Indexer.first_size. cbn [asg_size].
      rewrite !Z.min_l by lia. reflexivity. }
    rewrite Hc in Hr1. congruence.
Qed.

End RetrieveMore.

Lemma retrieve_negative_size_witness :
  let s := mkAssignment (2 ^ 64 - 1) [("a", IntValues [3])] in
  to_int (asg_size s) < 0 ∧
  Indexer.retrieve ∅ s (Indexer.create Example.docs) = Some ∅.
Proof.
  intros s. apply (retrieve_negative_size (Indexer.create Example.docs) s ∅).
  vm_compute. congruence.
Defined.

Lemma retrieve_accumulates_witness :
  let s := mkAssignment 1 [("a", IntValues [3])] in
  ∃ added,
    Indexer.retrieve ∅ s (Indexer.create Example.docs) = Some added ∧
    ({[ 0 ]} ∪ {[ 7 ]} : ResultSet) = added ∪ {[ 7 ]} ∧
    ({[ 7 ]} : ResultSet) ⊆ {[ 0 ]} ∪ {[ 7 ]}.
Proof.
  intros s.
  apply (retrieve_accumulates (Indexer.create Example.docs) s {[ 7 ]}
           ({[ 0 ]} ∪ {[ 7 ]})).
  vm_compute. reflexivity.
Defined.

Lemma retrieve_size_monotone_witness :
  let docs := [mkDocument [mkConjunction [mkExpression "a" (IntValues [1]) true;
                                          mkExpression "b" (IntValues [2]) true];
                           mkConjunction [mkExpression "a" (IntValues [9]) true]];
               mkDocument [mkConjunction [mkExpression "a" (IntValues [1]) true]]] in
  let calls := [("a", IntValues [1]); ("b", IntValues [2])] in
  ∃ r1 r2,
    Indexer.retrieve ∅ (mkAssignment 1 calls) (Indexer.create docs) = Some r1 ∧
    Indexer.retrieve ∅ (mkAssignment 2 calls) (Indexer.create docs) = Some r2 ∧
    r1 ⊆ r2 ∧
    (to_int (u64 (Z.of_nat (length (indexs_ (Indexer.create docs))) - 1))
       <= to_int 1 → r1 = r2).
Proof.
  intros docs calls. apply (retrieve_size_monotone docs calls 1 2).
  vm_compute. congruence.
Defined.

Section AnyAssignment.
Context {Key : Type} `{Countable Key}.

Lemma retrieve_count_le (docs : list (Document Key)) (s : Assignment Key) :
  indexable docs →
  (retrieve_count (Indexer.build docs) s <= length (indexs_ (Indexer.build docs)))%nat.
Proof.
  intros Hix. pose proof (build_length_int docs Hix) as Hlen.
  unfold retrieve_count, Indexer.first_size.
  set (len := length (indexs_ (Indexer.build docs))) in *.
  assert (to_int (u64 (Z.of_nat len - 1)) = Z.of_nat len - 1) as ->.
  { unfold to_int, u64. destruct len as [| n]; [ reflexivity | ].
    rewrite (Z.mod_small (Z.of_nat (S n) - 1)) by (eval_pow2; lia).
    rewrite Z.mod_small by (eval_pow2; lia). lia. }
  destruct (Z.ltb_spec (Z.min (Z.of_nat len - 1) (to_int (asg_size s))) 0); lia.
Qed.

Lemma retrieve_built_any `{StdSort} (docs : list (Document Key))
    (s : Assignment Key) (r : ResultSet) :
  indexable docs →
  ∃ r', Indexer.retrieve r s (Indexer.build docs) = Some r' ∧
        ∀ d, d ∈ r' ↔
             d ∈ r ∨ ∃ (i : nat) X,
                 (i < retrieve_count (Indexer.build docs) s)%nat ∧
                 true_match (required i) (size_origs docs s i) X ∧
                 d = Z.shiftr X 16.
Proof.
  intros Hix. rewrite retrieve_as_sizes.
  apply retrieve_sizes_correct. intros i _. apply build_groups_good. exact Hix.
Qed.

(** A positive entry with the id [X] in a group of the size [i] comes from
    the conjunction at the position [X], which has that size. *)
Lemma has_pos_decode (docs : list (Document Key)) (s : Assignment Key) (i : nat)
    (index : InvertedIndex Key) (X : EntryId) (o : list Entry) :
  indexable docs → indexs_ (Indexer.build docs) !! i = Some index →
  o ∈ size_origs docs s i → has_pos X o →
  ∃ (a b : nat) doc c,
    docs !! a = Some doc ∧ conjunctions doc !! b = Some c ∧
    getConjunctionSize c = i ∧ X = Z.of_nat a * 2 ^ 16 + Z.of_nat b ∧
    (i ≠ 0%nat → Exists (λ expr, positive expr = true ∧ predicate_hit s expr)
                        (expressions c)).
Proof.
  intros Hix Hindex Ho Hpos.
  apply (origs_inv docs s i index Hindex) in Ho as [(call & Hcall & ->) | (Hi0 & ->)].
  - destruct (pos_call_decode docs i index Hix Hindex X call Hpos)
      as (v & a & b & doc & c & Hv & Ha & Hb & (Hsz & expr & Hexpr & Hk & Hv' & Hp) & HX).
    exists a, b, doc, c. repeat (split; [ assumption | ]).
    intros _. apply Exists_exists. exists expr.
    split; [ exact Hexpr | ]. split; [ exact Hp | ].
    apply Exists_exists. exists v. split; [ | exact Hv' ].
    apply asg_values_elem. exists call.2. split; [ | exact Hv ].
    rewrite Hk. destruct call. exact Hcall.
  - apply Exists_exists in Hpos as (e & He & HX & _).
    apply build_z_elem in He as (a & b & doc & c & Ha & Hb & Hsz & ->).
    destruct (indexable_conjunction docs a b doc c Hix Ha Hb) as (Hin & _).
    rewrite Entry_new_id in HX by exact Hin.
    exists a, b, doc, c. repeat (split; [ congruence | ]).
    intros Hne. contradiction.
Qed.

Lemma true_match_has_pos (k : nat) (origs : list (list Entry)) (X : EntryId) :
  (1 <= k)%nat → true_match k origs X → ∃ o, o ∈ origs ∧ has_pos X o.
Proof.
  intros Hk [Hcount _].
  destruct (filter (has_pos X) origs) as [| o rest] eqn:Hf; [ simpl in Hcount; lia | ].
  assert (o ∈ filter (has_pos X) origs) as Hin by (rewrite Hf; left).
  apply list_elem_of_filter in Hin as [Hpos Hin]. eauto.
Qed.

Lemma required_pos (i : nat) : (1 <= required i)%nat.
Proof. unfold required. destruct (Nat.eqb_spec i 0); lia. Qed.

(** X25: for every assignment, with any [size()] and any calls, a
    document that [retrieve] adds on the index of an indexable list has a
    conjunction none of whose negative predicates is hit by the
    assignment, and, when the conjunction has positive predicates, one of
    them is hit: a veto is never overridden. *)
Theorem retrieve_respects_negatives `{StdSort} (docs : list (Document Key))
    (s : Assignment Key) (r : ResultSet) :
  indexable docs →
  ∃ r', Indexer.retrieve r s (Indexer.create docs) = Some r' ∧
        ∀ d, d ∈ r' →
             d ∈ r ∨
             ∃ (a : nat) doc c,
               docs !! a = Some doc ∧ d = Z.of_nat a ∧ c ∈ conjunctions doc ∧
               Forall (λ expr, positive expr = false → expression_holds s expr)
                      (expressions c) ∧
               (getConjunctionSize c ≠ 0%nat →
                Exists (λ expr, positive expr = true ∧ predicate_hit s expr)
                       (expressions c)).
Proof.
  intros Hix. unfold Indexer.create.
  destruct (retrieve_built_any docs s r Hix) as (r' & Hr' & Hchar).
  exists r'. split; [ exact Hr' | ]. intros d Hd.
  apply Hchar in Hd as [Hd | (i & X & Hi & HX & ->)]; [ left; exact Hd | right ].
  pose proof (retrieve_count_le docs s Hix) as Hle.
  destruct (lookup_lt_is_Some_2 (indexs_ (Indexer.build docs)) i ltac:(lia))
    as [index Hindex].
  destruct (true_match_has_pos _ _ X (required_pos i) HX) as (o & Ho & Hpos).
  destruct (has_pos_decode docs s i index X o Hix Hindex Ho Hpos)
    as (a & b & doc & c & Ha & Hb & Hsz & -> & Hhit).
  destruct (indexable_conjunction docs a b doc c Hix Ha Hb) as (Hin & _).
  exists a, doc, c. split; [ exact Ha | ].
  split; [ apply shiftr_position; exact Hin | ].
  split; [ eapply list_elem_of_lookup_2; exact Hb | ].
  split.
  - apply Forall_forall. intros expr Hexpr Hp.
    apply (negatives_hold docs s i index Hix Hindex
             (Z.of_nat a * 2 ^ 16 + Z.of_nat b) a b doc c expr);
      [ apply HX | | | | | | ]; auto.
  - intros Hne. apply Hhit. congruence.
Qed.

Lemma true_match_Permutation (k : nat) (o1 o2 : list (list Entry)) (X : EntryId) :
  o1 ≡ₚ o2 → true_match k o1 X → true_match k o2 X.
Proof.
  intros Hp [Hc Hn]. split.
  - rewrite <- Hp. exact Hc.
  - rewrite <- Hp. exact Hn.
Qed.

Lemma getPostingLists_Permutation (ix : Indexer Key) (i : nat)
    (s1 s2 : Assignment Key) :
  asg_calls s1 ≡ₚ asg_calls s2 →
  Indexer.getPostingLists ix i s1 ≡ₚ Indexer.getPostingLists ix i s2.
Proof.
  intros Hp.
  destruct (indexs_ ix !! i) as [index |] eqn:Hi.
  - rewrite !(getPostingLists_spec ix i _ index Hi), Hp. reflexivity.
  - rewrite !(getPostingLists_none ix i _ Hi). reflexivity.
Qed.

(** X26: the result of [retrieve] on the index of an indexable list does
    not depend on which conforming [std::sort] orders the groups, nor on
    the order in which [trigger] makes its calls: two sorts, and two
    assignments with the same [size()] whose calls are a permutation of
    each other, give the same set, for every assignment. *)
Theorem retrieve_order_independent (sort1 sort2 : StdSort)
    (docs : list (Document Key)) (s1 s2 : Assignment Key) (r : ResultSet) :
  indexable docs →
  asg_size s1 = asg_size s2 → asg_calls s1 ≡ₚ asg_calls s2 →
  @Indexer.retrieve Key _ _ sort1 r s1 (Indexer.create docs)
  = @Indexer.retrieve Key _ _ sort2 r s2 (Indexer.create docs).
Proof.
  intros Hix Hsize Hcalls. unfold Indexer.create.
  destruct (@retrieve_built_any sort1 docs s1 r Hix) as (r1 & -> & H1).
  destruct (@retrieve_built_any sort2 docs s2 r Hix) as (r2 & -> & H2).
  f_equal. apply set_eq. intros d. rewrite H1, H2.
  assert (retrieve_count (Indexer.build docs) s1
          = retrieve_count (Indexer.build docs) s2) as Hc
    by (unfold retrieve_count, Indexer.first_size; rewrite Hsize; reflexivity).
  rewrite Hc.
  assert (∀ i, size_origs docs s1 i ≡ₚ size_origs docs s2 i) as Hperm.
  { intros i. unfold size_origs. apply fmap_Permutation.
    apply getPostingLists_Permutation. exact Hcalls. }
  split; (intros [Hd | (i & X & Hi & HX & ->)]; [ left; exact Hd | right ]);
    exists i, X; (split; [ exact Hi | ]); (split; [ | reflexivity ]).
  - apply (true_match_Permutation _ _ _ _ (Hperm i) HX).
  - apply (true_match_Permutation _ _ _ _ (symmetry (Hperm i)) HX).
Qed.

End AnyAssignment.

Lemma retrieve_respects_negatives_witness :
  let docs := [mkDocument [mkConjunction [mkExpression "a" (IntValues [1]) true;
                                          mkExpression "b" (IntValues [2]) false]]] in
  let s := mkAssignment 5 [("a", IntValues [1]); ("a", IntValues [1]);
                           ("c", StringValues ["x"])] in
  ∃ r', Indexer.retrieve ∅ s (Indexer.create docs) = Some r' ∧
        ∀ d, d ∈ r' →
             d ∈ (∅ : ResultSet) ∨
             ∃ (a : nat) doc c,
               docs !! a = Some doc ∧ d = Z.of_nat a ∧ c ∈ conjunctions doc ∧
               Forall (λ expr, positive expr = false → expression_holds s expr)
                      (expressions c) ∧
               (getConjunctionSize c ≠ 0%nat →
                Exists (λ expr, positive expr = true ∧ predicate_hit s expr)
                       (expressions c)).
Proof.
  intros docs s. apply (retrieve_respects_negatives docs s ∅).
  apply (bool_decide_unpack _). vm_compute. exact I.
Defined.

Lemma retrieve_order_independent_witness :
  let docs := [mkDocument [mkConjunction [mkExpression "a" (IntValues [1]) true;
                                          mkExpression "b" (IntValues [2]) true]];
               mkDocument [mkConjunction [mkExpression "b" (IntValues [2]) true]]] in
  let s1 := mkAssignment 2 [("a", IntValues [1]); ("b", IntValues [2])] in
  let s2 := mkAssignment 2 [("b", IntValues [2]); ("a", IntValues [1])] in
  @Indexer.retrieve string _ _ merge_StdSort ∅ s1 (Indexer.create docs)
  = @Indexer.retrieve string _ _ rev_StdSort ∅ s2 (Indexer.create docs).
Proof.
  intros docs s1 s2.
  apply (retrieve_order_independent merge_StdSort rev_StdSort docs s1 s2 ∅).
  - apply (bool_decide_unpack _). vm_compute. exact I.
  - reflexivity.
  - apply perm_swap.
Defined.

(** ** The inner loop of [retrieve] *)

Section InnerLoop.
Context `{StdSort}.

Lemma merge_loop_fuel (k fuel extra : nat) (gs : list PostingListGroup)
    (r r' : ResultSet) :
  Indexer.merge_loop fuel k gs r = Some r' →
  Indexer.merge_loop (fuel + extra) k gs r = Some r'.
Proof.
  revert gs r. induction fuel as [| fuel IH]; intros gs r; [ discriminate | ].
  simpl. destruct (Indexer.merge_step k gs r) as [[| gs1 r1] |];
    [ auto | apply IH | discriminate ].
Qed.

(** X27: the inner loop ends on every vector of groups that keep the
    invariant of the class: a turn is always defined, a turn that goes
    round strictly lowers the number of entries ahead of the cursors and
    keeps the invariant and the number of groups, and so the loop returns
    within one turn more than there are entries ahead; the result does
    not depend on the bound of the model once the bound is that large. *)
Theorem inner_loop_terminates (k : nat) (gs : list PostingListGroup)
    (r : ResultSet) :
  Forall group_inv gs → (1 <= k <= length gs)%nat →
  is_Some (Indexer.merge_step k gs r) ∧
  (∀ gs' r', Indexer.merge_step k gs r = Some (Continue gs' r') →
             (Indexer.remaining gs' < Indexer.remaining gs)%nat ∧
             Forall group_inv gs' ∧ length gs' = length gs) ∧
  ∃ r', Indexer.merge_loop (S (Indexer.remaining gs)) k gs r = Some r' ∧
        ∀ fuel, (Indexer.remaining gs < fuel)%nat →
                Indexer.merge_loop fuel k gs r = Some r'.
Proof.
  intros Hinv Hk.
  split; [ apply merge_step_defined; assumption | ].
  split; [ intros gs' r'; apply merge_step_progress; assumption | ].
  destruct (merge_loop_total k (S (Indexer.remaining gs)) gs r Hinv Hk ltac:(lia))
    as [r' Hr'].
  exists r'. split; [ exact Hr' | ]. intros fuel Hfuel.
  replace fuel with (S (Indexer.remaining gs) + (fuel - S (Indexer.remaining gs)))%nat
    by lia.
  apply merge_loop_fuel. exact Hr'.
Qed.

(** X28: the inner loop for [k] required groups, on groups over ascending
    posting lists without the sentinel, adds to the result exactly the
    document ids of the ids that at least [k] of the groups hold in a
    positive entry and that no group holds in a negative entry; the
    document id of an id is the id without its low 16 bits. *)
Theorem inner_loop_spec (k : nat) (gs : list PostingListGroup) (r : ResultSet) :
  Forall good_group gs → (1 <= k <= length gs)%nat →
  ∃ r', Indexer.merge_loop (S (Indexer.remaining gs)) k gs r = Some r' ∧
        ∀ d, d ∈ r' ↔
             d ∈ r ∨ ∃ X, true_match k (group_entries <$> gs) X ∧
                          d = Z.shiftr X 16.
Proof.
  intros Hgood Hk. apply merge_loop_correct; assumption.
Qed.

End InnerLoop.

Lemma inner_loop_terminates_witness :
  let g0 := PostingListGroup.add
              (PostingList.new [Entry.new 0 0 true; Entry.new 2 0 true])
              PostingListGroup.new in
  let g1 := PostingListGroup.add
              (PostingList.new [Entry.new 1 0 true; Entry.new 2 0 true])
              PostingListGroup.new in
  let gs := [g0; g1] in
  is_Some (Indexer.merge_step 2 gs ∅) ∧
  (∀ gs' r', Indexer.merge_step 2 gs ∅ = Some (Continue gs' r') →
             (Indexer.remaining gs' < Indexer.remaining gs)%nat ∧
             Forall group_inv gs' ∧ length gs' = length gs) ∧
  ∃ r', Indexer.merge_loop (S (Indexer.remaining gs)) 2 gs ∅ = Some r' ∧
        ∀ fuel, (Indexer.remaining gs < fuel)%nat →
                Indexer.merge_loop fuel 2 gs ∅ = Some r'.
Proof.
  intros g0 g1 gs. apply (inner_loop_terminates 2 gs ∅).
  - repeat (apply Forall_cons_2;
            [ apply reachable_group_inv, reachable_add;
              [ solve_valid | apply reachable_new ] | ]).
    apply Forall_nil_2.
  - simpl. lia.
Defined.

Lemma inner_loop_spec_witness :
  let g0 := PostingListGroup.add
              (PostingList.new [Entry.new 0 0 true; Entry.new 2 0 true])
              PostingListGroup.new in
  let g1 := PostingListGroup.add
              (PostingList.new [Entry.new 1 0 true; Entry.new 2 0 true])
              PostingListGroup.new in
  let gs := [g0; g1] in
  ∃ r', Indexer.merge_loop (S (Indexer.remaining gs)) 2 gs ∅ = Some r' ∧
        ∀ d, d ∈ r' ↔
             d ∈ (∅ : ResultSet)
             ∨ ∃ X, true_match 2 (group_entries <$> gs) X ∧ d = Z.shiftr X 16.
Proof.
  intros g0 g1 gs. apply (inner_loop_spec 2 gs ∅).
  - repeat (apply Forall_cons_2;
            [ apply good_group_add; [ | apply good_group_new ];
              split; [ | split ];
              [ repeat (apply SSorted_cons;
                        [ | repeat (apply Forall_cons_2; [ vm_compute; congruence | ]);
                            apply Forall_nil_2 ]);
                apply SSorted_nil
              | repeat (apply Forall_cons_2; [ vm_compute; split; congruence | ]);
                apply Forall_nil_2
              | repeat (apply Forall_cons_2; [ vm_compute; congruence | ]);
                apply Forall_nil_2 ]
            | ]).
    apply Forall_nil_2.
  - simpl. lia.
Defined.

Section Branches.

(** X29: the two other branches of a turn, for [k ≥ 1] and a group
    [plists[k - 1]] that is not empty.  When group 0 and group [k - 1]
    stand on different ids, the first [k] groups are moved to the id of
    group [k - 1] and nothing is added; when they stand on the same id and
    group 0 on a positive entry, the document of that id is added and the
    first [k] groups are moved past the id.  The groups from index [k] on
    are not touched, and an empty group [plists[k - 1]] ends the loop. *)
Theorem advance_branches_spec (k : nat) (plists : list PostingListGroup)
    (result : ResultSet) (g0 gk : PostingListGroup) :
  plists !! 0%nat = Some g0 →
  plists !! (k - 1)%nat = Some gk →
  (1 <= k)%nat →
  is_u64 (value_ (PostingListGroup.current gk)) →
  let id0 := Entry.id (PostingListGroup.current g0) in
  let idk := Entry.id (PostingListGroup.current gk) in
  (PostingListGroup.empty gk = true →
   Indexer.merge_body k plists result = Some Break) ∧
  (PostingListGroup.empty gk = false → id0 ≠ idk →
   Indexer.merge_body k plists result
   = Some (Continue ((PostingListGroup.skipTo idk <$> take k plists)
                     ++ drop k plists) result)) ∧
  (PostingListGroup.empty gk = false → id0 = idk →
   Entry.isNegative (PostingListGroup.current g0) = false →
   Indexer.merge_body k plists result
   = Some (Continue ((PostingListGroup.skipTo (idk + 1) <$> take k plists)
                     ++ drop k plists)
                    ({[ Entry.documentId (PostingListGroup.current gk) ]} ∪ result))).
Proof.
  intros H0 Hk Hk1 Hvk id0 idk. unfold Indexer.merge_body. rewrite Hk, H0.
  split; [ intros ->; reflexivity | ]. split.
  - intros -> Hne. apply Z.eqb_neq in Hne. subst id0 idk. rewrite Hne.
    rewrite skip_first_spec. reflexivity.
  - intros -> Heq Hpos. apply Z.eqb_eq in Heq. subst id0 idk.
    rewrite Heq, Hpos. rewrite (Entry_id_succ _ Hvk), skip_first_spec.
    reflexivity.
Qed.

End Branches.

Lemma advance_branches_spec_witness :
  let g0 := PostingListGroup.add (PostingList.new [Entry.new 0 0 true])
              PostingListGroup.new in
  let g1 := PostingListGroup.add
              (PostingList.new [Entry.new 0 0 true; Entry.new 1 0 true])
              PostingListGroup.new in
  let plists := [g0; g1] in
  let id0 := Entry.id (PostingListGroup.current g0) in
  let idk := Entry.id (PostingListGroup.current g1) in
  (PostingListGroup.empty g1 = true →
   Indexer.merge_body 2 plists ∅ = Some Break) ∧
  (PostingListGroup.empty g1 = false → id0 ≠ idk →
   Indexer.merge_body 2 plists ∅
   = Some (Continue ((PostingListGroup.skipTo idk <$> take 2 plists)
                     ++ drop 2 plists) ∅)) ∧
  (PostingListGroup.empty g1 = false → id0 = idk →
   Entry.isNegative (PostingListGroup.current g0) = false →
   Indexer.merge_body 2 plists ∅
   = Some (Continue ((PostingListGroup.skipTo (idk + 1) <$> take 2 plists)
                     ++ drop 2 plists)
                    ({[ Entry.documentId (PostingListGroup.current g1) ]} ∪ ∅))).
Proof.
  intros g0 g1 plists.
  apply (advance_branches_spec 2 plists ∅ g0 g1);
    [ reflexivity | reflexivity | lia | vm_compute; split; congruence ].
Defined.

(** ** The example program *)

Section ExampleFacts.
Context `{StdSort}.

Lemma example_retrieve (s : Assignment string) :
  well_formed_assignment s →
  ∃ r', Indexer.retrieve ∅ s (Indexer.build Example.docs) = Some r' ∧
        ∀ d, d ∈ r' ↔ d = 0 ∧ document_matches s
                                 (mkDocument [mkConjunction
                                    [mkExpression "a" (IntValues [3]) true]]).
Proof.
  intros Hs.
  assert (indexable Example.docs) as Hix
    by (apply (bool_decide_unpack _); vm_compute; exact I).
  destruct (retrieve_built_sizes Example.docs s ∅ Hix Hs) as (r' & Hr' & Hchar).
  exists r'. split; [ exact Hr' | ]. intros d. rewrite Hchar. split.
  - intros [Hd | (i & X & Hi & _ & HX & ->)]; [ apply not_elem_of_empty in Hd; contradiction | ].
    destruct (found_document_matches Example.docs s i X Hix Hs Hi HX)
      as (a & doc & Ha & Hd & Hm).
    destruct a as [| a]; [ | discriminate ].
    injection Ha as <-. split; [ exact Hd | exact Hm ].
  - intros [-> Hm]. right.
    apply Exists_exists in Hm as (c & Hc & Hholds).
    apply list_elem_of_lookup in Hc as (b & Hb).
    apply (holding_conjunction_found Example.docs s 0 b _ c Hix Hs eq_refl Hb Hholds).
Qed.

(** X30: the program of [example.cpp].  Its index holds one document that
    asks for [a ∈ {3}], and its assignment reports the integer [va] under
    ["a"] and the strings [vb] under ["b"] with [size() = 2]: the
    retrieval returns document 0 when [va] is 3, as in the program, and
    nothing for any other [va], whatever [vb] is. *)
Theorem example_main (va : Z) (vb : list string) :
  Example.main va vb = Some (if decide (va = 3) then {[ 0 ]} else ∅).
Proof.
  unfold Example.main, Indexer.create.
  assert (well_formed_assignment (Example.assignment va vb)) as Hs.
  { split; [ | simpl; unfold Example.size; eval_pow2; lia ].
    simpl. apply NoDup_cons. split; [ | apply NoDup_singleton ].
    intros Hin. apply list_elem_of_singleton in Hin. discriminate. }
  destruct (example_retrieve (Example.assignment va vb) Hs) as (r' & -> & Hchar).
  f_equal. apply set_eq. intros d. rewrite Hchar.
  assert (document_matches (Example.assignment va vb)
            (mkDocument [mkConjunction [mkExpression "a" (IntValues [3]) true]])
          ↔ va = 3) as ->.
  { unfold document_matches, conjunction_holds. simpl.
    rewrite Exists_cons, Exists_nil. simpl.
    rewrite Forall_cons, Forall_nil.
    unfold expression_holds, predicate_hit. simpl.
    assert (asg_values (Example.assignment va vb) "a" = [IntValue va]) as ->
      by reflexivity.
    rewrite Exists_cons, Exists_nil, list_elem_of_singleton.
    split.
    - intros [[[[= <-] | []] _] | []]. reflexivity.
    - intros ->. left. split; [ left; reflexivity | exact I ]. }
  destruct (decide (va = 3)) as [-> | Hne].
  - rewrite elem_of_singleton. tauto.
  - rewrite elem_of_empty. tauto.
Qed.

End ExampleFacts.
